(** * Shader-Lab-3D: the shader validation and hot-swap pipeline

    A shallow embedding of the parts of [components/ShaderScene.tsx],
    [components/Controls.tsx], [components/EditorPanel.tsx], [App.tsx] and
    [constants.ts] that validate a shader pair, normalise the compiler's
    diagnostics, promote the pair to the rendered ("safe") state, keep the
    uniform table of the material in step with the user's declarations, the
    lights and the render loop, edit the lists of the controls panel,
    highlight the source in the editor, and report the outcome of a run.

    The first half of the file is the embedding, one module per concern
    ([Diagnostics], [Validation], [Uniforms], [Controls], [Editor], [App],
    [Constants]); the second half holds the properties, in modules of the
    same names with the suffix [Facts].

    Conventions of the embedding.
    - JavaScript strings are [string], a character standing for a code unit
      below 256; the regular expression of [parseErrorLog] only inspects ASCII
      characters.
    - JavaScript numbers are IEEE doubles.  Line numbers are embedded as [Z]
      and uniform values as [Q]: on integers up to 2^53 - 1 the operations used
      by [parseErrorLog] (parseInt, subtraction, Math.max, printing) are exact,
      and the statements about line numbers carry that bound.  [Q] idealises
      the few arithmetic operations of the render loop.
    - Objects that the code mutates in place (the uniform table, the light
      arrays, the WebGL context) are threaded as explicit state; the one
      table shared by all materials lives in a heap and is reached through a
      reference.
    - A JavaScript exception is an explicit [Completion].
    - What belongs to the libraries (the WebGL driver, three.js colour
      parsing, the engine's pointer convention, the random source, the
      canvas encoder) is a parameter or a definition marked as such. *)

From Stdlib Require Import ZArith QArith Qround Strings.String Strings.Ascii Lia Lqa.
From stdpp Require Import gmap strings list fin_maps pretty.
From Equations Require Import Equations.



(** ** Diagnostic normaliser ([parseErrorLog], [countLines], the offsets) *)

Module Diagnostics.

(** The prefixes that three.js puts before the user's source; the validation
    pass prepends the same text. *)
Definition nl : string := String (ascii_of_nat 10) "".

Definition THREE_VERTEX_PREFIX : string :=
  nl +:+ "#define SHADER_NAME ShaderMaterial" +:+
  nl +:+ "#define VERTEX" +:+
  nl +:+ "precision highp float;" +:+
  nl +:+ "uniform mat4 modelMatrix;" +:+
  nl +:+ "uniform mat4 modelViewMatrix;" +:+
  nl +:+ "uniform mat4 projectionMatrix;" +:+
  nl +:+ "uniform mat4 viewMatrix;" +:+
  nl +:+ "uniform mat3 normalMatrix;" +:+
  nl +:+ "uniform vec3 cameraPosition;" +:+
  nl +:+ "attribute vec3 position;" +:+
  nl +:+ "attribute vec3 normal;" +:+
  nl +:+ "attribute vec2 uv;" +:+ nl.

Definition THREE_FRAGMENT_PREFIX : string :=
  nl +:+ "#define SHADER_NAME ShaderMaterial" +:+
  nl +:+ "#define FRAGMENT" +:+
  nl +:+ "precision highp float;" +:+
  nl +:+ "uniform mat4 viewMatrix;" +:+
  nl +:+ "uniform vec3 cameraPosition;" +:+ nl.

(** [(str.match(/\n/g) || []).length] *)
Fixpoint countLines (str : string) : nat :=
  match str with
  | "" => 0
  | String c rest =>
      (if Ascii.eqb c (ascii_of_nat 10) then 1 else 0) + countLines rest
  end.

Definition VERTEX_OFFSET : nat := countLines THREE_VERTEX_PREFIX.
Definition FRAGMENT_OFFSET : nat := countLines THREE_FRAGMENT_PREFIX.

(** [\d] without the unicode flag: the ten ASCII digits. *)
Definition isDigit (c : ascii) : bool :=
  let n := nat_of_ascii c in (48 <=? n)%nat && (n <=? 57)%nat.

Fixpoint allDigits (s : string) : bool :=
  match s with
  | "" => true
  | String c rest => isDigit c && allDigits rest
  end.

(** [\d+] is greedy: it takes the longest run of digits.  Giving a digit back
    never helps here, because the next atom of the pattern is [:]. *)
Fixpoint spanDigits (s : string) : string * string :=
  match s with
  | "" => ("", "")
  | String c rest =>
      if isDigit c
      then let '(ds, tl) := spanDigits rest in (String c ds, tl)
      else ("", s)
  end.

(** Match a literal at the head of [s]; the remainder on success. *)
Fixpoint dropPrefix (lit s : string) : option string :=
  match lit, s with
  | "", _ => Some s
  | String a lit', String b s' => if Ascii.eqb a b then dropPrefix lit' s' else None
  | String _ _, "" => None
  end.

Definition expectColon (s : string) : option string :=
  match s with
  | String ":" rest => Some rest
  | _ => None
  end.

Definition digitsPlus (s : string) : option (string * string) :=
  match spanDigits s with
  | ("", _) => None
  | (ds, tl) => Some (ds, tl)
  end.

(** One attempt of [/ERROR: \d+:(\d+):/] anchored at the head of [s]: the
    captured group and the text after the match. *)
Definition matchAt (s : string) : option (string * string) :=
  s1 ← dropPrefix "ERROR: " s;
  '(_, s2) ← digitsPlus s1;
  s3 ← expectColon s2;
  '(line, s4) ← digitsPlus s3;
  s5 ← expectColon s4;
  Some (line, s5).

(** [parseInt] on a string of decimal digits. *)
Definition digitValue (c : ascii) : Z := Z.of_nat (nat_of_ascii c) - 48.

Fixpoint parseIntFrom (acc : Z) (s : string) : Z :=
  match s with
  | "" => acc
  | String c rest => parseIntFrom (10 * acc + digitValue c) rest
  end.

Definition parseInt (s : string) : Z := parseIntFrom 0 s.

(** The replacement callback of [parseErrorLog]. *)
Definition replacement (line : string) (offset : Z) : string :=
  let adjusted := Z.max 1 (parseInt line - offset) in
  "ERROR: line " +:+ pretty adjusted +:+ ":".

Lemma dropPrefix_shorter lit s r :
  dropPrefix lit s = Some r -> String.length r <= String.length s.
Proof.
  revert s; induction lit as [|a lit IH]; intros [|b s]; simpl; try congruence.
  - intros [= <-]. simpl. lia.
  - intros [= <-]. simpl. lia.
  - destruct (Ascii.eqb a b); [|congruence]. intros H. apply IH in H. lia.
Qed.

Lemma spanDigits_length s :
  String.length (spanDigits s).1 + String.length (spanDigits s).2 = String.length s.
Proof.
  induction s as [|c s IH]; simpl; [reflexivity|].
  destruct (isDigit c); simpl; [|reflexivity].
  destruct (spanDigits s) as [ds tl]; simpl in *. lia.
Qed.

Lemma digitsPlus_shorter s ds tl :
  digitsPlus s = Some (ds, tl) -> String.length tl < String.length s.
Proof.
  unfold digitsPlus. pose proof (spanDigits_length s) as H.
  destruct (spanDigits s) as [[|c d] t]; simpl in *; [congruence|].
  intros [= <- <-]. simpl in *. lia.
Qed.

Lemma expectColon_shorter s r :
  expectColon s = Some r -> String.length r < String.length s.
Proof.
  destruct s as [|c s]; simpl; [congruence|].
  destruct (Ascii.eqb_spec c ":") as [->|Hne].
  - intros [= <-]. simpl. lia.
  - destruct c as [[] [] [] [] [] [] [] []]; simpl; congruence.
Qed.

Lemma matchAt_shorter s line rest :
  matchAt s = Some (line, rest) -> String.length rest < String.length s.
Proof.
  unfold matchAt. intros H.
  destruct (dropPrefix "ERROR: " s) as [s1|] eqn:E1; simpl in H; [|congruence].
  destruct (digitsPlus s1) as [[d1 s2]|] eqn:E2; simpl in H; [|congruence].
  destruct (expectColon s2) as [s3|] eqn:E3; simpl in H; [|congruence].
  destruct (digitsPlus s3) as [[d2 s4]|] eqn:E4; simpl in H; [|congruence].
  destruct (expectColon s4) as [s5|] eqn:E5; simpl in H; [|congruence].
  injection H as <- <-.
  apply dropPrefix_shorter in E1. apply digitsPlus_shorter in E2, E4.
  apply expectColon_shorter in E3, E5. lia.
Qed.

Definition inspect {A} (a : A) : {b : A | a = b} := exist _ a eq_refl.

(** [log.replace(/ERROR: \d+:(\d+):/g, callback)]: the scan looks for a match
    at the current index; on a match it emits the callback's text and resumes
    after the match, otherwise it copies one character and moves on. *)
Equations? replaceAll (offset : Z) (log : string) : string
  by wf (String.length log) lt :=
  replaceAll offset log with inspect (matchAt log) := {
    | exist _ (Some (line, rest)) _ => replacement line offset +:+ replaceAll offset rest
    | exist _ None _ with log := {
        | "" => ""
        | String c tl => String c (replaceAll offset tl) } }.
Proof.
  eapply matchAt_shorter; eassumption.
Qed.

Definition parseErrorLog (log : string) (offset : nat) : string :=
  replaceAll (Z.of_nat offset) log.

(** [Number.MAX_SAFE_INTEGER]: up to here doubles hold integers exactly. *)
Definition MAX_SAFE_INTEGER : Z := 2 ^ 53 - 1.

(** A non-empty run of decimal digits, as [\d+] matches it. *)
Definition digits (s : string) : Prop := s <> "" /\ allDigits s = true.

(** [s] begins with an occurrence of the pattern [ERROR: <int>:<line>:]. *)
Definition occurrenceAt (s d line rest : string) : Prop :=
  s = "ERROR: " +:+ d +:+ ":" +:+ line +:+ ":" +:+ rest /\ digits d /\ digits line.

Definition startsWithOccurrence (s : string) : Prop :=
  exists d line rest, occurrenceAt s d line rest.

(** Some suffix of [log] begins with an occurrence. *)
Definition hasOccurrence (log : string) : Prop :=
  exists before s, log = before +:+ s /\ startsWithOccurrence s.

(** No suffix of [s] begins with an occurrence. *)
Definition clean (s : string) : Prop :=
  forall before t, s = before +:+ t -> matchAt t = None.

(** Strings without the letter [E], with which every occurrence begins. *)
Definition notE (c : ascii) : bool := negb (Ascii.eqb c "E").

Fixpoint noE (s : string) : bool :=
  match s with
  | "" => true
  | String c rest => notE c && noE rest
  end.

End Diagnostics.

(** ** The validation effect of [ShaderMesh] and the safe state *)

Module Validation.
Import Diagnostics.

Inductive ShaderType := VERTEX_SHADER | FRAGMENT_SHADER.

#[global] Instance ShaderType_eq_dec : EqDecision ShaderType.
Proof. solve_decision. Defined.

(** The WebGL implementation is an opaque oracle.  A [Driver] fixes what it
    answers: whether a context, a shader object or a program object can be
    had, whether a source compiles, whether two compiled sources link, and
    the info logs ([null] is [None]). *)
Record Driver := {
  has_webgl2 : bool;
  creates_shader : ShaderType -> bool;
  compile_status : ShaderType -> string -> bool;
  shader_info_log : ShaderType -> string -> option string;
  creates_program : bool;
  link_status : string -> string -> bool;
  program_info_log : string -> string -> option string }.

Definition handle := nat.

Record ShaderObject := { sh_type : ShaderType; sh_source : string }.

(** The calls that reach the context, in order. *)
Inductive Call :=
| CreateShader (type : ShaderType) (result : option handle)
| ShaderSource (shader : handle) (source : string)
| CompileShader (shader : handle)
| GetShaderParameter (shader : handle)
| GetShaderInfoLog (shader : handle)
| DeleteShader (shader : handle)
| CreateProgram (result : option handle)
| AttachShader (program shader : handle)
| LinkProgram (program : handle)
| GetProgramParameter (program : handle)
| GetProgramInfoLog (program : handle)
| DeleteProgram (program : handle).

(** The state of one WebGL context: the shader and program objects that are
    alive (created and not deleted), and the log of calls. *)
Record Context := {
  next_handle : handle;
  shaders : gmap handle ShaderObject;
  programs : gmap handle (list handle);
  calls : list Call }.

Definition newContext : Context :=
  {| next_handle := 1; shaders := ∅; programs := ∅; calls := [] |}.

(** Computations over a context. *)
Definition GL (A : Type) : Type := Context -> A * Context.

Definition gl_ret {A} (a : A) : GL A := fun ctx => (a, ctx).
Definition gl_bind {A B} (m : GL A) (k : A -> GL B) : GL B :=
  fun ctx => let '(a, ctx') := m ctx in k a ctx'.

Notation "'let*' x ':=' m 'in' k" := (gl_bind m (fun x => k))
  (at level 10, x name, m at level 100, k at level 200, only parsing).
Notation "m ';;' k" := (gl_bind m (fun _ => k))
  (at level 100, k at level 200, right associativity, only parsing).

Definition logged (c : Call) (ctx : Context) : Context :=
  {| next_handle := next_handle ctx; shaders := shaders ctx;
     programs := programs ctx; calls := calls ctx ++ [c] |}.

Section Oracle.
Variable drv : Driver.

Definition createShader (type : ShaderType) : GL (option handle) := fun ctx =>
  if creates_shader drv type then
    let h := next_handle ctx in
    (Some h,
     {| next_handle := S h;
        shaders := <[h := {| sh_type := type; sh_source := "" |}]> (shaders ctx);
        programs := programs ctx;
        calls := calls ctx ++ [CreateShader type (Some h)] |})
  else (None, logged (CreateShader type None) ctx).

Definition shaderSource (shader : handle) (source : string) : GL unit := fun ctx =>
  (tt,
   {| next_handle := next_handle ctx;
      shaders := alter (fun o => {| sh_type := sh_type o; sh_source := source |})
                       shader (shaders ctx);
      programs := programs ctx;
      calls := calls ctx ++ [ShaderSource shader source] |}).

Definition compileShader (shader : handle) : GL unit := fun ctx =>
  (tt, logged (CompileShader shader) ctx).

(** [gl.getShaderParameter(shader, gl.COMPILE_STATUS)] *)
Definition getShaderParameter (shader : handle) : GL bool := fun ctx =>
  (match shaders ctx !! shader with
   | Some o => compile_status drv (sh_type o) (sh_source o)
   | None => false
   end,
   logged (GetShaderParameter shader) ctx).

Definition getShaderInfoLog (shader : handle) : GL (option string) := fun ctx =>
  (match shaders ctx !! shader with
   | Some o => shader_info_log drv (sh_type o) (sh_source o)
   | None => None
   end,
   logged (GetShaderInfoLog shader) ctx).

(** A deleted shader leaves the set of live objects.  (A shader still
    attached to a program goes when the program does; the validation pass
    deletes the program right after.) *)
Definition deleteShader (shader : handle) : GL unit := fun ctx =>
  (tt,
   {| next_handle := next_handle ctx;
      shaders := delete shader (shaders ctx);
      programs := programs ctx;
      calls := calls ctx ++ [DeleteShader shader] |}).

Definition createProgram : GL (option handle) := fun ctx =>
  if creates_program drv then
    let h := next_handle ctx in
    (Some h,
     {| next_handle := S h;
        shaders := shaders ctx;
        programs := <[h := []]> (programs ctx);
        calls := calls ctx ++ [CreateProgram (Some h)] |})
  else (None, logged (CreateProgram None) ctx).

Definition attachShader (program shader : handle) : GL unit := fun ctx =>
  (tt,
   {| next_handle := next_handle ctx;
      shaders := shaders ctx;
      programs := alter (fun l => l ++ [shader]) program (programs ctx);
      calls := calls ctx ++ [AttachShader program shader] |}).

Definition linkProgram (program : handle) : GL unit := fun ctx =>
  (tt, logged (LinkProgram program) ctx).

(** The source of the attached shader of the given stage, which is what the
    linker sees. *)
Definition attachedSource (ctx : Context) (program : handle) (type : ShaderType) : string :=
  match programs ctx !! program with
  | Some attached =>
      match List.filter (fun o => bool_decide (sh_type o = type))
                        (omap (fun h => shaders ctx !! h) attached) with
      | o :: _ => sh_source o
      | [] => ""
      end
  | None => ""
  end.

(** [gl.getProgramParameter(program, gl.LINK_STATUS)] *)
Definition getProgramParameter (program : handle) : GL bool := fun ctx =>
  (link_status drv (attachedSource ctx program VERTEX_SHADER)
                   (attachedSource ctx program FRAGMENT_SHADER),
   logged (GetProgramParameter program) ctx).

Definition getProgramInfoLog (program : handle) : GL (option string) := fun ctx =>
  (program_info_log drv (attachedSource ctx program VERTEX_SHADER)
                        (attachedSource ctx program FRAGMENT_SHADER),
   logged (GetProgramInfoLog program) ctx).

Definition deleteProgram (program : handle) : GL unit := fun ctx =>
  (tt,
   {| next_handle := next_handle ctx;
      shaders := shaders ctx;
      programs := delete program (programs ctx);
      calls := calls ctx ++ [DeleteProgram program] |}).

(** The result object of the local function [compile]. *)
Record CompileResult := { error : option string; shader : option handle }.

(** JavaScript truthiness of a [string | null]. *)
Definition truthy (s : option string) : bool :=
  match s with
  | Some (String _ _) => true
  | _ => false
  end.

(** A [string | null] inside a template literal. *)
Definition interpolate (s : option string) : string :=
  match s with
  | Some s => s
  | None => "null"
  end.

Definition compile (type : ShaderType) (source : string) : GL CompileResult :=
  let* sh := createShader type in
  match sh with
  | None => gl_ret {| error := Some "Failed to create shader"; shader := None |}
  | Some sh =>
      shaderSource sh source ;;
      compileShader sh ;;
      let* ok := getShaderParameter sh in
      if negb ok then
        let* info := getShaderInfoLog sh in
        deleteShader sh ;;
        gl_ret {| error := info; shader := None |}
      else gl_ret {| error := None; shader := Some sh |}
  end.

(** The props of [ShaderMesh] that the validation effect reads.  The two
    handlers are optional. *)
Record Props := {
  vertexShader : string;
  fragmentShader : string;
  has_onError : bool;
  has_onSuccess : bool }.

(** What the effect does to the component and its parent. *)
Inductive Action :=
| onError (message : string)
| onSuccess
| setSafeVertex (source : string)
| setSafeFragment (source : string).

(** The [return] statement through which the effect leaves. *)
Inductive Exit :=
| NoContext
| VertexError
| FragmentError
| LinkError
| Promoted.

Definition call (given : bool) (a : Action) : list Action :=
  if given then [a] else [].

(** The body of the validation [useEffect], from step 1 on; the context has
    just been created. *)
Definition validate (props : Props) : GL (Exit * list Action) :=
  let vsSource := THREE_VERTEX_PREFIX +:+ vertexShader props in
  let fsSource := THREE_FRAGMENT_PREFIX +:+ fragmentShader props in
  let* vsResult := compile VERTEX_SHADER vsSource in
  let* fsResult := compile FRAGMENT_SHADER fsSource in
  if truthy (error vsResult) then
    gl_ret (VertexError,
            call (has_onError props)
              (onError ("VERTEX SHADER ERROR:" +:+ nl +:+
                        parseErrorLog (interpolate (error vsResult)) VERTEX_OFFSET)))
  else if truthy (error fsResult) then
    gl_ret (FragmentError,
            call (has_onError props)
              (onError ("FRAGMENT SHADER ERROR:" +:+ nl +:+
                        parseErrorLog (interpolate (error fsResult)) FRAGMENT_OFFSET)))
  else
    let* program := createProgram in
    let finish : GL (Exit * list Action) :=
      (match shader vsResult with Some s => deleteShader s | None => gl_ret tt end) ;;
      (match shader fsResult with Some s => deleteShader s | None => gl_ret tt end) ;;
      (match program with Some p => deleteProgram p | None => gl_ret tt end) ;;
      gl_ret (Promoted,
              call (has_onSuccess props) onSuccess ++
              [setSafeVertex (vertexShader props);
               setSafeFragment (fragmentShader props)]) in
    match program, shader vsResult, shader fsResult with
    | Some p, Some vs, Some fs =>
        attachShader p vs ;;
        attachShader p fs ;;
        linkProgram p ;;
        let* linked := getProgramParameter p in
        if negb linked then
          let* info := getProgramInfoLog p in
          gl_ret (LinkError,
                  call (has_onError props)
                    (onError ("LINKER ERROR (Varying Mismatch?):" +:+ nl +:+ interpolate info)))
        else finish
    | _, _, _ => finish
    end.

(** One run of the effect: where it left, what it did to the component, and
    the context it leaves behind. *)
Record Run := { exit : Exit; actions : list Action; context : Context }.

(** A canvas is created and a [webgl2] context is asked for; without one
    the effect returns at once. *)
Definition validationEffect (props : Props) : Run :=
  if has_webgl2 drv then
    let '(r, ctx) := validate props newContext in
    {| exit := r.1; actions := r.2; context := ctx |}
  else {| exit := NoContext; actions := []; context := newContext |}.

(** The safe state of [ShaderMesh]: two [useState] cells. *)
Record SafeState := { safeVertex : string; safeFragment : string }.

Definition applyAction (st : SafeState) (a : Action) : SafeState :=
  match a with
  | setSafeVertex v => {| safeVertex := v; safeFragment := safeFragment st |}
  | setSafeFragment f => {| safeVertex := safeVertex st; safeFragment := f |}
  | onError _ | onSuccess => st
  end.

(** React applies the state updates queued by an effect together, before the
    component renders again: the state a render can observe after a commit of
    [props] is the state after all the actions. *)
Definition commit (props : Props) (st : SafeState) : SafeState :=
  foldl applyAction st (actions (validationEffect props)).


(** Live objects of the context after a run. *)
Definition leaked (ctx : Context) : list handle :=
  (map_to_list (shaders ctx)).*1 ++ (map_to_list (programs ctx)).*1.




Definition linkCalls (ctx : Context) : nat :=
  length (List.filter (fun c => match c with LinkProgram _ => true | _ => false end)
                      (calls ctx)).

(** The error that [compile] hands back, read off the driver's answers. *)
Definition compileError (type : ShaderType) (source : string) : option string :=
  if creates_shader drv type then
    if compile_status drv type source then None
    else shader_info_log drv type source
  else Some "Failed to create shader".

(** [compile] hands back a shader object. *)
Definition compiles (type : ShaderType) (source : string) : bool :=
  creates_shader drv type && compile_status drv type source.

Definition vsSource (props : Props) : string := THREE_VERTEX_PREFIX +:+ vertexShader props.
Definition fsSource (props : Props) : string := THREE_FRAGMENT_PREFIX +:+ fragmentShader props.

(** The exit of the effect, read off the driver's answers. *)
Definition exitByDriver (props : Props) : Exit :=
  if negb (has_webgl2 drv) then NoContext
  else if truthy (compileError VERTEX_SHADER (vsSource props)) then VertexError
  else if truthy (compileError FRAGMENT_SHADER (fsSource props)) then FragmentError
  else if creates_program drv
          && compiles VERTEX_SHADER (vsSource props)
          && compiles FRAGMENT_SHADER (fsSource props)
          && negb (link_status drv (vsSource props) (fsSource props))
       then LinkError
  else Promoted.

Definition draftPair (props : Props) : SafeState :=
  {| safeVertex := vertexShader props; safeFragment := fragmentShader props |}.

(** The commit of [props] leaves through the success exit. *)
Definition promotes (props : Props) : bool :=
  match exit (validationEffect props) with
  | Promoted => true
  | _ => false
  end.

(** The error text shown for a vertex failure. *)
Definition vertexErrorMessage (props : Props) : string :=
  "VERTEX SHADER ERROR:" +:+ nl +:+
  parseErrorLog (interpolate (compileError VERTEX_SHADER (vsSource props))) VERTEX_OFFSET.

(** The error texts shown for a fragment failure and for a link failure. *)
Definition fragmentErrorMessage (props : Props) : string :=
  "FRAGMENT SHADER ERROR:" +:+ nl +:+
  parseErrorLog (interpolate (compileError FRAGMENT_SHADER (fsSource props))) FRAGMENT_OFFSET.

Definition linkErrorMessage (props : Props) : string :=
  "LINKER ERROR (Varying Mismatch?):" +:+ nl +:+
  interpolate (program_info_log drv (vsSource props) (fsSource props)).

(** What each exit does to the component and its parent. *)
Definition actionsByExit (props : Props) (e : Exit) : list Action :=
  match e with
  | NoContext => []
  | VertexError => call (has_onError props) (onError (vertexErrorMessage props))
  | FragmentError => call (has_onError props) (onError (fragmentErrorMessage props))
  | LinkError => call (has_onError props) (onError (linkErrorMessage props))
  | Promoted =>
      call (has_onSuccess props) onSuccess ++
      [setSafeVertex (vertexShader props); setSafeFragment (fragmentShader props)]
  end.

(** The conditions under which the effect reaches [gl.linkProgram]. *)
Definition reachesLink (props : Props) : bool :=
  has_webgl2 drv
  && negb (truthy (compileError VERTEX_SHADER (vsSource props)))
  && negb (truthy (compileError FRAGMENT_SHADER (fsSource props)))
  && creates_program drv
  && compiles VERTEX_SHADER (vsSource props)
  && compiles FRAGMENT_SHADER (fsSource props).

End Oracle.

(** The calls of a run that release an object. *)
Definition deleteCalls (ctx : Context) : nat :=
  length (List.filter (fun c => match c with
                                | DeleteShader _ | DeleteProgram _ => true
                                | _ => false
                                end) (calls ctx)).

(** A driver that rejects the vertex stage with a diagnostic at the raw line
    of line [k] of the user's source. *)
Definition rejectingAtLine (k : Z) : Driver :=
  {| has_webgl2 := true;
     creates_shader := fun _ => true;
     compile_status := fun type _ => negb (bool_decide (type = VERTEX_SHADER));
     shader_info_log := fun _ _ =>
       Some ("ERROR: 0:" +:+ pretty (Z.of_nat VERTEX_OFFSET + k)%Z +:+ ": syntax error");
     creates_program := true;
     link_status := fun _ _ => true;
     program_info_log := fun _ _ => Some "" |}.

(** Drivers and a draft used in examples. *)
Definition acceptingDriver : Driver :=
  {| has_webgl2 := true;
     creates_shader := fun _ => true;
     compile_status := fun _ _ => true;
     shader_info_log := fun _ _ => Some "";
     creates_program := true;
     link_status := fun _ _ => true;
     program_info_log := fun _ _ => Some "" |}.

Definition rejecting (stage : ShaderType) : Driver :=
  {| has_webgl2 := true;
     creates_shader := fun _ => true;
     compile_status := fun type _ => negb (bool_decide (type = stage));
     shader_info_log := fun _ _ => Some "ERROR: 0:15: 'foo' : undeclared identifier";
     creates_program := true;
     link_status := fun _ _ => true;
     program_info_log := fun _ _ => Some "" |}.

(** A driver that rejects a stage and leaves the info log empty. *)
Definition rejectingSilently (stage : ShaderType) : Driver :=
  {| has_webgl2 := true;
     creates_shader := fun _ => true;
     compile_status := fun type _ => negb (bool_decide (type = stage));
     shader_info_log := fun _ _ => Some "";
     creates_program := true;
     link_status := fun _ _ => true;
     program_info_log := fun _ _ => Some "" |}.

Definition notLinking : Driver :=
  {| has_webgl2 := true;
     creates_shader := fun _ => true;
     compile_status := fun _ _ => true;
     shader_info_log := fun _ _ => Some "";
     creates_program := true;
     link_status := fun _ _ => false;
     program_info_log := fun _ _ => Some "varying vUv mismatch" |}.

Definition sampleDraft : Props :=
  {| vertexShader := "void main(){}";
     fragmentShader := "void main(){}";
     has_onError := true;
     has_onSuccess := true |}.

End Validation.

(** ** The uniform table: reconciliation, light slots, per-frame bindings *)

Module Uniforms.

Inductive UniformType := FLOAT | VEC2 | VEC3 | VEC4 | MAT3 | MAT4 | SAMPLER_2D.
Inductive TextureWrapMode := REPEAT | CLAMP | MIRROR.
Inductive Binding := TIME | MOUSE.

#[global] Instance UniformType_eq_dec : EqDecision UniformType.
Proof. solve_decision. Defined.
#[global] Instance Binding_eq_dec : EqDecision Binding.
Proof. solve_decision. Defined.

(** [CustomUniform.value : number | number[] | string]. *)
Inductive RawValue :=
| RNumber (n : Q)
| RArray (a : list Q)
| RString (s : string).

(** [CustomUniform].  The slider bounds [min] and [max] are read by the
    controls only and are left out. *)
Record CustomUniform := {
  cu_id : string;
  cu_name : string;
  cu_type : UniformType;
  cu_value : RawValue;
  cu_binding : option Binding;
  cu_wrap : option TextureWrapMode }.

Record Light := {
  l_id : string;
  l_position : Q * Q * Q;
  l_color : string;
  l_intensity : Q }.

(** three.js wrapping constants and the part of a texture that the code
    touches.  A texture made by [TextureLoader.load] starts with both wraps at
    [ClampToEdgeWrapping]; its image arrives later and is not modelled. *)
Inductive Wrapping := RepeatWrapping | ClampToEdgeWrapping | MirroredRepeatWrapping.

#[global] Instance Wrapping_eq_dec : EqDecision Wrapping.
Proof. solve_decision. Defined.

Record Texture := {
  tex_url : string;
  wrapS : Wrapping;
  wrapT : Wrapping;
  tex_needsUpdate : bool }.

(** The values that end up in the [value] field of a uniform entry.  Matrix
    elements read past the end of the source array are [undefined] ([None]). *)
Inductive JSValue :=
| JNumber (n : Q)
| JString (s : string)
| JArray (a : list Q)
| JVector2 (x y : Q)
| JVector3 (x y z : Q)
| JVector4 (x y z w : Q)
| JMatrix3 (elements : list (option Q))
| JMatrix4 (elements : list (option Q))
| JTexture (t : Texture)
| JVector3Array (a : list (Q * Q * Q)).

(** How a statement completes.  [TypeError] is the exception of strict-mode
    code that calls a missing method or sets a property on a primitive.
    [OutsideModel] marks a call that lands on a three.js object of another
    class than the one the component put there, or a light entry that does not
    have its annotated type; the embedding does not follow those. *)
Inductive Completion := Normal | TypeError | OutsideModel.

(** [material.uniforms]: entries [{ value }] keyed by name.  An entry object
    is truthy, so [uniforms[name]] tests presence; names that a plain object
    inherits from [Object.prototype] are not modelled. *)
Abbreviation Table := (gmap string JSValue).

(** The material as the effects see it through [materialRef.current]. *)
Record MaterialView := {
  uniforms : Table;
  needsUpdate : bool;
  uniformsNeedUpdate : bool }.

Definition zero3 : Q * Q * Q := (0, 0, 0)%Q.

(** The object built by the [useMemo] with the empty dependency array. *)
Definition initialUniforms : Table :=
  <["u_time" := JNumber 0]>
  (<["u_resolution" := JVector2 0 0]>
  (<["u_mouse" := JVector2 0 0]>
  (<["u_cameraPosition" := JVector3 0 0 0]>
  (<["u_lightPos" := JVector3Array [zero3; zero3; zero3; zero3]]>
  (<["u_lightColor" := JVector3Array [zero3; zero3; zero3; zero3]]>
  (<["u_lightIntensity" := JArray [0; 0; 0; 0]%Q]> ∅)))))).

Definition getWrapMode (mode : option TextureWrapMode) : Wrapping :=
  match mode with
  | Some CLAMP => ClampToEdgeWrapping
  | Some MIRROR => MirroredRepeatWrapping
  | Some REPEAT | None => RepeatWrapping
  end.

(** [v[i]] passed to a constructor parameter with a default. *)
Definition arg (v : list Q) (i : nat) (default : Q) : Q :=
  match v !! i with
  | Some x => x
  | None => default
  end.

(** [Matrix.fromArray(v)]: element [i] is [v[i]]. *)
Definition fromArray (n : nat) (v : list Q) : list (option Q) :=
  (fun i => v !! i) <$> seq 0 n.

(** [new THREE.TextureLoader().load(url)] *)
Definition load (url : string) : Texture :=
  {| tex_url := url; wrapS := ClampToEdgeWrapping; wrapT := ClampToEdgeWrapping;
     tex_needsUpdate := false |}.

(** The conversion at the head of the [forEach] body. *)
Definition initialValue (cu : CustomUniform) : JSValue :=
  match cu_type cu, cu_value cu with
  | VEC3, RArray v => JVector3 (arg v 0 0) (arg v 1 0) (arg v 2 0)
  | VEC2, RArray v => JVector2 (arg v 0 0) (arg v 1 0)
  | VEC4, RArray v => JVector4 (arg v 0 0) (arg v 1 0) (arg v 2 0) (arg v 3 1)
  | MAT3, RArray v => JMatrix3 (fromArray 9 v)
  | MAT4, RArray v => JMatrix4 (fromArray 16 v)
  | SAMPLER_2D, RString s => JTexture (load s)
  | _, RNumber n => JNumber n
  | _, RArray v => JArray v
  | _, RString s => JString s
  end.

Definition setUniform (name : string) (v : JSValue) (m : MaterialView) : MaterialView :=
  {| uniforms := <[name := v]> (uniforms m);
     needsUpdate := needsUpdate m;
     uniformsNeedUpdate := uniformsNeedUpdate m |}.

Definition markNeedsUpdate (m : MaterialView) : MaterialView :=
  {| uniforms := uniforms m; needsUpdate := true;
     uniformsNeedUpdate := uniformsNeedUpdate m |}.

(** The update-or-create branch. *)
Definition writeValue (cu : CustomUniform) (m : MaterialView) : MaterialView :=
  match uniforms m !! cu_name cu with
  | Some _ =>
      match cu_binding cu with
      | None => setUniform (cu_name cu) (initialValue cu) m
      | Some _ => m
      end
  | None => markNeedsUpdate (setUniform (cu_name cu) (initialValue cu) m)
  end.

(** What "Handle Texture Wrapping" does to the value it finds. *)
Definition rewrap (cu : CustomUniform) (v : JSValue) : JSValue :=
  match cu_type cu, v with
  | SAMPLER_2D, JTexture t =>
      let wrapMode := getWrapMode (cu_wrap cu) in
      if bool_decide (wrapS t <> wrapMode) || bool_decide (wrapT t <> wrapMode)
      then JTexture {| tex_url := tex_url t; wrapS := wrapMode; wrapT := wrapMode;
                       tex_needsUpdate := true |}
      else v
  | _, _ => v
  end.

Definition wrapTexture (cu : CustomUniform) (m : MaterialView) : MaterialView :=
  match cu_type cu, uniforms m !! cu_name cu with
  | SAMPLER_2D, Some (JTexture t) =>
      let wrapMode := getWrapMode (cu_wrap cu) in
      if bool_decide (wrapS t <> wrapMode) || bool_decide (wrapT t <> wrapMode)
      then markNeedsUpdate (setUniform (cu_name cu) (rewrap cu (JTexture t)) m)
      else m
  | _, _ => m
  end.

(** The body of [customUniforms.forEach] in the reconciliation effect. *)
Definition syncCustomUniform (m : MaterialView) (cu : CustomUniform) : MaterialView :=
  wrapTexture cu (writeValue cu m).

Definition syncCustomUniforms (customUniforms : list CustomUniform) (m : MaterialView)
  : MaterialView :=
  foldl syncCustomUniform m customUniforms.

(** *** Light slots *)

Record LightSlots := {
  lightPositions : list (Q * Q * Q);
  lightColors : list (Q * Q * Q);
  lightIntensities : list Q }.

(** [a[i] = x] on a JavaScript array, for [i] up to its length: inside the
    array the element is replaced, at its end the array grows by one. *)
Definition assign {A} (a : list A) (i : nat) (x : A) : list A :=
  match a !! i with
  | Some _ => <[i := x]> a
  | None => a ++ [x]
  end.

(** [for (let i = 0; i < 4; i++) lightIntensities[i] = 0] *)
Definition resetIntensities (s : LightSlots) : LightSlots :=
  {| lightPositions := lightPositions s;
     lightColors := lightColors s;
     lightIntensities := foldl (fun a i => assign a i 0%Q) (lightIntensities s) (seq 0 4) |}.

Section Lights.
(** [new THREE.Color(css)] as the triple [(r, g, b)]; parsing is three.js's. *)
Variable threeColor : string -> Q * Q * Q.

(** The callback of [lights.slice(0, 4).forEach], from index [i] on.  A
    missing [Vector3] at index [i] makes [.set] a call on [undefined]. *)
Fixpoint writeLights (i : nat) (lights : list Light) (s : LightSlots)
  : Completion * LightSlots :=
  match lights with
  | [] => (Normal, s)
  | light :: rest =>
      match lightPositions s !! i with
      | None => (TypeError, s)
      | Some _ =>
          let s1 := {| lightPositions := <[i := l_position light]> (lightPositions s);
                       lightColors := lightColors s;
                       lightIntensities := lightIntensities s |} in
          match lightColors s1 !! i with
          | None => (TypeError, s1)
          | Some _ =>
              writeLights (S i) rest
                {| lightPositions := lightPositions s1;
                   lightColors := <[i := threeColor (l_color light)]> (lightColors s1);
                   lightIntensities := assign (lightIntensities s1) i (l_intensity light) |}
          end
      end
  end.

(** "Sync Lights" on the three arrays. *)
Definition syncLights (lights : list Light) (s : LightSlots) : Completion * LightSlots :=
  writeLights 0 (take 4 lights) (resetIntensities s).



End Lights.

(** *** Render loop *)

(** The part of the engine's state that [useFrame] reads. *)
Record RootState := {
  clock_elapsedTime : Q;
  pointer : Q * Q;
  size : Q * Q;
  viewport_dpr : Q;
  camera_position : Q * Q * Q }.

(** react-three-fiber computes [state.pointer] from a pointer event at
    [(offsetX, offsetY)], measured from the top-left corner of the canvas, as
    [(offsetX / width * 2 - 1, -(offsetY / height) * 2 + 1)]. *)
Definition pointerAt (offset : Q * Q) (size : Q * Q) : Q * Q :=
  ((offset.1 / size.1 * 2 - 1)%Q, (- (offset.2 / size.2) * 2 + 1)%Q).

Definition normalized (p : Q) : Q := ((p + 1) / 2)%Q.

(** [value.x = a; value.y = b] *)
Definition setXY (a b : Q) (v : JSValue) : Completion * JSValue :=
  match v with
  | JVector2 _ _ => (Normal, JVector2 a b)
  | JVector3 _ _ z => (Normal, JVector3 a b z)
  | JVector4 _ _ z w => (Normal, JVector4 a b z w)
  | JNumber _ | JString _ => (TypeError, v)
  | JArray _ | JMatrix3 _ | JMatrix4 _ | JTexture _ | JVector3Array _ => (Normal, v)
  end.

(** [value.set(a, b)] *)
Definition set2 (a b : Q) (v : JSValue) : Completion * JSValue :=
  match v with
  | JVector2 _ _ => (Normal, JVector2 a b)
  | JNumber _ | JString _ | JArray _ | JVector3Array _ => (TypeError, v)
  | _ => (OutsideModel, v)
  end.

(** [value.copy(position)] *)
Definition copy3 (p : Q * Q * Q) (v : JSValue) : Completion * JSValue :=
  match v with
  | JVector3 _ _ _ => (Normal, JVector3 p.1.1 p.1.2 p.2)
  | JNumber _ | JString _ | JArray _ | JVector3Array _ => (TypeError, v)
  | _ => (OutsideModel, v)
  end.

(** A statement on the value of the entry [name]; a missing entry makes
    [.value] a read on [undefined]. *)
Definition onEntry (name : string) (f : JSValue -> Completion * JSValue) (t : Table)
  : Completion * Table :=
  match t !! name with
  | None => (TypeError, t)
  | Some v => let '(c, v') := f v in (c, <[name := v']> t)
  end.

(** Sequencing: an abrupt completion skips what follows. *)
Definition andThen (r : Completion * Table) (k : Table -> Completion * Table)
  : Completion * Table :=
  match r.1 with
  | Normal => k r.2
  | _ => r
  end.

(** "Update Built-ins" *)
Definition updateBuiltins (state : RootState) (t : Table) : Completion * Table :=
  andThen (onEntry "u_time" (fun _ => (Normal, JNumber (clock_elapsedTime state))) t) (fun t =>
  andThen (onEntry "u_mouse"
             (setXY (normalized (pointer state).1) (normalized (pointer state).2)) t) (fun t =>
  andThen (onEntry "u_resolution"
             (set2 ((size state).1 * viewport_dpr state)%Q
                   ((size state).2 * viewport_dpr state)%Q) t) (fun t =>
  onEntry "u_cameraPosition" (copy3 (camera_position state)) t))).

(** The callback of [customUniforms.forEach] in the render loop. *)
Definition updateBinding (state : RootState) (cu : CustomUniform) (t : Table)
  : Completion * Table :=
  match cu_binding cu with
  | None => (Normal, t)
  | Some b =>
      match t !! cu_name cu with
      | None => (Normal, t)
      | Some v =>
          match b with
          | TIME => (Normal, <[cu_name cu := JNumber (clock_elapsedTime state)]> t)
          | MOUSE =>
              let '(c, v') := setXY (normalized (pointer state).1)
                                    (normalized (pointer state).2) v in
              (c, <[cu_name cu := v']> t)
          end
      end
  end.

(** "Update Bindings": [forEach] stops at the first exception. *)
Fixpoint updateBindings (state : RootState) (customUniforms : list CustomUniform)
  (t : Table) : Completion * Table :=
  match customUniforms with
  | [] => (Normal, t)
  | cu :: rest => andThen (updateBinding state cu t) (updateBindings state rest)
  end.

(** The [useFrame] callback on an attached material. *)
Definition useFrame (state : RootState) (customUniforms : list CustomUniform)
  (t : Table) : Completion * Table :=
  andThen (updateBuiltins state t) (updateBindings state customUniforms).

(** *** The mesh: one memoised table shared by every material *)














(** Whether a name occurs in a source text. *)
Fixpoint occursIn (name source : string) : bool :=
  match source with
  | "" => bool_decide (name = "")
  | String _ rest =>
      bool_decide (Diagnostics.dropPrefix name source <> None) || occursIn name rest
  end.

(** *** Conditions under which a frame runs to its end *)

Definition isObject (v : JSValue) : bool :=
  match v with
  | JNumber _ | JString _ => false
  | _ => true
  end.

(** The four built-in entries hold what the memo put there, up to their
    numbers. *)
Definition builtinsIntact (t : Table) : bool :=
  match t !! "u_time", t !! "u_mouse", t !! "u_resolution", t !! "u_cameraPosition" with
  | Some _, Some (JVector2 _ _), Some (JVector2 _ _), Some (JVector3 _ _ _) => true
  | _, _, _, _ => false
  end.

Definition boundTo (b : Binding) (cu : CustomUniform) : bool :=
  bool_decide (cu_binding cu = Some b).

(** No pointer-bound declaration names [u_time], a time-bound entry, or an
    entry that holds a primitive. *)
Definition pointerBindingsSafe (customUniforms : list CustomUniform) (t : Table) : bool :=
  forallb (fun cu =>
    negb (boundTo MOUSE cu) ||
    (negb (bool_decide (cu_name cu = "u_time"))
     && forallb (fun cu' => negb (boundTo TIME cu' && bool_decide (cu_name cu' = cu_name cu)))
                customUniforms
     && match t !! cu_name cu with
        | Some v => isObject v
        | None => true
        end))
    customUniforms.

(** What the render loop reads of a declaration. *)
Definition nameAndBinding (cu : CustomUniform) : string * option Binding :=
  (cu_name cu, cu_binding cu).

(** The three light entries as the memo builds them: four slots each. *)
Definition fourSlots (s : LightSlots) : Prop :=
  length (lightPositions s) = 4 /\ length (lightColors s) = 4
  /\ length (lightIntensities s) = 4.

(** *** Notions used to state properties *)

(** The value that the body of the pass leaves under the name it handles:
    the converted value, unless an entry exists and a binding is set, in which
    case the entry's value stays; then the wrap step. *)
Definition valueAfter (m : MaterialView) (cu : CustomUniform) : JSValue :=
  rewrap cu match uniforms m !! cu_name cu, cu_binding cu with
            | Some old, Some _ => old
            | _, _ => initialValue cu
            end.

(** The table after the four built-in writes. *)
Definition builtinsAfter (state : RootState) (t : Table) : Table :=
  <["u_cameraPosition" := JVector3 (camera_position state).1.1
                                   (camera_position state).1.2
                                   (camera_position state).2]>
  (<["u_resolution" := JVector2 ((size state).1 * viewport_dpr state)%Q
                                ((size state).2 * viewport_dpr state)%Q]>
  (<["u_mouse" := JVector2 (normalized (pointer state).1)
                           (normalized (pointer state).2)]>
  (<["u_time" := JNumber (clock_elapsedTime state)]> t))).

Definition builtinNames : list string :=
  ["u_time"; "u_mouse"; "u_resolution"; "u_cameraPosition"].

(** No pointer-bound declaration of [cus] is called [n]. *)
Definition noPointer (cus : list CustomUniform) (n : string) : Prop :=
  forall cu, cu ∈ cus -> cu_binding cu = Some MOUSE -> cu_name cu <> n.

(** Every pointer-bound declaration of [cus] finds an object or nothing. *)
Definition pointerTargetsOk (cus : list CustomUniform) (t : Table) : Prop :=
  forall cu v, cu ∈ cus -> cu_binding cu = Some MOUSE ->
               t !! cu_name cu = Some v -> isObject v = true.

(** Time-bound and pointer-bound declarations use different names. *)
Definition bindingsApart (cus : list CustomUniform) : Prop :=
  forall cu cu', cu ∈ cus -> cu' ∈ cus ->
                 cu_binding cu = Some TIME -> cu_binding cu' = Some MOUSE ->
                 cu_name cu <> cu_name cu'.






(** The texture that the pass leaves for a sampler declaration with a URL
    and no binding: freshly loaded, then wrapped. *)
Definition wrappedTexture (url : string) (wrap : option TextureWrapMode) : Texture :=
  {| tex_url := url; wrapS := getWrapMode wrap; wrapT := getWrapMode wrap;
     tex_needsUpdate := bool_decide (getWrapMode wrap <> ClampToEdgeWrapping) |}.

(** *** Inputs used in examples *)

Definition gray (css : string) : Q * Q * Q := (1, 1, 1)%Q.

Definition sampleState : RootState :=
  {| clock_elapsedTime := 5 # 2;
     pointer := (0, 0)%Q;
     size := (800, 600)%Q;
     viewport_dpr := 2;
     camera_position := (0, 0, 6)%Q |}.

Definition timer (manual : Q) : CustomUniform :=
  {| cu_id := "a1"; cu_name := "u_timer_1"; cu_type := FLOAT;
     cu_value := RNumber manual; cu_binding := Some TIME; cu_wrap := None |}.


Definition freshView (t : Table) : MaterialView :=
  {| uniforms := t; needsUpdate := false; uniformsNeedUpdate := false |}.

Definition knob : CustomUniform :=
  {| cu_id := "k1"; cu_name := "u_custom_1"; cu_type := FLOAT;
     cu_value := RNumber (1 # 2); cu_binding := None; cu_wrap := None |}.

(** A float control that the user has named like a built-in entry. *)
Definition clobber : CustomUniform :=
  {| cu_id := "k2"; cu_name := "u_resolution"; cu_type := FLOAT;
     cu_value := RNumber (1 # 2); cu_binding := None; cu_wrap := None |}.




(** A pointer resting on the middle of the top edge of an 800 x 600 canvas. *)
Definition topEdgeState : RootState :=
  {| clock_elapsedTime := 5 # 2;
     pointer := pointerAt (400, 0)%Q (800, 600)%Q;
     size := (800, 600)%Q;
     viewport_dpr := 2;
     camera_position := (0, 0, 6)%Q |}.



(** A pointer-bound two-component control and a sampler, as the panel makes
    them. *)
Definition mousePad : CustomUniform :=
  {| cu_id := "m1"; cu_name := "u_mouse_pos_1"; cu_type := VEC2;
     cu_value := RArray [1 # 2; 1 # 2]; cu_binding := Some MOUSE; cu_wrap := None |}.

Definition noiseSampler : CustomUniform :=
  {| cu_id := "t1"; cu_name := "u_texture"; cu_type := SAMPLER_2D;
     cu_value := RString "data:image/png;base64,AAAA"; cu_binding := None;
     cu_wrap := Some REPEAT |}.

End Uniforms.

(** ** The light list of the controls panel *)

Module Controls.
Import Uniforms.

(** The light that [addLight] appends; its id is drawn at random. *)
Definition newLight (id : string) : Light :=
  {| l_id := id; l_position := (2, 2, 2)%Q; l_color := "#ffffff"; l_intensity := 1 |}.

(** Each handler is given as the list it passes to [setLights], or the
    current list when it returns without calling it. *)
Definition addLight (id : string) (lights : list Light) : list Light :=
  if decide (4 <= length lights) then lights else lights ++ [newLight id].

Definition removeLight (id : string) (lights : list Light) : list Light :=
  List.filter (fun l => negb (bool_decide (l_id l = id))) lights.

(** [field] with a value of the field's type. *)
Inductive LightField :=
| set_id (v : string)
| set_position (v : Q * Q * Q)
| set_color (v : string)
| set_intensity (v : Q).

(** [{ ...l, [field]: value }] *)
Definition withField (l : Light) (f : LightField) : Light :=
  match f with
  | set_id v =>
      {| l_id := v; l_position := l_position l; l_color := l_color l;
         l_intensity := l_intensity l |}
  | set_position v =>
      {| l_id := l_id l; l_position := v; l_color := l_color l;
         l_intensity := l_intensity l |}
  | set_color v =>
      {| l_id := l_id l; l_position := l_position l; l_color := v;
         l_intensity := l_intensity l |}
  | set_intensity v =>
      {| l_id := l_id l; l_position := l_position l; l_color := l_color l;
         l_intensity := v |}
  end.

Definition updateLight (id : string) (field : LightField) (lights : list Light)
  : list Light :=
  (fun l => if bool_decide (l_id l = id) then withField l field else l) <$> lights.

(** [newPos[index] = val] on the copied triple; the panel passes 0, 1 or 2. *)
Definition withCoordinate (p : Q * Q * Q) (index : nat) (val : Q) : Q * Q * Q :=
  match index with
  | 0 => (val, p.1.2, p.2)
  | 1 => (p.1.1, val, p.2)
  | 2 => (p.1.1, p.1.2, val)
  | _ => p
  end.

Definition updateLightPos (id : string) (index : nat) (val : Q) (lights : list Light)
  : list Light :=
  match List.find (fun x => bool_decide (l_id x = id)) lights with
  | None => lights
  | Some l => updateLight id (set_position (withCoordinate (l_position l) index val)) lights
  end.

(** What the user can do to the list. *)
Inductive LightOp :=
| AddLight (id : string)
| RemoveLight (id : string)
| UpdateLight (id : string) (field : LightField)
| UpdateLightPos (id : string) (index : nat) (val : Q).

Definition applyOp (lights : list Light) (op : LightOp) : list Light :=
  match op with
  | AddLight id => addLight id lights
  | RemoveLight id => removeLight id lights
  | UpdateLight id field => updateLight id field lights
  | UpdateLightPos id index val => updateLightPos id index val lights
  end.

Definition applyOps (ops : list LightOp) (lights : list Light) : list Light :=
  foldl applyOp lights ops.

(** The list the application starts with. *)
Definition initialLights : list Light :=
  [{| l_id := "l1"; l_position := (2, 2, 2)%Q; l_color := "#ffffff"; l_intensity := 1 |}].

(** *** The uniform list of the controls panel *)

(** "Default naming logic" of [addUniform]. *)
Definition namePrefix (binding : option Binding) : string :=
  match binding with
  | Some MOUSE => "u_mouse_pos"
  | Some TIME => "u_timer"
  | None => "u_custom"
  end.

(** The [switch] on the type; [noise] is what [createNoiseTextureURI]
    returns (a data URI, or the empty string without a 2d context). *)
Definition defaultValue (noise : string) (type : UniformType) : RawValue :=
  match type with
  | VEC2 => RArray [1 # 2; 1 # 2]
  | VEC3 => RArray [1; 1; 1]
  | VEC4 => RArray [1; 1 # 2; 0; 1]
  | MAT3 => RArray [1; 0; 0;  0; 1; 0;  0; 0; 1]
  | MAT4 => RArray [1; 0; 0; 0;  0; 1; 0; 0;  0; 0; 1; 0;  0; 0; 0; 1]
  | SAMPLER_2D => RString noise
  | FLOAT => RNumber (1 # 2)
  end%Q.

(** [customUniforms.some(u => u.name === 'u_texture')] *)
Definition hasDefaultTexture (customUniforms : list CustomUniform) : bool :=
  existsb (fun u => bool_decide (cu_name u = "u_texture")) customUniforms.

(** The name given to the new declaration: [u_texture] for the first
    sampler, otherwise the prefix and the length of the list plus one. *)
Definition newName (type : UniformType) (binding : option Binding)
  (customUniforms : list CustomUniform) : string :=
  let name :=
    match type with
    | SAMPLER_2D => if hasDefaultTexture customUniforms then "" else "u_texture"
    | _ => ""
    end in
  let prefix :=
    match type with
    | SAMPLER_2D => if hasDefaultTexture customUniforms then "u_texture"
                    else namePrefix binding
    | _ => namePrefix binding
    end in
  if bool_decide (name = "")
  then prefix +:+ "_" +:+ pretty (length customUniforms + 1)
  else name.

Definition newUniform (id noise : string) (type : UniformType) (binding : option Binding)
  (customUniforms : list CustomUniform) : CustomUniform :=
  {| cu_id := id;
     cu_name := newName type binding customUniforms;
     cu_type := type;
     cu_value := defaultValue noise type;
     cu_binding := binding;
     cu_wrap := match type with SAMPLER_2D => Some REPEAT | _ => None end |}.

(** Each handler is given as the list it passes to [setCustomUniforms].  The
    id is drawn at random. *)
Definition addUniform (id noise : string) (type : UniformType) (binding : option Binding)
  (customUniforms : list CustomUniform) : list CustomUniform :=
  customUniforms ++ [newUniform id noise type binding customUniforms].

Definition removeUniform (id : string) (customUniforms : list CustomUniform)
  : list CustomUniform :=
  List.filter (fun u => negb (bool_decide (cu_id u = id))) customUniforms.

Definition withValue (u : CustomUniform) (newValue : RawValue) : CustomUniform :=
  {| cu_id := cu_id u; cu_name := cu_name u; cu_type := cu_type u;
     cu_value := newValue; cu_binding := cu_binding u; cu_wrap := cu_wrap u |}.

Definition withName (u : CustomUniform) (name : string) : CustomUniform :=
  {| cu_id := cu_id u; cu_name := name; cu_type := cu_type u;
     cu_value := cu_value u; cu_binding := cu_binding u; cu_wrap := cu_wrap u |}.

Definition withWrap (u : CustomUniform) (wrap : TextureWrapMode) : CustomUniform :=
  {| cu_id := cu_id u; cu_name := cu_name u; cu_type := cu_type u;
     cu_value := cu_value u; cu_binding := cu_binding u; cu_wrap := Some wrap |}.

Definition updateUniformValue (id : string) (newValue : RawValue)
  (customUniforms : list CustomUniform) : list CustomUniform :=
  (fun u => if bool_decide (cu_id u = id) then withValue u newValue else u)
    <$> customUniforms.

Definition updateUniformName (id name : string) (customUniforms : list CustomUniform)
  : list CustomUniform :=
  (fun u => if bool_decide (cu_id u = id) then withName u name else u) <$> customUniforms.

Definition updateUniformWrap (id : string) (wrap : TextureWrapMode)
  (customUniforms : list CustomUniform) : list CustomUniform :=
  (fun u => if bool_decide (cu_id u = id) then withWrap u wrap else u) <$> customUniforms.

(** A value of the GLSL type that a declaration announces: a number, a
    vector of the right size, a matrix with all its elements, a texture. *)
Definition hasShape (type : UniformType) (v : JSValue) : bool :=
  match type, v with
  | FLOAT, JNumber _ => true
  | VEC2, JVector2 _ _ => true
  | VEC3, JVector3 _ _ _ => true
  | VEC4, JVector4 _ _ _ _ => true
  | MAT3, JMatrix3 es => bool_decide (length es = 9) && forallb (fun e => bool_decide (is_Some e)) es
  | MAT4, JMatrix4 es => bool_decide (length es = 16) && forallb (fun e => bool_decide (is_Some e)) es
  | SAMPLER_2D, JTexture _ => true
  | _, _ => false
  end.

(** Two float controls are added, the first is deleted, a third is added. *)
Definition afterDeletion : list CustomUniform :=
  removeUniform "a" (addUniform "b" "" FLOAT None (addUniform "a" "" FLOAT None [])).

End Controls.

(** ** The syntax highlighter of the editor ([TOKEN_REGEX], [highlight]) *)

Module Editor.

(** A character is a code unit below 256.  [\w] without the unicode flag. *)
Definition isWordChar (c : ascii) : bool :=
  let n := nat_of_ascii c in
  ((48 <=? n)%nat && (n <=? 57)%nat) || ((65 <=? n)%nat && (n <=? 90)%nat)
  || ((97 <=? n)%nat && (n <=? 122)%nat) || (n =? 95)%nat.

(** The line terminators below 256; [.] matches everything else. *)
Definition isLineTerminator (c : ascii) : bool :=
  let n := nat_of_ascii c in (n =? 10)%nat || (n =? 13)%nat.

Definition anyChar (c : ascii) : bool := negb (isLineTerminator c).
Definition digit (c : ascii) : bool := Diagnostics.isDigit c.
Definition oneOf234 (c : ascii) : bool :=
  Ascii.eqb c "2" || Ascii.eqb c "3" || Ascii.eqb c "4".

(** The constructs of JavaScript regular expressions that the component
    uses: characters and classes, sequence, disjunction, the greedy star,
    the word boundary, numbered capturing groups. *)
Inductive Regex :=
| Empty
| Char (c : ascii)
| Class (p : ascii -> bool)
| Seq (r s : Regex)
| Alt (r s : Regex)
| Star (r : Regex)
| Boundary
| Group (i : nat) (r : Regex).

Definition Plus (r : Regex) : Regex := Seq r (Star r).

Fixpoint lit (s : string) : Regex :=
  match s with
  | "" => Empty
  | String c "" => Char c
  | String c tl => Seq (Char c) (lit tl)
  end.

(** [r1|r2|...|rn], tried from left to right. *)
Fixpoint alts (r : Regex) (rs : list Regex) : Regex :=
  match rs with
  | [] => r
  | r' :: rs' => Alt r (alts r' rs')
  end.

Definition words (w : string) (ws : list string) : Regex := alts (lit w) (lit <$> ws).

(** The state of a match in progress: whether the character before the
    current position is a word character (all that [\b] asks of it), the text
    from the current position on, and the groups captured so far. *)
Record MatchState := {
  prevIsWord : bool;
  rest : string;
  captures : list (nat * string) }.

Definition Continuation := MatchState -> option MatchState.

Definition advance (c : ascii) (tl : string) (x : MatchState) : MatchState :=
  {| prevIsWord := isWordChar c; rest := tl; captures := captures x |}.

Fixpoint takeS (n : nat) (s : string) : string :=
  match n, s with
  | S n', String c tl => String c (takeS n' tl)
  | _, _ => ""
  end.

(** The text between two positions of the same input. *)
Definition consumedBy (x y : MatchState) : string :=
  takeS (String.length (rest x) - String.length (rest y)) (rest x).

Definition capture (i : nat) (x y : MatchState) : MatchState :=
  {| prevIsWord := prevIsWord y; rest := rest y;
     captures := (i, consumedBy x y) :: captures y |}.

Definition nextIsWord (x : MatchState) : bool :=
  match rest x with
  | String c _ => isWordChar c
  | "" => false
  end.

(** The greedy star: another round of the body as long as one succeeds (a
    round that consumes nothing is rejected), then the continuation.  Every
    accepted round shortens the remaining text, so [fuel], one more than its
    length, is never used up. *)
Fixpoint repeat (body : MatchState -> Continuation -> option MatchState) (fuel : nat)
  (x : MatchState) (k : Continuation) : option MatchState :=
  match fuel with
  | 0 => k x
  | S fuel' =>
      match body x (fun y =>
                      if (String.length (rest y) <? String.length (rest x))%nat
                      then repeat body fuel' y k else None) with
      | Some z => Some z
      | None => k x
      end
  end.

(** The backtracking matcher, in continuation-passing style as the language
    specification gives it: [matcher r x k] matches [r] at [x] and hands the
    state after it to [k]; when [k] fails the next way of matching [r] is
    tried. *)
Fixpoint matcher (r : Regex) (x : MatchState) (k : Continuation) {struct r}
  : option MatchState :=
  match r with
  | Empty => k x
  | Char c =>
      match rest x with
      | String d tl => if Ascii.eqb c d then k (advance d tl x) else None
      | "" => None
      end
  | Class p =>
      match rest x with
      | String d tl => if p d then k (advance d tl x) else None
      | "" => None
      end
  | Seq a b => matcher a x (fun y => matcher b y k)
  | Alt a b =>
      match matcher a x k with
      | Some z => Some z
      | None => matcher b x k
      end
  | Star a => repeat (matcher a) (S (String.length (rest x))) x k
  | Boundary => if xorb (prevIsWord x) (nextIsWord x) then k x else None
  | Group i a => matcher a x (fun y => k (capture i x y))
  end.

(** One attempt at the current position. *)
Definition exec (r : Regex) (prevIsWord : bool) (s : string) : option MatchState :=
  matcher r {| prevIsWord := prevIsWord; rest := s; captures := [] |} Some.

Definition matched (s : string) (z : MatchState) : string :=
  takeS (String.length s - String.length (rest z)) s.

(** [s.replace(r, callback)] for a regular expression with the [g] flag.
    The scan tries a match at the current position; on a match it emits the
    callback's text and resumes after the match ([skip] counts the characters
    of the match still to pass), otherwise it copies one character.  After
    an empty match the character is copied and the scan moves on by one. *)
Fixpoint replaceFrom (r : Regex) (callback : string -> MatchState -> string)
  (prevIsWord : bool) (skip : nat) (s : string) : string :=
  match s with
  | "" =>
      match skip with
      | 0 => match exec r prevIsWord "" with
             | Some z => callback "" z
             | None => ""
             end
      | S _ => ""
      end
  | String c tl =>
      match skip with
      | S n => replaceFrom r callback (isWordChar c) n tl
      | 0 =>
          match exec r prevIsWord s with
          | Some z =>
              callback (matched s z) z +:+
              match String.length (matched s z) with
              | 0 => String c (replaceFrom r callback (isWordChar c) 0 tl)
              | S n => replaceFrom r callback (isWordChar c) n tl
              end
          | None => String c (replaceFrom r callback (isWordChar c) 0 tl)
          end
      end
  end.

Definition replace (r : Regex) (callback : string -> MatchState -> string) (s : string)
  : string :=
  replaceFrom r callback false 0 s.

(** [TOKEN_REGEX], group by group. *)
Definition commentToken : Regex :=
  Group 1 (Seq (lit "//") (Star (Class anyChar))).

Definition typeToken : Regex :=
  Group 2 (Seq Boundary (Seq
    (alts (lit "void")
       [lit "float"; lit "int"; lit "bool";
        Seq (lit "vec") (Class oneOf234); Seq (lit "mat") (Class oneOf234);
        lit "const"; lit "uniform"; lit "varying"; lit "attribute"; lit "struct";
        lit "precision"; lit "highp"; lit "mediump"; lit "lowp"])
    Boundary)).

Definition builtinToken : Regex :=
  Group 3 (Seq Boundary (Seq
    (words "gl_Position" ["gl_FragColor"; "gl_FragCoord"; "gl_PointCoord"])
    Boundary)).

Definition funcToken : Regex :=
  Group 4 (Seq Boundary (Seq
    (words "sin" ["cos"; "tan"; "mix"; "dot"; "cross"; "normalize"; "length"; "pow";
                  "min"; "max"; "clamp"; "step"; "smoothstep"; "texture2D"; "abs";
                  "fract"; "floor"; "ceil"; "mod"])
    Boundary)).

Definition mainToken : Regex :=
  Group 5 (Seq Boundary (Seq (lit "main") Boundary)).

Definition numberToken : Regex :=
  Group 6 (Seq Boundary (Seq
    (alts (Seq (Plus (Class digit)) (Seq (Char ".") (Plus (Class digit))))
       [Seq (Plus (Class digit)) (Char ".");
        Seq (Char ".") (Plus (Class digit));
        Plus (Class digit)])
    Boundary)).

Definition TOKEN_REGEX : Regex :=
  alts commentToken [typeToken; builtinToken; funcToken; mainToken; numberToken].

(** A group that took part in the match and is not the empty string. *)
Definition group (i : nat) (z : MatchState) : option string :=
  match List.find (fun p => (p.1 =? i)%nat) (captures z) with
  | Some (_, String c s) => Some (String c s)
  | _ => None
  end.

Definition dq : string := String (ascii_of_nat 34) "".

Definition span (class text : string) : string :=
  "<span class=" +:+ dq +:+ class +:+ dq +:+ ">" +:+ text +:+ "</span>".

(** The replacement callback of [highlight]. *)
Definition tokenCallback (match_ : string) (z : MatchState) : string :=
  match group 1 z with
  | Some comment => span "text-gray-500 italic" comment
  | None =>
  match group 2 z with
  | Some type => span "text-purple-400 font-bold" type
  | None =>
  match group 3 z with
  | Some builtin => span "text-yellow-400" builtin
  | None =>
  match group 4 z with
  | Some func => span "text-blue-300" func
  | None =>
  match group 5 z with
  | Some main => span "text-green-400 font-bold" main
  | None =>
  match group 6 z with
  | Some number => span "text-cyan-300" number
  | None => match_
  end end end end end end.

(** [text.replace(/&/g, "&amp;").replace(/</g, "&lt;").replace(/>/g, "&gt;")] *)
Definition escape (text : string) : string :=
  replace (Char ">") (fun _ _ => "&gt;")
    (replace (Char "<") (fun _ _ => "&lt;")
       (replace (Char "&") (fun _ _ => "&amp;") text)).

Definition highlight (text : string) : string :=
  replace TOKEN_REGEX tokenCallback (escape text).

(** *** Notions used to state properties *)

(** The escaped form of one character. *)
Definition escapeChar (c : ascii) : string :=
  if Ascii.eqb c "&" then "&amp;"
  else if Ascii.eqb c "<" then "&lt;"
  else if Ascii.eqb c ">" then "&gt;"
  else String c "".

Fixpoint escapeEach (s : string) : string :=
  match s with
  | "" => ""
  | String c tl => escapeChar c +:+ escapeEach tl
  end.

(** Every occurrence of one character replaced by a text. *)
Fixpoint substChar (c : ascii) (by_ : string) (s : string) : string :=
  match s with
  | "" => ""
  | String d tl => (if Ascii.eqb c d then by_ else String d "") +:+ substChar c by_ tl
  end.

(** Whether the last character of [w] is a word character; [b] for the
    empty text. *)
Fixpoint lastIsWord (b : bool) (w : string) : bool :=
  match w with
  | "" => b
  | String c tl => lastIsWord (isWordChar c) tl
  end.

(** The text ends here or goes on with a line terminator. *)
Definition atLineEnd (s : string) : Prop :=
  s = "" \/ exists c tl, s = String c tl /\ isLineTerminator c = true.

(** The classes of the six kinds of token. *)
Definition tokenClasses : list string :=
  ["text-gray-500 italic"; "text-purple-400 font-bold"; "text-yellow-400";
   "text-blue-300"; "text-green-400 font-bold"; "text-cyan-300"].

(** A piece of the source text, plain or of a token class, and its HTML. *)
Abbreviation Segment := (option string * string)%type.

Definition renderSegment (seg : Segment) : string :=
  match seg.1 with
  | Some class => span class (escape seg.2)
  | None => escape seg.2
  end.

Fixpoint concatS (l : list string) : string :=
  match l with
  | [] => ""
  | s :: rest => s +:+ concatS rest
  end.

Fixpoint allChars (p : ascii -> bool) (s : string) : bool :=
  match s with
  | "" => true
  | String c tl => p c && allChars p tl
  end.

Definition notAngle (c : ascii) : bool := negb (Ascii.eqb c "<") && negb (Ascii.eqb c ">").

(** Static facts about a regular expression, read off its syntax: every
    character it can consume satisfies [p]; it has no capturing group; it
    cannot match the empty string. *)
Definition allAscii : list ascii := ascii_of_nat <$> seq 0 256.

Fixpoint consumes (p : ascii -> bool) (r : Regex) : bool :=
  match r with
  | Empty | Boundary => true
  | Char c => p c
  | Class q => forallb (fun c => implb (q c) (p c)) allAscii
  | Seq a b | Alt a b => consumes p a && consumes p b
  | Star a | Group _ a => consumes p a
  end.

Fixpoint groupFree (r : Regex) : bool :=
  match r with
  | Empty | Boundary | Char _ | Class _ => true
  | Seq a b | Alt a b => groupFree a && groupFree b
  | Star a => groupFree a
  | Group _ _ => false
  end.

Fixpoint nullable (r : Regex) : bool :=
  match r with
  | Empty | Boundary | Star _ => true
  | Char _ | Class _ => false
  | Seq a b => nullable a && nullable b
  | Alt a b => nullable a || nullable b
  | Group _ a => nullable a
  end.

Definition wordOrDot (c : ascii) : bool := isWordChar c || Ascii.eqb c ".".

(** What is inside the group of a token. *)
Definition body (r : Regex) : Regex :=
  match r with
  | Group _ a => a
  | _ => r
  end.

(** Where a successful match went: the state handed to the continuation
    lies further on in the same text. *)
Definition trace (p : ascii -> bool) (x : MatchState) (k : Continuation)
  (z : MatchState) (strict : bool) : Prop :=
  exists y w,
    k y = Some z /\ rest x = w +:+ rest y /\ allChars p w = true
    /\ captures y = captures x /\ (strict = true -> w <> "").

End Editor.

(** ** The application shell ([App.tsx]): presets, the Run button, the error
    console *)

Module App.
Import Uniforms.

(** [ShaderPreset]; the description is only displayed. *)
Record ShaderPreset := {
  preset_name : string;
  preset_vertex : string;
  preset_fragment : string }.

(** The [useState] cells of [App] that the handlers below touch. *)
Record State := {
  activePresetIndex : nat;
  editorVertex : string;
  editorFragment : string;
  activeVertex : string;
  activeFragment : string;
  customUniforms : list CustomUniform;
  errorMsg : option string;
  isConsoleOpen : bool }.

(** The uniform injected for the texture preset; it has no [wrap] field. *)
Definition autoTexture (noise : string) : CustomUniform :=
  {| cu_id := "auto-texture"; cu_name := "u_texture"; cu_type := SAMPLER_2D;
     cu_value := RString noise; cu_binding := None; cu_wrap := None |}.

(** [loadPreset(index)] over the preset table; an index outside the table
    makes [preset.vertex] a read on [undefined] ([None]).  [noise] is what
    [createNoiseTextureURI] returns. *)
Definition loadPreset (SHADER_PRESETS : list ShaderPreset) (noise : string) (index : nat)
  (st : State) : option State :=
  preset ← SHADER_PRESETS !! index;
  Some {| activePresetIndex := index;
          editorVertex := preset_vertex preset;
          editorFragment := preset_fragment preset;
          activeVertex := preset_vertex preset;
          activeFragment := preset_fragment preset;
          customUniforms :=
            if occursIn "Textura" (preset_name preset) then [autoTexture noise] else [];
          errorMsg := None;
          isConsoleOpen := isConsoleOpen st |}.

Definition setErrorMsg (msg : option string) (st : State) : State :=
  {| activePresetIndex := activePresetIndex st;
     editorVertex := editorVertex st; editorFragment := editorFragment st;
     activeVertex := activeVertex st; activeFragment := activeFragment st;
     customUniforms := customUniforms st;
     errorMsg := msg; isConsoleOpen := isConsoleOpen st |}.

Definition setIsConsoleOpen (open : bool) (st : State) : State :=
  {| activePresetIndex := activePresetIndex st;
     editorVertex := editorVertex st; editorFragment := editorFragment st;
     activeVertex := activeVertex st; activeFragment := activeFragment st;
     customUniforms := customUniforms st;
     errorMsg := errorMsg st; isConsoleOpen := open |}.

Definition setActive (vertex fragment : string) (st : State) : State :=
  {| activePresetIndex := activePresetIndex st;
     editorVertex := editorVertex st; editorFragment := editorFragment st;
     activeVertex := vertex; activeFragment := fragment;
     customUniforms := customUniforms st;
     errorMsg := errorMsg st; isConsoleOpen := isConsoleOpen st |}.

(** [handleRun]: the error is cleared at once; the timer callback holds the
    editor's pair as it is at the click. *)
Definition handleRun (st : State) : State * (string * string) :=
  (setErrorMsg None st, (editorVertex st, editorFragment st)).

(** The callback of [setTimeout], ten milliseconds later. *)
Definition timerFires (captured : string * string) (st : State) : State :=
  setActive captured.1 captured.2 st.

Definition handleShaderError (msg : string) (st : State) : State :=
  setIsConsoleOpen true (setErrorMsg (Some msg) st).

Definition handleShaderSuccess (st : State) : State := setErrorMsg None st.

(** The props that [App] hands to the scene of the desktop layout: the
    active pair and both handlers. *)
Definition sceneProps (st : State) : Validation.Props :=
  {| Validation.vertexShader := activeVertex st;
     Validation.fragmentShader := activeFragment st;
     Validation.has_onError := true;
     Validation.has_onSuccess := true |}.

(** What an action of the validation effect does to [App]. *)
Definition notify (st : State) (a : Validation.Action) : State :=
  match a with
  | Validation.onError msg => handleShaderError msg st
  | Validation.onSuccess => handleShaderSuccess st
  | Validation.setSafeVertex _ | Validation.setSafeFragment _ => st
  end.

(** The validation effect of the scene, run on the active pair. *)
Definition afterValidation (drv : Validation.Driver) (st : State) : State :=
  foldl notify st (Validation.actions (Validation.validationEffect drv (sceneProps st))).

(** A click on Run, the timer, and the validation of the new active pair.
    The handlers are new functions at every render of [App], so when clearing
    the message causes a render the effect runs once more on the old active
    pair before the timer fires ([rerendered]). *)
Definition run (drv : Validation.Driver) (rerendered : bool) (st : State) : State :=
  let '(st1, captured) := handleRun st in
  let st2 := if rerendered then afterValidation drv st1 else st1 in
  afterValidation drv (timerFires captured st2).

(** [{errorMsg && (...)}]: the console is rendered for a non-empty message. *)
Definition consoleShown (st : State) : bool := Validation.truthy (errorMsg st).

(** The draft that a click on Run submits. *)
Definition editorDraft (st : State) : Validation.Props :=
  {| Validation.vertexShader := editorVertex st;
     Validation.fragmentShader := editorFragment st;
     Validation.has_onError := true;
     Validation.has_onSuccess := true |}.

(** Inputs used in examples. *)
Definition texturePresets : list ShaderPreset :=
  [{| preset_name := "Plasma"; preset_vertex := "v0"; preset_fragment := "f0" |};
   {| preset_name := "Textura (Imagen)"; preset_vertex := "v1"; preset_fragment := "f1" |}].

Definition editing : State :=
  {| activePresetIndex := 0;
     editorVertex := "void main(){}"; editorFragment := "void main(){ oops }";
     activeVertex := "void main(){}"; activeFragment := "void main(){}";
     customUniforms := [];
     errorMsg := Some "stale"; isConsoleOpen := false |}.

End App.

(** ** The generated noise image ([createNoiseTextureURI]) *)

Module Constants.

(** [Math.floor(Math.random() * 255)] for a draw [r] of [Math.random]. *)
Definition noiseLevel (r : Q) : Z := Qfloor (r * 255).

(** A store into a [Uint8ClampedArray] clamps the number to [0, 255]. *)
Definition clamp8 (v : Z) : Z := Z.max 0 (Z.min 255 v).

(** The body of the loop for [i = 4 * j], with the [j]-th draw of
    [Math.random].  A store past the end of the array does nothing. *)
Definition paint (random : nat -> Q) (data : list Z) (j : nat) : list Z :=
  let val := noiseLevel (random j) in
  <[4 * j + 3 := clamp8 255]>
    (<[4 * j + 2 := clamp8 val]>
       (<[4 * j + 1 := clamp8 val]>
          (<[4 * j := clamp8 val]> data))).

(** [for (let i = 0; i < data.length; i += 4)] runs once for every multiple
    of four below the length. *)
Definition rounds (len : nat) : nat := (len + 3) / 4.

Definition fillNoise (random : nat -> Q) (data : list Z) : list Z :=
  foldl (paint random) data (seq 0 (rounds (length data))).

(** [ctx.createImageData(width, height)]: transparent black. *)
Definition createImageData (width height : nat) : list Z :=
  replicate (4 * (width * height)) 0%Z.

(** The pixels that are put on the canvas.  Without a 2d context the
    function returns the empty string; with one it returns the data URL that
    the canvas makes of the pixels, which is the browser's. *)
Definition noisePixels (random : nat -> Q) : list Z :=
  fillNoise random (createImageData 256 256).

Definition createNoiseTextureURI (has2d : bool) (random : nat -> Q)
  (toDataURL : list Z -> string) : string :=
  if has2d then toDataURL (noisePixels random) else "".


End Constants.
(** * Properties of the diagnostic normaliser *)

Module DiagnosticsFacts.
Import Diagnostics.

Lemma replaceAll_step offset log :
  replaceAll offset log =
  match matchAt log with
  | Some (line, rest) => replacement line offset +:+ replaceAll offset rest
  | None => match log with
            | "" => ""
            | String c tl => String c (replaceAll offset tl)
            end
  end.
Proof.
  funelim (replaceAll offset log).
  - rewrite e. reflexivity.
  - reflexivity.
  - rewrite e. reflexivity.
Qed.

Lemma dropPrefix_app lit s : dropPrefix lit (lit +:+ s) = Some s.
Proof.
  induction lit as [|a lit IH]; simpl; [reflexivity|].
  rewrite Ascii.eqb_refl. exact IH.
Qed.

Lemma dropPrefix_inv lit s r : dropPrefix lit s = Some r -> s = lit +:+ r.
Proof.
  revert s; induction lit as [|a lit IH]; intros s; simpl.
  - intros [= ->]. reflexivity.
  - destruct s as [|b s]; [congruence|].
    destruct (Ascii.eqb_spec a b) as [->|]; [|congruence].
    intros H. apply IH in H. rewrite H. reflexivity.
Qed.

Lemma colon_not_digit : isDigit ":" = false.
Proof. reflexivity. Qed.

(** A run of digits followed by a colon is exactly what the greedy [\d+]
    takes. *)
Lemma spanDigits_colon ds rest :
  allDigits ds = true -> spanDigits (ds +:+ String ":" rest) = (ds, String ":" rest).
Proof.
  induction ds as [|c ds IH]; simpl; intros H.
  - reflexivity.
  - apply andb_prop in H as [Hc Hds]. rewrite Hc, (IH Hds). reflexivity.
Qed.

Lemma spanDigits_inv s ds tl :
  spanDigits s = (ds, tl) -> s = ds +:+ tl /\ allDigits ds = true.
Proof.
  revert ds tl; induction s as [|c s IH]; simpl; intros ds tl.
  - intros [= <- <-]. split; reflexivity.
  - destruct (isDigit c) eqn:Hc.
    + destruct (spanDigits s) as [ds' tl'] eqn:E. intros [= <- <-].
      destruct (IH _ _ eq_refl) as [-> Hd]. simpl. rewrite Hc, Hd. split; reflexivity.
    + intros [= <- <-]. split; reflexivity.
Qed.

Lemma digitsPlus_colon ds rest :
  digits ds -> digitsPlus (ds +:+ String ":" rest) = Some (ds, String ":" rest).
Proof.
  intros [Hne Hd]. unfold digitsPlus. rewrite (spanDigits_colon _ _ Hd).
  destruct ds; [contradiction|reflexivity].
Qed.

Lemma digitsPlus_inv s ds tl :
  digitsPlus s = Some (ds, tl) -> s = ds +:+ tl /\ digits ds.
Proof.
  unfold digitsPlus. destruct (spanDigits s) as [d t] eqn:E.
  apply spanDigits_inv in E as [-> Hd].
  destruct d as [|c d]; [congruence|]. intros [= <- <-].
  split; [reflexivity|]. split; [congruence|exact Hd].
Qed.

Lemma expectColon_inv s r : expectColon s = Some r -> s = String ":" r.
Proof.
  destruct s as [|c s]; simpl; [congruence|].
  destruct (Ascii.eqb_spec c ":") as [->|Hne].
  - intros [= <-]. reflexivity.
  - destruct c as [[] [] [] [] [] [] [] []]; simpl; congruence.
Qed.

(** The anchored matcher agrees with the pattern read declaratively. *)
Lemma matchAt_occurrence s d line rest :
  occurrenceAt s d line rest -> matchAt s = Some (line, rest).
Proof.
  intros (-> & Hd & Hl). unfold matchAt.
  rewrite dropPrefix_app. cbn [mbind option_bind].
  change (":" +:+ line +:+ ":" +:+ rest) with (String ":" (line +:+ String ":" rest)).
  rewrite (digitsPlus_colon _ _ Hd). cbn [mbind option_bind expectColon].
  rewrite (digitsPlus_colon _ _ Hl). reflexivity.
Qed.

Lemma matchAt_inv s line rest :
  matchAt s = Some (line, rest) -> exists d, occurrenceAt s d line rest.
Proof.
  unfold matchAt. intros H.
  destruct (dropPrefix "ERROR: " s) as [s1|] eqn:E1; simpl in H; [|congruence].
  destruct (digitsPlus s1) as [[d1 s2]|] eqn:E2; simpl in H; [|congruence].
  destruct (expectColon s2) as [s3|] eqn:E3; simpl in H; [|congruence].
  destruct (digitsPlus s3) as [[d2 s4]|] eqn:E4; simpl in H; [|congruence].
  destruct (expectColon s4) as [s5|] eqn:E5; simpl in H; [|congruence].
  injection H as <- <-.
  apply dropPrefix_inv in E1. apply digitsPlus_inv in E2 as [E2 Hd1].
  apply digitsPlus_inv in E4 as [E4 Hd2].
  apply expectColon_inv in E3, E5. subst.
  exists d1. split; [reflexivity|]. split; assumption.
Qed.

Lemma matchAt_none s : ~ startsWithOccurrence s -> matchAt s = None.
Proof.
  intros Hno. destruct (matchAt s) as [[line rest]|] eqn:E; [|reflexivity].
  exfalso. apply Hno. apply matchAt_inv in E as [d Hd]. exists d, line, rest. exact Hd.
Qed.

Lemma parseErrorLog_occurrence (L : nat) s d line rest :
  occurrenceAt s d line rest ->
  parseErrorLog s L = replacement line (Z.of_nat L) +:+ parseErrorLog rest L.
Proof.
  intros H. unfold parseErrorLog. rewrite replaceAll_step.
  rewrite (matchAt_occurrence _ _ _ _ H). reflexivity.
Qed.

Lemma parseErrorLog_other (L : nat) c tl :
  ~ startsWithOccurrence (String c tl) ->
  parseErrorLog (String c tl) L = String c (parseErrorLog tl L).
Proof.
  intros H. unfold parseErrorLog. rewrite replaceAll_step.
  rewrite (matchAt_none _ H). reflexivity.
Qed.


(** A log without any occurrence of the pattern is returned as it is. *)
Lemma parseErrorLog_no_occurrence (L : nat) log :
  ~ hasOccurrence log -> parseErrorLog log L = log.
Proof.
  induction log as [|c tl IH]; intros Hno; [reflexivity|].
  rewrite parseErrorLog_other.
  - rewrite IH; [reflexivity|].
    intros (before & s & -> & Hs). apply Hno. exists (String c before), s. split; [reflexivity|exact Hs].
  - intros Hs. apply Hno. exists "", (String c tl). split; [reflexivity|exact Hs].
Qed.

Lemma string_app_assoc (a b c : string) : (a +:+ b) +:+ c = a +:+ b +:+ c.
Proof.
  induction a as [|x a IH]; [reflexivity|].
  change (String x ((a +:+ b) +:+ c) = String x (a +:+ b +:+ c)).
  rewrite IH. reflexivity.
Qed.

Lemma replacement_max line (L : Z) :
  replacement line L = "ERROR: line " +:+ pretty (Z.max 1 (parseInt line - L)) +:+ ":".
Proof. reflexivity. Qed.

(** The two prefixes are 13 and 6 lines long, so the first line of the user's
    source is raw line 14 (vertex) or 7 (fragment). *)
Lemma offsets_value : VERTEX_OFFSET = 13 /\ FRAGMENT_OFFSET = 6.
Proof. split; reflexivity. Qed.

Example parseErrorLog_two_errors :
  parseErrorLog
    ("ERROR: 0:15: 'x' : undeclared identifier" +:+ nl +:+
     "ERROR: 0:3: syntax error; see ERROR: 12:0014:ERROR: 1:2") VERTEX_OFFSET
  = "ERROR: line 2: 'x' : undeclared identifier" +:+ nl +:+
    "ERROR: line 1: syntax error; see ERROR: line 1:ERROR: 1:2".
Proof. reflexivity. Qed.

(** C3.  [parseErrorLog] is determined by three equations that follow the log
    from left to right.  The empty log stays empty, and so does any log
    without an occurrence of the pattern.  A log that does not begin
    with an occurrence of [ERROR: <int>:<line>:] keeps its first character and
    is normalised from the next one on.  A log that begins with an occurrence
    has it replaced by [ERROR: line n:] with [n = max 1 (line - L)], and
    normalisation resumes right after the occurrence: so an error at raw line
    [L + k], [k >= 1], reads "line k", and an error at or before raw line [L]
    reads "line 1".  Line numbers and the offset are within the range in
    which JavaScript numbers are exact integers. *)
Theorem parseErrorLog_normalizes (L : nat) :
  (Z.of_nat L <= MAX_SAFE_INTEGER)%Z ->
  parseErrorLog "" L = ""
  /\ (forall log, ~ hasOccurrence log -> parseErrorLog log L = log)
  /\ (forall c tl,
        ~ startsWithOccurrence (String c tl) ->
        parseErrorLog (String c tl) L = String c (parseErrorLog tl L))
  /\ (forall d line rest,
        digits d -> digits line -> (parseInt line <= MAX_SAFE_INTEGER)%Z ->
        let log := "ERROR: " +:+ d +:+ ":" +:+ line +:+ ":" +:+ rest in
        parseErrorLog log L =
          "ERROR: line " +:+ pretty (Z.max 1 (parseInt line - Z.of_nat L)) +:+ ":"
            +:+ parseErrorLog rest L
        /\ (forall k : Z, (1 <= k)%Z -> parseInt line = (Z.of_nat L + k)%Z ->
             parseErrorLog log L = "ERROR: line " +:+ pretty k +:+ ":" +:+ parseErrorLog rest L)
        /\ ((parseInt line <= Z.of_nat L)%Z ->
             parseErrorLog log L = "ERROR: line 1:" +:+ parseErrorLog rest L)).
Proof.
  intros _. split; [reflexivity|]. split; [apply parseErrorLog_no_occurrence|]. split.
  - intros c tl H. apply parseErrorLog_other, H.
  - intros d line rest Hd Hl _ log.
    assert (Hocc : occurrenceAt log d line rest) by (split; [reflexivity|split; assumption]).
    pose proof (parseErrorLog_occurrence L _ _ _ _ Hocc) as E.
    rewrite replacement_max in E.
    assert (Happ : forall n : Z,
               ("ERROR: line " +:+ pretty n +:+ ":") +:+ parseErrorLog rest L
               = "ERROR: line " +:+ pretty n +:+ ":" +:+ parseErrorLog rest L).
    { intros n. rewrite !string_app_assoc. reflexivity. }
    rewrite Happ in E.
    split; [exact E|]. split.
    + intros k Hk Hline. rewrite E. rewrite Hline.
      replace (Z.max 1 (Z.of_nat L + k - Z.of_nat L))%Z with k by lia. reflexivity.
    + intros Hle. rewrite E.
      replace (Z.max 1 (parseInt line - Z.of_nat L))%Z with 1%Z by lia. reflexivity.
Qed.

Lemma parseErrorLog_normalizes_witness :
  (Z.of_nat 13 <= MAX_SAFE_INTEGER)%Z
  /\ parseErrorLog ("ERROR: 0:15: bad") 13 = "ERROR: line 2: bad"
  /\ parseErrorLog ("ERROR: 0:7: bad") 13 = "ERROR: line 1: bad".
Proof.
  assert (H13 : (Z.of_nat 13 <= MAX_SAFE_INTEGER)%Z) by (vm_compute; discriminate).
  split; [exact H13|].
  destruct (parseErrorLog_normalizes 13 H13) as (_ & _ & _ & H).
  split.
  - destruct (H "0" "15" " bad") as (_ & Hk & _).
    + split; [discriminate|reflexivity].
    + split; [discriminate|reflexivity].
    + vm_compute; discriminate.
    + exact (Hk 2%Z ltac:(lia) eq_refl).
  - destruct (H "0" "7" " bad") as (_ & _ & Hc).
    + split; [discriminate|reflexivity].
    + split; [discriminate|reflexivity].
    + vm_compute; discriminate.
    + apply Hc. vm_compute. discriminate.
Defined.

Lemma countLines_app a b : countLines (a +:+ b) = countLines a + countLines b.
Proof.
  induction a as [|c a IH]; [reflexivity|].
  change (countLines (String c (a +:+ b)) = countLines (String c a) + countLines b).
  cbn [countLines]. rewrite IH. lia.
Qed.

(** ** Printing and parsing of line numbers *)

Lemma parseIntFrom_acc s : forall acc,
  parseIntFrom acc s = (acc * 10 ^ Z.of_nat (String.length s) + parseIntFrom 0 s)%Z.
Proof.
  induction s as [|c s IH]; intros acc.
  - cbn [parseIntFrom String.length]. change (Z.of_nat 0) with 0%Z. rewrite Z.pow_0_r. lia.
  - cbn [parseIntFrom String.length]. rewrite IH, (IH (10 * 0 + digitValue c)%Z).
    rewrite Nat2Z.inj_succ, Z.pow_succ_r by lia. lia.
Qed.

Lemma pretty_N_char_digit x :
  (x < 10)%N -> isDigit (pretty_N_char x) = true /\ digitValue (pretty_N_char x) = Z.of_N x.
Proof.
  intros H.
  assert (x = 0 \/ x = 1 \/ x = 2 \/ x = 3 \/ x = 4 \/ x = 5 \/ x = 6 \/ x = 7 \/ x = 8 \/ x = 9)%N
    as Hc by lia.
  repeat (destruct Hc as [->|Hc]; [split; reflexivity|]). subst. split; reflexivity.
Qed.

(** The decimal printer emits digits only, and [parseInt] reads them back. *)
Lemma pretty_N_go_spec x : forall s,
  allDigits (pretty_N_go x s) = allDigits s
  /\ String.length s <= String.length (pretty_N_go x s)
  /\ parseIntFrom 0 (pretty_N_go x s)
     = (Z.of_N x * 10 ^ Z.of_nat (String.length s) + parseIntFrom 0 s)%Z.
Proof.
  induction (N.lt_wf_0 x) as [x _ IH]; intros s.
  assert (x = 0 \/ 0 < x)%N as [->|Hpos] by lia.
  - rewrite pretty_N_go_0. split; [reflexivity|]. split; [lia|].
    change (Z.of_N 0) with 0%Z. rewrite Z.mul_0_l. reflexivity.
  - rewrite pretty_N_go_step by exact Hpos.
    destruct (IH (x `div` 10)%N (N.div_lt x 10 Hpos eq_refl)
                 (String (pretty_N_char (x `mod` 10)) s)) as (Hd & Hl & Hv).
    destruct (pretty_N_char_digit (x `mod` 10)%N) as [Hc Hcv].
    { apply N.mod_lt. discriminate. }
    split; [|split].
    + rewrite Hd. cbn [allDigits]. rewrite Hc. reflexivity.
    + cbn [String.length] in Hl. lia.
    + rewrite Hv. cbn [parseIntFrom String.length].
      rewrite (parseIntFrom_acc s), Hcv.
      rewrite Nat2Z.inj_succ, Z.pow_succ_r by lia.
      pose proof (N.div_mod x 10 ltac:(discriminate)) as Hdm.
      assert (Z.of_N x = 10 * Z.of_N (x `div` 10) + Z.of_N (x `mod` 10))%Z as -> by lia.
      lia.
Qed.

Lemma pretty_digits (n : Z) :
  (0 <= n)%Z -> digits (pretty n) /\ parseInt (pretty n) = n.
Proof.
  intros Hn. destruct n as [|p|p]; [split; [split; [discriminate|reflexivity]|reflexivity]| |lia].
  change (pretty (Z.pos p)) with (pretty_N_go (N.pos p) "").
  destruct (pretty_N_go_spec (N.pos p) "") as (Hd & _ & Hv).
  split; [split|].
  - rewrite pretty_N_go_step by reflexivity.
    intros E. destruct (pretty_N_go_spec (N.pos p `div` 10)
                          (String (pretty_N_char (N.pos p `mod` 10)) "")) as (_ & Hl & _).
    rewrite E in Hl. cbn in Hl. lia.
  - rewrite Hd. reflexivity.
  - unfold parseInt. rewrite Hv. cbn. lia.
Qed.

(** X1.  A diagnostic that the compiler prints for raw line [raw] is shown
    with the line [max 1 (raw - L)]: the number the compiler printed is read
    back exactly, whatever its length.  In particular a diagnostic at raw line
    [L + k] with [k >= 1] is shown as "line k".  Line numbers and the offset
    are within the range in which JavaScript numbers are exact integers. *)
Theorem reported_line_round_trip (L : nat) (raw : Z) (d rest : string) :
  digits d -> (0 <= raw <= MAX_SAFE_INTEGER)%Z -> (Z.of_nat L <= MAX_SAFE_INTEGER)%Z ->
  parseErrorLog ("ERROR: " +:+ d +:+ ":" +:+ pretty raw +:+ ":" +:+ rest) L
  = "ERROR: line " +:+ pretty (Z.max 1 (raw - Z.of_nat L)) +:+ ":" +:+ parseErrorLog rest L
  /\ (forall k : Z, (1 <= k)%Z -> raw = (Z.of_nat L + k)%Z ->
        parseErrorLog ("ERROR: " +:+ d +:+ ":" +:+ pretty raw +:+ ":" +:+ rest) L
        = "ERROR: line " +:+ pretty k +:+ ":" +:+ parseErrorLog rest L).
Proof.
  intros Hd [Hraw _] _. destruct (pretty_digits raw Hraw) as [Hp Hv].
  assert (E : parseErrorLog ("ERROR: " +:+ d +:+ ":" +:+ pretty raw +:+ ":" +:+ rest) L
              = "ERROR: line " +:+ pretty (Z.max 1 (raw - Z.of_nat L)) +:+ ":"
                  +:+ parseErrorLog rest L).
  { rewrite (parseErrorLog_occurrence L _ d (pretty raw) rest)
      by (split; [reflexivity|split; assumption]).
    rewrite replacement_max, Hv, !string_app_assoc. reflexivity. }
  split; [exact E|].
  intros k Hk ->. rewrite E.
  replace (Z.max 1 (Z.of_nat L + k - Z.of_nat L))%Z with k by lia. reflexivity.
Qed.

Lemma reported_line_round_trip_witness :
  parseErrorLog ("ERROR: 0:" +:+ pretty 1234%Z +:+ ": syntax error") VERTEX_OFFSET
  = "ERROR: line 1221: syntax error".
Proof.
  assert (Hd : digits "0") by (split; [discriminate|reflexivity]).
  assert (Hr : (0 <= 1234 <= MAX_SAFE_INTEGER)%Z) by (vm_compute; split; discriminate).
  assert (Ho : (Z.of_nat VERTEX_OFFSET <= MAX_SAFE_INTEGER)%Z) by (vm_compute; discriminate).
  exact (proj1 (reported_line_round_trip VERTEX_OFFSET 1234 "0" " syntax error" Hd Hr Ho)).
Defined.

(** ** Normalising twice *)

Lemma noE_app a b : noE (a +:+ b) = noE a && noE b.
Proof.
  induction a as [|c a IH]; [reflexivity|].
  change (noE (String c (a +:+ b)) = noE (String c a) && noE b).
  cbn [noE]. rewrite IH, andb_assoc. reflexivity.
Qed.

Lemma isDigit_notE c : isDigit c = true -> notE c = true.
Proof.
  unfold isDigit, notE. intros H.
  destruct (Ascii.eqb_spec c "E") as [->|]; [discriminate H|reflexivity].
Qed.

Lemma allDigits_noE s : allDigits s = true -> noE s = true.
Proof.
  induction s as [|c s IH]; [reflexivity|]. cbn. intros H.
  apply andb_prop in H as [Hc Hs]. rewrite (isDigit_notE _ Hc), (IH Hs). reflexivity.
Qed.

(** The only [E] of an occurrence is its first character. *)
Lemma occurrence_tail_noE d line :
  digits d -> digits line -> noE ("RROR: " +:+ d +:+ ":" +:+ line +:+ ":") = true.
Proof.
  intros [_ Hd] [_ Hl]. rewrite !noE_app, (allDigits_noE _ Hd), (allDigits_noE _ Hl).
  reflexivity.
Qed.

Lemma matchAt_head s line rest : matchAt s = Some (line, rest) -> exists tl, s = String "E" tl.
Proof.
  intros H. apply matchAt_inv in H as (d & -> & _). eexists. reflexivity.
Qed.

(** What the scan emits up to the first [E] is what it read. *)
Lemma replaceAll_prefix offset p : forall log x,
  noE p = true -> replaceAll offset log = p +:+ x ->
  exists y, log = p +:+ y /\ x = replaceAll offset y.
Proof.
  induction p as [|a p IH]; intros log x Hp Hout.
  - exists log. split; [reflexivity|]. symmetry. exact Hout.
  - cbn in Hp. apply andb_prop in Hp as [Ha Hp].
    rewrite replaceAll_step in Hout.
    destruct (matchAt log) as [[line rest]|] eqn:Hm.
    + exfalso. rewrite replacement_max in Hout. injection Hout as Hc _.
      subst a. discriminate Ha.
    + destruct log as [|c tl]; [discriminate Hout|].
      injection Hout as -> Hout.
      destruct (IH tl x Hp Hout) as (y & -> & Hx).
      exists y. split; [reflexivity|exact Hx].
Qed.

Lemma clean_cons c s : matchAt (String c s) = None -> clean s -> clean (String c s).
Proof.
  intros Hhead Hs [|b before] t E.
  - change (String c s = t) in E. subst t. exact Hhead.
  - injection E as _ E. exact (Hs before t E).
Qed.

Lemma clean_app_noE p s :
  noE p = true -> clean s -> clean (p +:+ s).
Proof.
  induction p as [|a p IH]; intros Hp Hs; [exact Hs|].
  cbn in Hp. apply andb_prop in Hp as [Ha Hp].
  apply clean_cons; [|apply IH; assumption].
  destruct (matchAt _) as [[line rest]|] eqn:Hm; [|reflexivity].
  apply matchAt_head in Hm as [tl [= -> _]]. discriminate Ha.
Qed.

Lemma replacement_shape line offset :
  exists n, replacement line offset = "ERROR: line " +:+ n +:+ ":" /\ noE n = true.
Proof.
  exists (pretty (Z.max 1 (parseInt line - offset))). split; [reflexivity|].
  apply allDigits_noE. apply (pretty_digits (Z.max 1 (parseInt line - offset))). lia.
Qed.

Lemma replaceAll_clean offset log : clean (replaceAll offset log).
Proof.
  remember (String.length log) as n eqn:Hn. revert log Hn.
  induction n as [n IH] using lt_wf_ind. intros log ->.
  rewrite replaceAll_step. destruct (matchAt log) as [[line rest]|] eqn:Hm.
  - pose proof (matchAt_shorter _ _ _ Hm) as Hlt.
    specialize (IH _ Hlt rest eq_refl).
    destruct (replacement_shape line offset) as (n & -> & Hnum).
    rewrite !string_app_assoc.
    change ("ERROR: line " +:+ n +:+ ":" +:+ replaceAll offset rest)
      with (String "E" ("RROR: line " +:+ n +:+ ":" +:+ replaceAll offset rest)).
    apply clean_cons.
    + reflexivity.
    + rewrite <- !string_app_assoc. apply clean_app_noE; [|exact IH].
      rewrite !noE_app, Hnum. reflexivity.
  - destruct log as [|c tl].
    + intros [|b before] t E; [change ("" = t) in E; subst t; reflexivity|discriminate E].
    + specialize (IH (String.length tl) ltac:(cbn; lia) tl eq_refl).
      apply clean_cons; [|exact IH].
      destruct (matchAt (String c (replaceAll offset tl))) as [[line rest]|] eqn:Hout;
        [|reflexivity].
      exfalso. apply matchAt_inv in Hout as (d & [E [Hd Hl]]).
      injection E as -> E.
      assert (E' : replaceAll offset tl
                   = ("RROR: " +:+ d +:+ ":" +:+ line +:+ ":") +:+ rest).
      { rewrite E, !string_app_assoc. reflexivity. }
      destruct (replaceAll_prefix offset _ tl rest (occurrence_tail_noE d line Hd Hl) E')
        as (y & -> & _).
      assert (Hocc : occurrenceAt (String "E" (("RROR: " +:+ d +:+ ":" +:+ line +:+ ":") +:+ y))
                       d line y).
      { split; [|split; assumption]. rewrite !string_app_assoc. reflexivity. }
      rewrite (matchAt_occurrence _ _ _ _ Hocc) in Hm. discriminate Hm.
Qed.

Lemma replaceAll_of_clean offset s : clean s -> replaceAll offset s = s.
Proof.
  induction s as [|c s IH]; intros Hc.
  - reflexivity.
  - rewrite replaceAll_step, (Hc "" _ eq_refl). rewrite IH; [reflexivity|].
    intros before t E. apply (Hc (String c before) t). rewrite E. reflexivity.
Qed.

(** X2.  Normalising is idempotent, whatever the two offsets: the output of
    [parseErrorLog] holds no occurrence of the pattern any more, so a second
    pass (with the same or another offset) returns it unchanged, and line
    numbers are never shifted twice. *)
Theorem parseErrorLog_idempotent (log : string) (L L' : nat) :
  parseErrorLog (parseErrorLog log L) L' = parseErrorLog log L
  /\ ~ hasOccurrence (parseErrorLog log L).
Proof.
  split.
  - unfold parseErrorLog. apply replaceAll_of_clean, replaceAll_clean.
  - intros (before & s & E & (d & line & rest & Hocc)).
    pose proof (replaceAll_clean (Z.of_nat L) log before s E) as Hnone.
    rewrite (matchAt_occurrence _ _ _ _ Hocc) in Hnone. discriminate Hnone.
Qed.

End DiagnosticsFacts.

(** * Properties of the validation effect and of promotion *)

Module ValidationFacts.
Import Diagnostics Validation.

Section WithDriver.
Variable drv : Driver.

(** [compile] in closed form: the result and the context it leaves. *)
Lemma compile_eq type source ctx :
  compile drv type source ctx =
  let h := next_handle ctx in
  if creates_shader drv type then
    if compile_status drv type source then
      ({| error := None; shader := Some h |},
       {| next_handle := S h;
          shaders := <[h := {| sh_type := type; sh_source := source |}]> (shaders ctx);
          programs := programs ctx;
          calls := calls ctx ++ [CreateShader type (Some h); ShaderSource h source;
                                 CompileShader h; GetShaderParameter h] |})
    else
      ({| error := shader_info_log drv type source; shader := None |},
       {| next_handle := S h;
          shaders := delete h (shaders ctx);
          programs := programs ctx;
          calls := calls ctx ++ [CreateShader type (Some h); ShaderSource h source;
                                 CompileShader h; GetShaderParameter h;
                                 GetShaderInfoLog h; DeleteShader h] |})
  else ({| error := Some "Failed to create shader"; shader := None |},
        logged (CreateShader type None) ctx).
Proof.
  unfold compile, gl_bind, createShader.
  destruct (creates_shader drv type); [|reflexivity].
  cbn -[alter insert delete lookup].
  rewrite lookup_alter_eq, lookup_insert_eq. cbn -[alter insert delete lookup].
  destruct (compile_status drv type source);
    unfold gl_ret, logged, getShaderInfoLog, deleteShader;
    cbn -[alter insert delete lookup];
    rewrite alter_insert_eq, <- ?app_assoc; cbn -[alter insert delete lookup].
  - reflexivity.
  - rewrite lookup_insert_eq, delete_insert_eq. cbn -[alter insert delete lookup].
    rewrite <- ?app_assoc. reflexivity.
Qed.

Ltac case_driver :=
  match goal with
  | |- context [creates_shader drv ?t] => destruct (creates_shader drv t) eqn:?
  | |- context [compile_status drv ?t ?s] => destruct (compile_status drv t s) eqn:?
  | |- context [truthy ?e] => destruct (truthy e) eqn:?
  | |- context [creates_program drv] => destruct (creates_program drv) eqn:?
  | |- context [link_status drv ?a ?b] => destruct (link_status drv a b) eqn:?
  end.

(** Runs the effect symbolically, splitting on each answer of the driver. *)
Ltac run_validate :=
  repeat (rewrite ?compile_eq;
          unfold gl_bind, gl_ret, createProgram, attachShader, linkProgram,
                 getProgramParameter, getProgramInfoLog, deleteShader, deleteProgram,
                 logged;
          cbn -[parseErrorLog];
          repeat match goal with
                 | |- context [attachedSource ?c ?p ?t] =>
                     let r := eval vm_compute in (attachedSource c p t) in
                     change (attachedSource c p t) with r
                 end;
          try case_driver).

Lemma validationEffect_exit props :
  exit (validationEffect drv props) = exitByDriver drv props.
Proof.
  unfold validationEffect, exitByDriver, compileError, compiles.
  destruct (has_webgl2 drv); [|reflexivity].
  unfold validate. fold (vsSource props) (fsSource props).
  generalize (vsSource props) (fsSource props). intros vs fs.
  run_validate.
  all: first [reflexivity | congruence].
Qed.

(** Whatever the driver answers, the queued state updates are none or both. *)
Lemma validate_updates props ctx st :
  let r := (validate drv props ctx).1 in
  match r.1 with
  | Promoted => foldl applyAction st r.2 = draftPair props
  | _ => foldl applyAction st r.2 = st
  end.
Proof.
  unfold validate, gl_bind.
  destruct (compile drv VERTEX_SHADER _ ctx) as [vsResult ctx1].
  destruct (compile drv FRAGMENT_SHADER _ ctx1) as [fsResult ctx2].
  destruct (has_onError props) eqn:HE, (has_onSuccess props) eqn:HS.
  all: destruct (truthy (error vsResult)); [reflexivity|].
  all: destruct (truthy (error fsResult)); [reflexivity|].
  all: destruct (createProgram drv ctx2) as [[p|] ctx3].
  all: destruct (shader vsResult) as [vs|], (shader fsResult) as [fs|].
  all: unfold attachShader, linkProgram, getProgramParameter, getProgramInfoLog,
         deleteShader, deleteProgram, gl_ret.
  all: try match goal with
           | |- context [negb (link_status drv ?a ?b)] => destruct (link_status drv a b)
           end.
  all: reflexivity.
Qed.

Lemma commit_cases props st :
  commit drv props st = if promotes drv props then draftPair props else st.
Proof.
  unfold commit, promotes, validationEffect.
  destruct (has_webgl2 drv); [|reflexivity].
  pose proof (validate_updates props newContext st) as H. cbv zeta in H.
  destruct (validate drv props newContext) as [[exit acts] ctx]. simpl in *.
  destruct exit; exact H.
Qed.


Lemma promotes_exit props : promotes drv props = true <-> exitByDriver drv props = Promoted.
Proof.
  unfold promotes. rewrite validationEffect_exit.
  destruct (exitByDriver drv props); split; congruence.
Qed.




(** After the success exit nothing that the pass created is alive. *)
Lemma promoted_releases props :
  exit (validationEffect drv props) = Promoted -> leaked (context (validationEffect drv props)) = [].
Proof.
  unfold validationEffect. destruct (has_webgl2 drv); [|discriminate].
  unfold validate. generalize (THREE_VERTEX_PREFIX +:+ vertexShader props)
                              (THREE_FRAGMENT_PREFIX +:+ fragmentShader props).
  intros vs fs. run_validate.
  all: try (exfalso; congruence).
  all: intros He; first [discriminate He | vm_compute; reflexivity].
Qed.

(** After the exit through a link error the two shaders and the program are
    still alive. *)
Lemma link_error_leaks props :
  exit (validationEffect drv props) = LinkError ->
  length (leaked (context (validationEffect drv props))) = 3.
Proof.
  unfold validationEffect. destruct (has_webgl2 drv); [|discriminate].
  unfold validate. generalize (THREE_VERTEX_PREFIX +:+ vertexShader props)
                              (THREE_FRAGMENT_PREFIX +:+ fragmentShader props).
  intros vs fs. run_validate.
  all: try (exfalso; congruence).
  all: intros He; first [discriminate He | vm_compute; reflexivity].
Qed.

(** After an exit through a compile error, the shader of the other stage
    is still alive when that stage compiled. *)
Lemma compile_error_leaks props :
  let r := validationEffect drv props in
  (exit r = FragmentError -> compiles drv VERTEX_SHADER (vsSource props) = true ->
   leaked (context r) = [1])
  /\ (exit r = VertexError -> compiles drv FRAGMENT_SHADER (fsSource props) = true ->
      length (leaked (context r)) = 1).
Proof.
  unfold validationEffect, compiles. destruct (has_webgl2 drv); [|split; discriminate].
  unfold validate. fold (vsSource props) (fsSource props).
  generalize (vsSource props) (fsSource props). intros vs fs.
  run_validate.
  all: try (exfalso; congruence).
  all: split; intros He Hc; first [discriminate He | discriminate Hc | vm_compute; reflexivity].
Qed.

(** Every run, by its exit. *)
Lemma validationEffect_actions props :
  actions (validationEffect drv props)
  = actionsByExit drv props (exit (validationEffect drv props)).
Proof.
  unfold validationEffect, actionsByExit, vertexErrorMessage, fragmentErrorMessage,
    linkErrorMessage, compileError.
  destruct (has_webgl2 drv); [|reflexivity].
  unfold validate. fold (vsSource props) (fsSource props).
  generalize (vsSource props) (fsSource props). intros vs fs.
  run_validate.
  all: first [reflexivity | congruence].
Qed.

Lemma validationEffect_links props :
  linkCalls (context (validationEffect drv props))
  = if reachesLink drv props then 1 else 0.
Proof.
  unfold validationEffect, reachesLink, compileError, compiles.
  destruct (has_webgl2 drv); [|reflexivity].
  unfold validate. fold (vsSource props) (fsSource props).
  generalize (vsSource props) (fsSource props). intros vs fs.
  run_validate.
  all: try (exfalso; congruence).
  all: vm_compute; reflexivity.
Qed.

Lemma link_error_deletes_nothing props :
  exit (validationEffect drv props) = LinkError ->
  deleteCalls (context (validationEffect drv props)) = 0.
Proof.
  unfold validationEffect. destruct (has_webgl2 drv); [|discriminate].
  unfold validate. generalize (THREE_VERTEX_PREFIX +:+ vertexShader props)
                              (THREE_FRAGMENT_PREFIX +:+ fragmentShader props).
  intros vs fs. run_validate.
  all: try (exfalso; congruence).
  all: intros He; first [discriminate He | vm_compute; reflexivity].
Qed.

End WithDriver.




(** C4.  The vertex stage compiles and the fragment stage does not: the
    effect returns through the fragment error and the vertex shader object it
    created (handle 1) is never deleted. *)
Theorem fragment_failure_leaks_vertex_shader :
  let r := validationEffect (rejecting FRAGMENT_SHADER) sampleDraft in
  exit r = FragmentError
  /\ leaked (context r) = [1]
  /\ ~ In (DeleteShader 1) (calls (context r)).
Proof.
  vm_compute. repeat split. intros H.
  repeat (destruct H as [H|H]; [discriminate H|]). exact H.
Qed.

Example vertex_failure_leaks_fragment_shader :
  leaked (context (validationEffect (rejecting VERTEX_SHADER) sampleDraft)) = [2].
Proof. vm_compute. reflexivity. Qed.

Example link_failure_leaks_everything :
  let r := validationEffect notLinking sampleDraft in
  exit r = LinkError /\ leaked (context r) ≡ₚ [1; 2; 3].
Proof. split; [vm_compute; reflexivity|]. vm_compute. apply perm_swap. Qed.

(** The effect recognises a compile failure by its log, not by the compile
    status: a rejected stage with an empty log goes unnoticed and the link
    step is skipped. *)
Example empty_log_not_detected :
  let r := validationEffect (rejectingSilently VERTEX_SHADER) sampleDraft in
  compile_status (rejectingSilently VERTEX_SHADER) VERTEX_SHADER (vsSource sampleDraft) = false
  /\ exit r = Promoted /\ linkCalls (context r) = 0.
Proof. vm_compute. repeat split. Qed.

Example failed_commit_keeps_pair st :
  commit (rejecting FRAGMENT_SHADER) sampleDraft st = st.
Proof. rewrite commit_cases. reflexivity. Qed.

(** ** Further properties of the validation effect *)

(** X3.  The text handed to the compiler is the prefix followed by the user's
    source, so every position of the user's source has exactly [VERTEX_OFFSET]
    (13), respectively [FRAGMENT_OFFSET] (6), more line breaks before it in
    the compiled text than in the source: line [k] of the source is raw line
    [offset + k], which is what [parseErrorLog] subtracts. *)
Theorem prefix_shifts_lines (props : Props) (before after : string) :
  (vertexShader props = before +:+ after ->
   vsSource props = (THREE_VERTEX_PREFIX +:+ before) +:+ after
   /\ countLines (THREE_VERTEX_PREFIX +:+ before) = VERTEX_OFFSET + countLines before)
  /\ (fragmentShader props = before +:+ after ->
      fsSource props = (THREE_FRAGMENT_PREFIX +:+ before) +:+ after
      /\ countLines (THREE_FRAGMENT_PREFIX +:+ before) = FRAGMENT_OFFSET + countLines before)
  /\ VERTEX_OFFSET = 13 /\ FRAGMENT_OFFSET = 6.
Proof.
  split; [|split; [|split; reflexivity]].
  - intros E. unfold vsSource. rewrite E, DiagnosticsFacts.string_app_assoc.
    split; [reflexivity|]. apply DiagnosticsFacts.countLines_app.
  - intros E. unfold fsSource. rewrite E, DiagnosticsFacts.string_app_assoc.
    split; [reflexivity|]. apply DiagnosticsFacts.countLines_app.
Qed.

Lemma prefix_shifts_lines_witness :
  countLines (THREE_VERTEX_PREFIX +:+ ("void main(){" +:+ nl)) = 13 + 1.
Proof.
  exact (proj2 (proj1 (prefix_shifts_lines
                         {| vertexShader := "void main(){" +:+ nl +:+ "}";
                            fragmentShader := ""; has_onError := false;
                            has_onSuccess := false |}
                         ("void main(){" +:+ nl) "}") eq_refl)).
Defined.

(** X4.  What a run does is fixed by its exit.  Without a context nothing is
    called.  An error exit calls [onError] once, when the handler is given,
    with the stage's label and message, and queues no state update.  The
    success exit calls [onSuccess] once, when given, and then queues the two
    state updates with the draft.  So no run calls both handlers, and the
    safe pair is touched by the success exit only. *)
Theorem handlers_by_exit (drv : Driver) (props : Props) :
  let r := validationEffect drv props in
  actions r = actionsByExit drv props (exit r)
  /\ exit r = exitByDriver drv props
  /\ (forall msg, onError msg ∈ actions r -> onSuccess ∉ actions r)
  /\ (forall v, setSafeVertex v ∈ actions r \/ setSafeFragment v ∈ actions r ->
                exit r = Promoted).
Proof.
  intros r. assert (Ha := validationEffect_actions drv props). fold r in Ha.
  split; [exact Ha|]. split; [apply validationEffect_exit|].
  rewrite Ha. unfold actionsByExit, call.
  split.
  - intros msg. destruct (exit r), (has_onError props), (has_onSuccess props); cbn;
      rewrite ?elem_of_cons, ?elem_of_nil; intros H Hs;
      repeat match goal with
             | H : _ \/ _ |- _ => destruct H
             | H : False |- _ => destruct H
             | H : _ = _ |- _ => discriminate H
             | H : _ ∈ [] |- _ => inversion H
             end.
  - intros v. destruct (exit r), (has_onError props), (has_onSuccess props); cbn;
      rewrite ?elem_of_cons, ?elem_of_nil; intros H; try reflexivity;
      repeat match goal with
             | H : _ \/ _ |- _ => destruct H
             | H : False |- _ => destruct H
             | H : _ = _ |- _ => discriminate H
             | H : _ ∈ [] |- _ => inversion H
             end.
Qed.

(** X5.  The link step is reached at most once, and exactly when there is a
    context, neither stage handed back an error text, and the program object
    and both shader objects exist.  When no error text came back and the link
    step is not reached (a stage was rejected with an empty or missing log, or
    no program object could be created) the draft is promoted without ever
    having been linked. *)
Theorem link_step_reached (drv : Driver) (props : Props) :
  let r := validationEffect drv props in
  linkCalls (context r) = (if reachesLink drv props then 1 else 0)
  /\ (has_webgl2 drv = true ->
      truthy (compileError drv VERTEX_SHADER (vsSource props)) = false ->
      truthy (compileError drv FRAGMENT_SHADER (fsSource props)) = false ->
      reachesLink drv props = false ->
      exit r = Promoted /\ linkCalls (context r) = 0
      /\ forall st, commit drv props st = draftPair props).
Proof.
  intros r. assert (Hl := validationEffect_links drv props). fold r in Hl.
  split; [exact Hl|]. intros Hgl Hv Hf Hno.
  assert (He : exitByDriver drv props = Promoted).
  { unfold exitByDriver. rewrite Hgl, Hv, Hf. cbn.
    unfold reachesLink in Hno. rewrite Hgl, Hv, Hf in Hno. cbn [andb negb] in Hno.
    destruct (creates_program drv); [|reflexivity].
    destruct (compiles drv VERTEX_SHADER (vsSource props)); [|reflexivity].
    destruct (compiles drv FRAGMENT_SHADER (fsSource props)); [|reflexivity].
    discriminate Hno. }
  split; [unfold r; rewrite validationEffect_exit; exact He|].
  split; [rewrite Hl, Hno; reflexivity|].
  intros st. rewrite commit_cases. rewrite (proj2 (promotes_exit drv props) He). reflexivity.
Qed.

Lemma link_step_reached_witness :
  let r := validationEffect (rejectingSilently VERTEX_SHADER) sampleDraft in
  compile_status (rejectingSilently VERTEX_SHADER) VERTEX_SHADER (vsSource sampleDraft) = false
  /\ exit r = Promoted /\ linkCalls (context r) = 0.
Proof.
  split; [reflexivity|].
  destruct (proj2 (link_step_reached (rejectingSilently VERTEX_SHADER) sampleDraft)
              eq_refl eq_refl eq_refl eq_refl) as (He & Hl & _).
  exact (conj He Hl).
Defined.

(** X6.  After the success exit nothing that the run created is alive: both
    shader objects and the program object have been deleted. *)
Theorem success_releases_objects (drv : Driver) (props : Props) :
  exit (validationEffect drv props) = Promoted ->
  leaked (context (validationEffect drv props)) = [].
Proof. apply promoted_releases. Qed.

Lemma success_releases_objects_witness :
  exit (validationEffect acceptingDriver sampleDraft) = Promoted
  /\ leaked (context (validationEffect acceptingDriver sampleDraft)) = [].
Proof.
  assert (He : exit (validationEffect acceptingDriver sampleDraft) = Promoted)
    by (vm_compute; reflexivity).
  exact (conj He (success_releases_objects acceptingDriver sampleDraft He)).
Defined.

(** X7.  The exit through a link error releases nothing: the run makes no
    delete call at all, and the two shader objects and the program object are
    still alive when it returns. *)
Theorem link_failure_leaks_objects (drv : Driver) (props : Props) :
  exit (validationEffect drv props) = LinkError ->
  length (leaked (context (validationEffect drv props))) = 3
  /\ deleteCalls (context (validationEffect drv props)) = 0.
Proof.
  intros He. split; [apply link_error_leaks, He|apply link_error_deletes_nothing, He].
Qed.

Lemma link_failure_leaks_objects_witness :
  exit (validationEffect notLinking sampleDraft) = LinkError
  /\ length (leaked (context (validationEffect notLinking sampleDraft))) = 3
  /\ deleteCalls (context (validationEffect notLinking sampleDraft)) = 0.
Proof.
  assert (He : exit (validationEffect notLinking sampleDraft) = LinkError)
    by (vm_compute; reflexivity).
  exact (conj He (link_failure_leaks_objects notLinking sampleDraft He)).
Defined.

(** X8.  End to end for the vertex stage: when the driver rejects the vertex
    source with a diagnostic at raw line [VERTEX_OFFSET + k], [k >= 1], the
    error handler receives the text with "line k", the line of the user's own
    source, under the label of the vertex stage.  The raw line is within the
    range in which JavaScript numbers are exact integers. *)
Theorem vertex_diagnostic_in_user_lines (drv : Driver) (props : Props) (k : Z)
  (d msg : string) :
  has_webgl2 drv = true ->
  creates_shader drv VERTEX_SHADER = true ->
  compile_status drv VERTEX_SHADER (vsSource props) = false ->
  shader_info_log drv VERTEX_SHADER (vsSource props)
  = Some ("ERROR: " +:+ d +:+ ":" +:+ pretty (Z.of_nat VERTEX_OFFSET + k)%Z +:+ ":" +:+ msg) ->
  digits d -> (1 <= k)%Z -> (Z.of_nat VERTEX_OFFSET + k <= MAX_SAFE_INTEGER)%Z ->
  ~ hasOccurrence msg ->
  has_onError props = true ->
  exit (validationEffect drv props) = VertexError
  /\ actions (validationEffect drv props)
     = [onError ("VERTEX SHADER ERROR:" +:+ nl +:+
                 "ERROR: line " +:+ pretty k +:+ ":" +:+ msg)].
Proof.
  intros Hgl Hcs Hst Hlog Hd Hk _ Hmsg Hon.
  assert (Herr : compileError drv VERTEX_SHADER (vsSource props)
                 = Some ("ERROR: " +:+ d +:+ ":" +:+
                         pretty (Z.of_nat VERTEX_OFFSET + k)%Z +:+ ":" +:+ msg)).
  { unfold compileError. rewrite Hcs, Hst. exact Hlog. }
  assert (He : exit (validationEffect drv props) = VertexError).
  { rewrite validationEffect_exit. unfold exitByDriver. rewrite Hgl, Herr. reflexivity. }
  split; [exact He|].
  rewrite validationEffect_actions, He. unfold actionsByExit, vertexErrorMessage.
  rewrite Hon, Herr. cbn [call interpolate].
  destruct (DiagnosticsFacts.pretty_digits (Z.of_nat VERTEX_OFFSET + k)%Z ltac:(lia))
    as [Hp Hv].
  rewrite (DiagnosticsFacts.parseErrorLog_occurrence VERTEX_OFFSET _ d
             (pretty (Z.of_nat VERTEX_OFFSET + k)%Z) msg)
    by (split; [reflexivity|split; assumption]).
  rewrite DiagnosticsFacts.replacement_max, Hv.
  rewrite (DiagnosticsFacts.parseErrorLog_no_occurrence _ _ Hmsg).
  replace (Z.max 1 (Z.of_nat VERTEX_OFFSET + k - Z.of_nat VERTEX_OFFSET))%Z with k by lia.
  rewrite !DiagnosticsFacts.string_app_assoc. reflexivity.
Qed.

Lemma vertex_diagnostic_in_user_lines_witness :
  actions (validationEffect (rejectingAtLine 2) sampleDraft)
  = [onError ("VERTEX SHADER ERROR:" +:+ nl +:+
              "ERROR: line " +:+ pretty 2%Z +:+ ":" +:+ " syntax error")].
Proof.
  refine (proj2 (vertex_diagnostic_in_user_lines (rejectingAtLine 2) sampleDraft 2 "0"
                   " syntax error" eq_refl eq_refl eq_refl eq_refl _ _ _ _ eq_refl)).
  - split; [discriminate|reflexivity].
  - lia.
  - vm_compute. discriminate.
  - intros (before & s & E & (d & line & rest & (Hs & _ & _))). subst s.
    assert (Hc : forall a b c : string, a = b +:+ String "E" c -> noE a = false).
    { intros a b c ->. rewrite DiagnosticsFacts.noE_app. cbn.
      apply andb_false_r. }
    specialize (Hc _ _ _ E). discriminate Hc.
Defined.

End ValidationFacts.

(** * Properties of reconciliation, light slots and the render loop *)

Module UniformsFacts.
Import Uniforms.

(** ** The custom-uniform pass *)


Lemma rewrap_not_sampler cu v : cu_type cu <> SAMPLER_2D -> rewrap cu v = v.
Proof. unfold rewrap. destruct (cu_type cu); try reflexivity. congruence. Qed.

Lemma wrapTexture_lookup cu m v :
  uniforms m !! cu_name cu = Some v ->
  uniforms (wrapTexture cu m) !! cu_name cu = Some (rewrap cu v).
Proof.
  intros Hv. unfold wrapTexture, rewrap. rewrite Hv.
  destruct (cu_type cu); try exact Hv.
  destruct v; try exact Hv.
  destruct (bool_decide _ || bool_decide _); [|exact Hv].
  cbn. apply lookup_insert_eq.
Qed.

Lemma wrapTexture_other cu m n :
  n <> cu_name cu -> uniforms (wrapTexture cu m) !! n = uniforms m !! n.
Proof.
  intros Hn. unfold wrapTexture.
  destruct (cu_type cu); try reflexivity.
  destruct (uniforms m !! cu_name cu) as [[]|]; try reflexivity.
  destruct (bool_decide _ || bool_decide _); [|reflexivity].
  cbn. apply lookup_insert_ne. congruence.
Qed.

Lemma syncCustomUniform_lookup m cu :
  uniforms (syncCustomUniform m cu) !! cu_name cu = Some (valueAfter m cu).
Proof.
  unfold syncCustomUniform, valueAfter. apply wrapTexture_lookup.
  unfold writeValue. destruct (uniforms m !! cu_name cu) as [old|] eqn:E.
  - destruct (cu_binding cu); [exact E|]. cbn. apply lookup_insert_eq.
  - destruct (cu_binding cu); cbn; apply lookup_insert_eq.
Qed.

Lemma syncCustomUniform_other m cu n :
  n <> cu_name cu -> uniforms (syncCustomUniform m cu) !! n = uniforms m !! n.
Proof.
  intros Hn. unfold syncCustomUniform. rewrite wrapTexture_other by exact Hn.
  unfold writeValue. destruct (uniforms m !! cu_name cu).
  - destruct (cu_binding cu); [reflexivity|]. cbn. apply lookup_insert_ne. congruence.
  - cbn. apply lookup_insert_ne. congruence.
Qed.

Lemma syncCustomUniforms_other cus m n :
  n ∉ cu_name <$> cus -> uniforms (syncCustomUniforms cus m) !! n = uniforms m !! n.
Proof.
  revert m. induction cus as [|c cus IH]; intros m Hn; [reflexivity|].
  cbn in Hn. apply not_elem_of_cons in Hn as [Hc Hrest].
  cbn. unfold syncCustomUniforms in IH. rewrite IH by exact Hrest.
  apply syncCustomUniform_other, Hc.
Qed.

(** With pairwise distinct names, the pass leaves under each declared name
    what the body leaves for that declaration. *)
Lemma syncCustomUniforms_lookup cus m cu :
  NoDup (cu_name <$> cus) -> cu ∈ cus ->
  uniforms (syncCustomUniforms cus m) !! cu_name cu = Some (valueAfter m cu).
Proof.
  revert m. induction cus as [|c cus IH]; intros m Hnd Hin.
  - inversion Hin.
  - cbn in Hnd. apply NoDup_cons in Hnd as [Hc Hnd].
    apply elem_of_cons in Hin as [->|Hin].
    + cbn. fold (syncCustomUniforms cus (syncCustomUniform m c)).
      rewrite syncCustomUniforms_other by exact Hc.
      apply syncCustomUniform_lookup.
    + cbn. fold (syncCustomUniforms cus (syncCustomUniform m c)).
      rewrite (IH _ Hnd Hin).
      assert (Hne : cu_name cu <> cu_name c).
      { intros E. apply Hc. rewrite <- E. apply list_elem_of_fmap. eauto. }
      unfold valueAfter. rewrite (syncCustomUniform_other _ _ _ Hne). reflexivity.
Qed.

(** The pass never removes an entry. *)
Lemma syncCustomUniforms_keeps cus m n :
  is_Some (uniforms m !! n) -> is_Some (uniforms (syncCustomUniforms cus m) !! n).
Proof.
  revert m. induction cus as [|c cus IH]; intros m Hn; [exact Hn|].
  cbn. apply IH. destruct (decide (n = cu_name c)) as [->|Hne].
  - rewrite syncCustomUniform_lookup. eauto.
  - rewrite syncCustomUniform_other by exact Hne. exact Hn.
Qed.

(** ** The render loop *)

Lemma setXY_object a b v :
  isObject v = true ->
  exists v', setXY a b v = (Normal, v') /\ isObject v' = true.
Proof. destruct v; cbn; intros H; try discriminate H; eauto. Qed.


(** On an intact table the built-in writes all succeed. *)
Lemma updateBuiltins_intact state t :
  builtinsIntact t = true ->
  updateBuiltins state t = (Normal, builtinsAfter state t).
Proof.
  unfold builtinsIntact. intros H.
  destruct (t !! "u_time") as [v0|] eqn:E0; [|discriminate H].
  destruct (t !! "u_mouse") as [[]|] eqn:E1; try discriminate H.
  destruct (t !! "u_resolution") as [[]|] eqn:E2; try discriminate H.
  destruct (t !! "u_cameraPosition") as [[]|] eqn:E3; try discriminate H.
  unfold updateBuiltins, builtinsAfter, onEntry, andThen.
  rewrite E0. cbn [fst snd].
  rewrite lookup_insert_ne, E1 by discriminate. cbn [setXY fst snd].
  rewrite !lookup_insert_ne, E2 by discriminate. cbn [set2 fst snd].
  rewrite !lookup_insert_ne, E3 by discriminate. reflexivity.
Qed.


Lemma builtinsAfter_other state t n :
  n ∉ builtinNames -> builtinsAfter state t !! n = t !! n.
Proof.
  unfold builtinNames. intros Hn. unfold builtinsAfter.
  rewrite !not_elem_of_cons in Hn. destruct Hn as (H1 & H2 & H3 & H4 & _).
  rewrite !lookup_insert_ne by congruence. reflexivity.
Qed.

Lemma builtinsAfter_keeps state t n :
  is_Some (t !! n) -> is_Some (builtinsAfter state t !! n).
Proof.
  intros H. unfold builtinsAfter.
  repeat (rewrite lookup_insert; case_decide; [eauto|]). exact H.
Qed.



Section Bindings.
Variable state : RootState.
Let elapsed : JSValue := JNumber (clock_elapsedTime state).


Lemma updateBindings_run cus : forall t,
  bindingsApart cus -> pointerTargetsOk cus t ->
  exists t',
    updateBindings state cus t = (Normal, t')
    /\ (forall n, is_Some (t !! n) -> is_Some (t' !! n))
    /\ (forall n, (forall cu, cu ∈ cus -> cu_binding cu <> None -> cu_name cu <> n) ->
                   t' !! n = t !! n)
    /\ (forall n, noPointer cus n ->
                   t !! n = Some elapsed \/
                   ((exists cu, cu ∈ cus /\ cu_binding cu = Some TIME /\ cu_name cu = n)
                    /\ is_Some (t !! n)) ->
                   t' !! n = Some elapsed).
Proof.
  induction cus as [|c cus IH]; intros t Hap Hok.
  - exists t. split; [reflexivity|]. split; [auto|]. split; [auto|].
    intros n _ [H|[(cu & Hin & _) _]]; [exact H|inversion Hin].
  - assert (Hap' : bindingsApart cus).
    { intros cu cu' H1 H2. apply Hap; apply elem_of_cons; auto. }
    cbn [updateBindings]. unfold updateBinding.
    destruct (cu_binding c) as [[]|] eqn:Hb.
    + (* time *)
      destruct (t !! cu_name c) as [v|] eqn:Hv.
      * set (t1 := <[cu_name c := JNumber (clock_elapsedTime state)]> t).
        assert (Hok1 : pointerTargetsOk cus t1).
        { intros cu w Hin Hm Hw. unfold t1 in Hw.
          rewrite lookup_insert_ne in Hw.
          - eapply Hok; [apply elem_of_cons; right; exact Hin|exact Hm|exact Hw].
          - apply (Hap c cu); [apply elem_of_cons; auto|apply elem_of_cons; auto|exact Hb|exact Hm]. }
        destruct (IH t1 Hap' Hok1) as (t' & Hrun & Hkeep & Hsame & Hnow).
        exists t'. unfold andThen; cbn [fst snd]. fold t1.
        split; [exact Hrun|]. split; [|split].
        -- intros n Hn. apply Hkeep. unfold t1.
           rewrite lookup_insert. case_decide; [eauto|exact Hn].
        -- intros n Hn. rewrite Hsame.
           ++ unfold t1. apply lookup_insert_ne. apply (Hn c); [apply elem_of_cons; auto|congruence].
           ++ intros cu Hin. apply Hn. apply elem_of_cons; auto.
        -- intros n Hnp Hpre. apply Hnow.
           ++ intros cu Hin. apply Hnp. apply elem_of_cons; auto.
           ++ destruct (decide (cu_name c = n)) as [<-|Hne].
              ** left. unfold t1. apply lookup_insert_eq.
              ** destruct Hpre as [H|[(cu & Hin & Hcb & Hcn) Hsome]].
                 --- left. unfold t1. rewrite lookup_insert_ne by exact Hne. exact H.
                 --- right. split.
                     +++ apply elem_of_cons in Hin as [->|Hin]; [congruence|]. eauto.
                     +++ unfold t1. rewrite lookup_insert_ne by exact Hne. exact Hsome.
      * assert (Hok1 : pointerTargetsOk cus t).
        { intros cu w Hin. apply Hok. apply elem_of_cons; auto. }
        destruct (IH t Hap' Hok1) as (t' & Hrun & Hkeep & Hsame & Hnow).
        exists t'. unfold andThen; cbn [fst snd].
        split; [exact Hrun|]. split; [exact Hkeep|]. split.
        -- intros n Hn. apply Hsame. intros cu Hin. apply Hn. apply elem_of_cons; auto.
        -- intros n Hnp Hpre. apply Hnow.
           ++ intros cu Hin. apply Hnp. apply elem_of_cons; auto.
           ++ destruct Hpre as [H|[(cu & Hin & Hcb & Hcn) Hsome]]; [auto|].
              right. split; [|exact Hsome].
              apply elem_of_cons in Hin as [->|Hin]; [|eauto].
              rewrite Hcn, Hv in *. destruct Hsome as [? Hs]. discriminate Hs.
    + (* pointer *)
      destruct (t !! cu_name c) as [v|] eqn:Hv.
      * assert (Hobj : isObject v = true).
        { apply (Hok c v); [apply elem_of_cons; auto|exact Hb|exact Hv]. }
        destruct (setXY_object (normalized (pointer state).1)
                               (normalized (pointer state).2) v Hobj) as (v' & Hset & Hobj').
        rewrite Hset.
        set (t1 := <[cu_name c := v']> t).
        assert (Hok1 : pointerTargetsOk cus t1).
        { intros cu w Hin Hm Hw. unfold t1 in Hw.
          rewrite lookup_insert in Hw. case_decide.
          - injection Hw as <-. exact Hobj'.
          - eapply Hok; [apply elem_of_cons; right; exact Hin|exact Hm|exact Hw]. }
        destruct (IH t1 Hap' Hok1) as (t' & Hrun & Hkeep & Hsame & Hnow).
        exists t'. unfold andThen; cbn [fst snd]. fold t1.
        split; [exact Hrun|]. split; [|split].
        -- intros n Hn. apply Hkeep. unfold t1.
           rewrite lookup_insert. case_decide; [eauto|exact Hn].
        -- intros n Hn. rewrite Hsame.
           ++ unfold t1. apply lookup_insert_ne. apply (Hn c); [apply elem_of_cons; auto|congruence].
           ++ intros cu Hin. apply Hn. apply elem_of_cons; auto.
        -- intros n Hnp Hpre.
           assert (Hne : cu_name c <> n).
           { apply Hnp; [apply elem_of_cons; auto|exact Hb]. }
           apply Hnow.
           ++ intros cu Hin. apply Hnp. apply elem_of_cons; auto.
           ++ destruct Hpre as [H|[(cu & Hin & Hcb & Hcn) Hsome]].
              ** left. unfold t1. rewrite lookup_insert_ne by exact Hne. exact H.
              ** right. split.
                 --- apply elem_of_cons in Hin as [->|Hin]; [congruence|]. eauto.
                 --- unfold t1. rewrite lookup_insert_ne by exact Hne. exact Hsome.
      * assert (Hok1 : pointerTargetsOk cus t).
        { intros cu w Hin. apply Hok. apply elem_of_cons; auto. }
        destruct (IH t Hap' Hok1) as (t' & Hrun & Hkeep & Hsame & Hnow).
        exists t'. unfold andThen; cbn [fst snd].
        split; [exact Hrun|]. split; [exact Hkeep|]. split.
        -- intros n Hn. apply Hsame. intros cu Hin. apply Hn. apply elem_of_cons; auto.
        -- intros n Hnp Hpre. apply Hnow.
           ++ intros cu Hin. apply Hnp. apply elem_of_cons; auto.
           ++ destruct Hpre as [H|[(cu & Hin & Hcb & Hcn) Hsome]]; [auto|].
              right. split; [|exact Hsome].
              apply elem_of_cons in Hin as [->|Hin]; [congruence|eauto].
    + (* no binding *)
      assert (Hok1 : pointerTargetsOk cus t).
      { intros cu w Hin. apply Hok. apply elem_of_cons; auto. }
      destruct (IH t Hap' Hok1) as (t' & Hrun & Hkeep & Hsame & Hnow).
      exists t'. unfold andThen; cbn [fst snd].
      split; [exact Hrun|]. split; [exact Hkeep|]. split.
      * intros n Hn. apply Hsame. intros cu Hin. apply Hn. apply elem_of_cons; auto.
      * intros n Hnp Hpre. apply Hnow.
        -- intros cu Hin. apply Hnp. apply elem_of_cons; auto.
        -- destruct Hpre as [H|[(cu & Hin & Hcb & Hcn) Hsome]]; [auto|].
           right. split; [|exact Hsome].
           apply elem_of_cons in Hin as [->|Hin]; [congruence|eauto].
Qed.

End Bindings.

(** Neither phase of a frame removes an entry, however it completes. *)
Lemma onEntry_keeps name f t n :
  is_Some (t !! n) -> is_Some ((onEntry name f t).2 !! n).
Proof.
  intros H. unfold onEntry. destruct (t !! name) as [v|]; [|exact H].
  destruct (f v) as [c v']. cbn. rewrite lookup_insert. case_decide; [eauto|exact H].
Qed.

Lemma andThen_keeps (r : Completion * Table) k (t0 : Table) n :
  (is_Some (t0 !! n) -> is_Some (r.2 !! n)) ->
  (forall t, is_Some (t !! n) -> is_Some ((k t).2 !! n)) ->
  is_Some (t0 !! n) -> is_Some ((andThen r k).2 !! n).
Proof.
  intros Hr Hk H. unfold andThen. destruct r as [[] t1]; cbn in *; auto.
Qed.

Lemma updateBindings_keeps state cus : forall t n,
  is_Some (t !! n) -> is_Some ((updateBindings state cus t).2 !! n).
Proof.
  induction cus as [|c cus IH]; intros t n H; [exact H|].
  cbn [updateBindings]. apply (andThen_keeps _ _ t); [|intros t'; apply IH|exact H].
  clear IH. intros Hn. unfold updateBinding.
  destruct (cu_binding c) as [[]|]; [| |exact Hn].
  - destruct (t !! cu_name c); [|exact Hn]. cbn.
    rewrite lookup_insert. case_decide; [eauto|exact Hn].
  - destruct (t !! cu_name c) as [v|]; [|exact Hn].
    destruct (setXY _ _ v) as [c' v']. cbn.
    rewrite lookup_insert. case_decide; [eauto|exact Hn].
Qed.

Lemma useFrame_keeps state cus t n :
  is_Some (t !! n) -> is_Some ((useFrame state cus t).2 !! n).
Proof.
  intros H. unfold useFrame.
  apply (andThen_keeps _ _ t); [|intros t'; apply updateBindings_keeps|exact H].
  unfold updateBuiltins.
  apply (andThen_keeps _ _ t); [apply onEntry_keeps|].
  intros t1. apply (andThen_keeps _ _ t1); [apply onEntry_keeps|].
  intros t2. apply (andThen_keeps _ _ t2); [apply onEntry_keeps|].
  intros t3. apply onEntry_keeps.
Qed.

Lemma boundTo_true b cu : boundTo b cu = true <-> cu_binding cu = Some b.
Proof. unfold boundTo. apply bool_decide_eq_true. Qed.

(** What the boolean check on the pointer-bound declarations gives. *)
Lemma pointerBindingsSafe_spec cus t :
  pointerBindingsSafe cus t = true ->
  bindingsApart cus /\ pointerTargetsOk cus t
  /\ (forall cu, cu ∈ cus -> cu_binding cu = Some MOUSE -> cu_name cu <> "u_time").
Proof.
  unfold pointerBindingsSafe. rewrite forallb_forall. intros H.
  assert (Hm : forall cu, cu ∈ cus -> cu_binding cu = Some MOUSE ->
            cu_name cu <> "u_time"
            /\ (forall cu', cu' ∈ cus -> cu_binding cu' = Some TIME -> cu_name cu' <> cu_name cu)
            /\ (forall v, t !! cu_name cu = Some v -> isObject v = true)).
  { intros cu Hin Hb. specialize (H cu (proj1 (list_elem_of_In _ _) Hin)).
    apply boundTo_true in Hb. rewrite Hb in H. cbn in H.
    apply andb_prop in H as [H Hobj]. apply andb_prop in H as [Hname Hall].
    split; [|split].
    - apply negb_true_iff, bool_decide_eq_false in Hname. exact Hname.
    - rewrite forallb_forall in Hall. intros cu' Hin' Hb'.
      specialize (Hall cu' (proj1 (list_elem_of_In _ _) Hin')).
      apply boundTo_true in Hb'. rewrite Hb' in Hall. cbn in Hall.
      apply negb_true_iff, bool_decide_eq_false in Hall. exact Hall.
    - intros v Hv. rewrite Hv in Hobj. exact Hobj. }
  split; [|split].
  - intros cu cu' Hin Hin' Hb Hb'. apply (Hm cu' Hin' Hb'); assumption.
  - intros cu v Hin Hb Hv. apply (Hm cu Hin Hb). exact Hv.
  - intros cu Hin Hb. apply (Hm cu Hin Hb).
Qed.

Lemma builtinsAfter_objects state t n v :
  n <> "u_time" -> builtinsAfter state t !! n = Some v ->
  isObject v = true \/ t !! n = Some v.
Proof.
  intros Hn. unfold builtinsAfter.
  repeat (rewrite lookup_insert; case_decide;
          [intros [= <-]; subst; first [congruence | left; reflexivity]|]).
  auto.
Qed.

(** A frame on an intact table whose pointer-bound declarations are safe
    runs to its end; what it leaves is described by [updateBindings_run]. *)
Lemma useFrame_run state cus t :
  builtinsIntact t = true -> pointerBindingsSafe cus t = true ->
  exists t',
    useFrame state cus t = (Normal, t')
    /\ (forall n, (forall cu, cu ∈ cus -> cu_binding cu <> None -> cu_name cu <> n) ->
                   t' !! n = builtinsAfter state t !! n)
    /\ (forall cu, cu ∈ cus -> cu_binding cu = Some TIME -> is_Some (t !! cu_name cu) ->
                    t' !! cu_name cu = Some (JNumber (clock_elapsedTime state))).
Proof.
  intros Hint Hsafe.
  destruct (pointerBindingsSafe_spec _ _ Hsafe) as (Hap & Hok & Hnt).
  assert (Hok1 : pointerTargetsOk cus (builtinsAfter state t)).
  { intros cu v Hin Hb Hv.
    destruct (builtinsAfter_objects state t _ v (Hnt cu Hin Hb) Hv) as [H|H]; [exact H|].
    exact (Hok cu v Hin Hb H). }
  destruct (updateBindings_run state cus _ Hap Hok1) as (t' & Hrun & Hkeep & Hsame & Hnow).
  exists t'. unfold useFrame. rewrite (updateBuiltins_intact _ _ Hint).
  unfold andThen; cbn [fst snd]. split; [exact Hrun|]. split; [exact Hsame|].
  intros cu Hin Hb Hsome. apply Hnow.
  - intros cu' Hin' Hb' E. exact (Hap cu cu' Hin Hin' Hb Hb' (eq_sym E)).
  - right. split; [eauto|]. apply builtinsAfter_keeps, Hsome.
Qed.



(** Every declared name has an entry after the pass. *)
Lemma syncCustomUniforms_declared cus m cu :
  cu ∈ cus -> is_Some (uniforms (syncCustomUniforms cus m) !! cu_name cu).
Proof.
  revert m. induction cus as [|c cus IH]; intros m Hin; [inversion Hin|].
  apply elem_of_cons in Hin as [->|Hin]; cbn.
  - apply (syncCustomUniforms_keeps cus). rewrite syncCustomUniform_lookup. eauto.
  - apply IH, Hin.
Qed.

(** Reconciliation followed by a frame, run twice from the same material
    with declarations that differ in their manual values only: the entries of
    the time-bound declarations agree, and hold the elapsed time. *)
Lemma time_binding_ignores_manual_value state cus1 cus2 m cu :
  nameAndBinding <$> cus1 = nameAndBinding <$> cus2 ->
  let t1 := uniforms (syncCustomUniforms cus1 m) in
  let t2 := uniforms (syncCustomUniforms cus2 m) in
  builtinsIntact t1 = true -> pointerBindingsSafe cus1 t1 = true ->
  builtinsIntact t2 = true -> pointerBindingsSafe cus2 t2 = true ->
  cu ∈ cus1 -> cu_binding cu = Some TIME ->
  (useFrame state cus1 t1).2 !! cu_name cu = Some (JNumber (clock_elapsedTime state))
  /\ (useFrame state cus2 t2).2 !! cu_name cu = Some (JNumber (clock_elapsedTime state)).
Proof.
  intros Hext t1 t2 Hi1 Hs1 Hi2 Hs2 Hin Hb.
  destruct (useFrame_run state cus1 t1 Hi1 Hs1) as (t1' & Hrun1 & _ & Hnow1).
  destruct (useFrame_run state cus2 t2 Hi2 Hs2) as (t2' & Hrun2 & _ & Hnow2).
  rewrite Hrun1, Hrun2. cbn [snd]. split.
  - apply Hnow1; [exact Hin|exact Hb|]. apply syncCustomUniforms_declared, Hin.
  - assert (Hin' : nameAndBinding cu ∈ nameAndBinding <$> cus2).
    { rewrite <- Hext. apply list_elem_of_fmap. eauto. }
    apply list_elem_of_fmap in Hin' as (cu' & Hnb & Hin').
    unfold nameAndBinding in Hnb. injection Hnb as Hn Hb'.
    rewrite Hn. apply Hnow2; [exact Hin'|congruence|].
    apply syncCustomUniforms_declared, Hin'.
Qed.

(** A control named like a built-in entry replaces that entry's value with
    its own; here a number takes the place of the [u_resolution] vector, and
    the next frame stops at that entry, before any binding is updated. *)
Example frame_stops_at_clobbered_builtin :
  let cus := [clobber; timer (7 # 10)] in
  let t := uniforms (syncCustomUniforms cus (freshView initialUniforms)) in
  builtinsIntact t = false
  /\ (useFrame sampleState cus t).1 = TypeError
  /\ (useFrame sampleState cus t).2 !! "u_timer_1" = Some (JNumber (7 # 10)).
Proof. vm_compute. repeat split. Qed.



Lemma wrapTexture_needsUpdate cu m :
  needsUpdate m = true -> needsUpdate (wrapTexture cu m) = true.
Proof.
  intros H. unfold wrapTexture. destruct (cu_type cu); try exact H.
  destruct (uniforms m !! cu_name cu) as [[]|]; try exact H.
  destruct (bool_decide _ || bool_decide _); [reflexivity|exact H].
Qed.




(** ** Light slots *)

Section LightFacts.
Variable threeColor : string -> Q * Q * Q.

(** The pass on three arrays of four slots. *)
Lemma syncLights_slots lights s :
  fourSlots s ->
  exists s',
    syncLights threeColor lights s = (Normal, s')
    /\ fourSlots s'
    /\ (forall i light, i < 4 -> lights !! i = Some light ->
          lightPositions s' !! i = Some (l_position light)
          /\ lightColors s' !! i = Some (threeColor (l_color light))
          /\ lightIntensities s' !! i = Some (l_intensity light))
    /\ (forall i, length lights <= i < 4 ->
          lightIntensities s' !! i = Some 0%Q
          /\ lightPositions s' !! i = lightPositions s !! i
          /\ lightColors s' !! i = lightColors s !! i).
Proof.
  destruct s as [ps cs ints]. unfold fourSlots. cbn [lightPositions lightColors lightIntensities].
  intros (Hp & Hc & Hi).
  destruct ps as [|p0 [|p1 [|p2 [|p3 [|? ?]]]]]; try discriminate Hp.
  destruct cs as [|c0 [|c1 [|c2 [|c3 [|? ?]]]]]; try discriminate Hc.
  destruct ints as [|i0 [|i1 [|i2 [|i3 [|? ?]]]]]; try discriminate Hi.
  destruct lights as [|l0 [|l1 [|l2 [|l3 rest]]]];
    (match goal with
     | |- exists s', ?run = _ /\ _ =>
         let r := eval cbv [syncLights writeLights resetIntensities take foldl seq assign
                            lookup list_lookup insert list_insert app
                            lightPositions lightColors lightIntensities] in run in
         change run with r
     end;
     eexists; split; [reflexivity|]; split; [repeat split|]; split;
     [ intros i light Hlt Hl;
       destruct i as [|[|[|[|i]]]]; try lia; cbn in Hl; try discriminate Hl;
       injection Hl as <-; repeat split
     | intros i [Hge Hlt]; cbn [length] in Hge;
       destruct i as [|[|[|[|i]]]]; try lia; repeat split ]).
Qed.



End LightFacts.


(** ** Replacing the program *)








(** ** The built-in uniforms *)








(** ** Further properties of the reconciliation pass *)









(** X11.  With pairwise distinct names the order of the declarations does
    not matter: two lists that are permutations of each other leave the same
    table. *)
Theorem pass_order_irrelevant (cus cus' : list CustomUniform) (m : MaterialView) :
  NoDup (cu_name <$> cus) -> cus ≡ₚ cus' ->
  uniforms (syncCustomUniforms cus m) = uniforms (syncCustomUniforms cus' m).
Proof.
  intros Hnd Hp.
  assert (Hnd' : NoDup (cu_name <$> cus')) by (rewrite <- Hp; exact Hnd).
  apply map_eq. intros n.
  destruct (decide (n ∈ cu_name <$> cus)) as [Hin|Hout].
  - apply list_elem_of_fmap in Hin as (cu & -> & Hin).
    rewrite (syncCustomUniforms_lookup _ _ _ Hnd Hin).
    rewrite (syncCustomUniforms_lookup _ _ _ Hnd'); [reflexivity|].
    rewrite <- Hp. exact Hin.
  - rewrite (syncCustomUniforms_other _ _ _ Hout).
    rewrite syncCustomUniforms_other; [reflexivity|]. rewrite <- Hp. exact Hout.
Qed.

Lemma pass_order_irrelevant_witness :
  uniforms (syncCustomUniforms [knob; timer 3] (freshView initialUniforms))
  = uniforms (syncCustomUniforms [timer 3; knob] (freshView initialUniforms)).
Proof.
  apply pass_order_irrelevant.
  - cbn. apply NoDup_cons. split.
    + rewrite not_elem_of_cons. split; [discriminate|apply not_elem_of_nil].
    + apply NoDup_singleton.
  - apply perm_swap.
Defined.

Lemma writeValue_needsUpdate cu m :
  needsUpdate m = true -> needsUpdate (writeValue cu m) = true.
Proof.
  intros H. unfold writeValue. destruct (uniforms m !! cu_name cu); [|reflexivity].
  destruct (cu_binding cu); exact H.
Qed.

Lemma syncCustomUniforms_needsUpdate cus : forall m,
  needsUpdate m = true -> needsUpdate (syncCustomUniforms cus m) = true.
Proof.
  induction cus as [|c cus IH]; intros m H; [exact H|].
  cbn. apply IH. unfold syncCustomUniform.
  apply wrapTexture_needsUpdate, writeValue_needsUpdate, H.
Qed.

Lemma sampler_step m cu url :
  cu_type cu = SAMPLER_2D -> cu_value cu = RString url -> cu_binding cu = None ->
  valueAfter m cu = JTexture (wrappedTexture url (cu_wrap cu))
  /\ (getWrapMode (cu_wrap cu) <> ClampToEdgeWrapping ->
      needsUpdate (syncCustomUniform m cu) = true).
Proof.
  intros Ht Hv Hb.
  assert (Hinit : initialValue cu = JTexture (load url)).
  { unfold initialValue. rewrite Ht, Hv. reflexivity. }
  split.
  - unfold valueAfter. rewrite Hb.
    assert (E : match uniforms m !! cu_name cu with
                | Some _ | _ => initialValue cu
                end = initialValue cu) by (destruct (uniforms m !! cu_name cu); reflexivity).
    rewrite E, Hinit. unfold rewrap, wrappedTexture. rewrite Ht. cbn [load wrapS wrapT tex_url].
    destruct (getWrapMode (cu_wrap cu)); reflexivity.
  - intros Hmode. unfold syncCustomUniform.
    assert (Hw : uniforms (writeValue cu m) !! cu_name cu = Some (JTexture (load url))).
    { unfold writeValue. rewrite Hb, Hinit.
      destruct (uniforms m !! cu_name cu); cbn; apply lookup_insert_eq. }
    unfold wrapTexture. rewrite Ht, Hw. cbn [load wrapS wrapT].
    destruct (getWrapMode (cu_wrap cu)); first [reflexivity | congruence].
Qed.

(** X12.  A sampler declaration with a URL and no binding gets a freshly
    loaded texture in every pass, with both wraps set to the declared mode
    ([REPEAT] when none is declared).  The fresh texture starts clamped, so
    whenever the mode is not [CLAMP] the wrap step changes it and flags the
    material for recompilation: with such a declaration every pass leaves
    [needsUpdate] set. *)
Theorem sampler_rewrapped_every_pass (cus : list CustomUniform) (m : MaterialView)
  (cu : CustomUniform) (url : string) :
  cu ∈ cus ->
  cu_type cu = SAMPLER_2D -> cu_value cu = RString url -> cu_binding cu = None ->
  (NoDup (cu_name <$> cus) ->
   uniforms (syncCustomUniforms cus m) !! cu_name cu
   = Some (JTexture (wrappedTexture url (cu_wrap cu))))
  /\ (getWrapMode (cu_wrap cu) <> ClampToEdgeWrapping ->
      needsUpdate (syncCustomUniforms cus m) = true).
Proof.
  intros Hin Ht Hv Hb. split.
  - intros Hnd. rewrite (syncCustomUniforms_lookup _ _ _ Hnd Hin).
    rewrite (proj1 (sampler_step m cu url Ht Hv Hb)). reflexivity.
  - intros Hmode. apply list_elem_of_split in Hin as (l1 & l2 & ->).
    unfold syncCustomUniforms. rewrite foldl_app. cbn [foldl].
    apply (syncCustomUniforms_needsUpdate l2).
    apply (sampler_step _ cu url Ht Hv Hb), Hmode.
Qed.

Lemma sampler_rewrapped_every_pass_witness :
  let m := syncCustomUniforms [noiseSampler] (freshView initialUniforms) in
  uniforms (syncCustomUniforms [noiseSampler] (markNeedsUpdate m)) !! "u_texture"
  = Some (JTexture (wrappedTexture "data:image/png;base64,AAAA" (Some REPEAT)))
  /\ needsUpdate
       (syncCustomUniforms [noiseSampler]
          {| uniforms := uniforms m; needsUpdate := false; uniformsNeedUpdate := true |})
     = true.
Proof.
  intros m.
  assert (Hin : noiseSampler ∈ [noiseSampler]) by (apply list_elem_of_singleton; reflexivity).
  split.
  - exact (proj1 (sampler_rewrapped_every_pass [noiseSampler] (markNeedsUpdate m) noiseSampler _
                    Hin eq_refl eq_refl eq_refl) (NoDup_singleton _)).
  - refine (proj2 (sampler_rewrapped_every_pass [noiseSampler] _ noiseSampler _
                     Hin eq_refl eq_refl eq_refl) _).
    discriminate.
Defined.

(** ** Further properties of the render loop *)

Lemma onEntry_other name f t n : n <> name -> (onEntry name f t).2 !! n = t !! n.
Proof.
  intros Hn. unfold onEntry. destruct (t !! name) as [v|]; [|reflexivity].
  destruct (f v) as [c v']. cbn. apply lookup_insert_ne. congruence.
Qed.

Lemma andThen_other (r : Completion * Table) k (t0 : Table) n :
  r.2 !! n = t0 !! n -> (forall t, (k t).2 !! n = t !! n) -> (andThen r k).2 !! n = t0 !! n.
Proof.
  intros Hr Hk. unfold andThen. destruct r as [[] t1]; cbn in *; try exact Hr.
  rewrite Hk. exact Hr.
Qed.

Lemma updateBindings_other state cus : forall t n,
  (forall cu, cu ∈ cus -> cu_binding cu <> None -> cu_name cu <> n) ->
  (updateBindings state cus t).2 !! n = t !! n.
Proof.
  induction cus as [|c cus IH]; intros t n Hn; [reflexivity|].
  cbn [updateBindings]. apply andThen_other.
  - unfold updateBinding. destruct (cu_binding c) as [b|] eqn:Hb; [|reflexivity].
    assert (Hne : cu_name c <> n).
    { apply Hn; [apply elem_of_cons; auto|congruence]. }
    destruct (t !! cu_name c) as [v|]; [|reflexivity].
    destruct b.
    + cbn. apply lookup_insert_ne, Hne.
    + destruct (setXY _ _ v) as [c' v']. cbn. apply lookup_insert_ne, Hne.
  - intros t'. apply IH. intros cu Hin. apply Hn. apply elem_of_cons; auto.
Qed.

Lemma useFrame_other state cus t n :
  n ∉ builtinNames ->
  (forall cu, cu ∈ cus -> cu_binding cu <> None -> cu_name cu <> n) ->
  (useFrame state cus t).2 !! n = t !! n.
Proof.
  unfold builtinNames. rewrite !not_elem_of_cons. intros (H1 & H2 & H3 & H4 & _) Hn.
  unfold useFrame. apply andThen_other; [|intros t'; apply updateBindings_other, Hn].
  unfold updateBuiltins.
  apply andThen_other; [apply onEntry_other, H1|]. intros t1.
  apply andThen_other; [apply onEntry_other, H2|]. intros t2.
  apply andThen_other; [apply onEntry_other, H3|]. intros t3.
  apply onEntry_other, H4.
Qed.

(** X13.  A frame writes under the four built-in names and under the names
    of declarations that carry a binding, and nowhere else: however the frame
    completes, any other entry (a manual control, a light array, a stale
    entry) holds afterwards what it held before.  A frame removes no entry. *)
Theorem frame_touches_bound_names (state : RootState) (cus : list CustomUniform)
  (t : Table) (n : string) :
  (n ∉ builtinNames ->
   (forall cu, cu ∈ cus -> cu_binding cu <> None -> cu_name cu <> n) ->
   (useFrame state cus t).2 !! n = t !! n)
  /\ (is_Some (t !! n) -> is_Some ((useFrame state cus t).2 !! n)).
Proof.
  split; [apply useFrame_other|apply useFrame_keeps].
Qed.

Lemma frame_touches_bound_names_witness :
  let t := uniforms (syncCustomUniforms [knob; timer 3] (freshView initialUniforms)) in
  (useFrame sampleState [knob; timer 3] t).2 !! "u_custom_1" = Some (JNumber (1 # 2)).
Proof.
  intros t.
  refine (eq_trans (proj1 (frame_touches_bound_names sampleState [knob; timer 3] t
                             "u_custom_1") _ _) eq_refl).
  - unfold builtinNames. rewrite !not_elem_of_cons.
    repeat split; try discriminate. apply not_elem_of_nil.
  - intros cu Hin Hb. rewrite !elem_of_cons, elem_of_nil in Hin.
    destruct Hin as [->|[->|[]]]; [contradiction Hb; reflexivity|discriminate].
Defined.

Section Pointer.
Variable state : RootState.
Let here : JSValue :=
  JVector2 (normalized (pointer state).1) (normalized (pointer state).2).

Lemma updateBindings_pointer cus : forall t t' n x y,
  updateBindings state cus t = (Normal, t') ->
  (forall cu, cu ∈ cus -> cu_binding cu = Some TIME -> cu_name cu <> n) ->
  t !! n = Some (JVector2 x y) ->
  (exists cu, cu ∈ cus /\ cu_binding cu = Some MOUSE /\ cu_name cu = n)
  \/ JVector2 x y = here ->
  t' !! n = Some here.
Proof.
  induction cus as [|c cus IH]; intros t t' n x y Hrun Htime Hn Hpre.
  - injection Hrun as <-. destruct Hpre as [(cu & Hin & _)|E]; [inversion Hin|].
    rewrite Hn, E. reflexivity.
  - cbn [updateBindings] in Hrun. unfold andThen in Hrun.
    destruct (updateBinding state c t) as [c1 t1] eqn:Hstep. cbn [fst snd] in Hrun.
    destruct c1; try discriminate Hrun.
    assert (Htime' : forall cu, cu ∈ cus -> cu_binding cu = Some TIME -> cu_name cu <> n).
    { intros cu Hin. apply Htime. apply elem_of_cons; auto. }
    unfold updateBinding in Hstep.
    destruct (cu_binding c) as [[]|] eqn:Hb.
    + assert (Hne : cu_name c <> n) by (apply Htime; [apply elem_of_cons; auto|exact Hb]).
      assert (Hn1 : t1 !! n = Some (JVector2 x y)).
      { destruct (t !! cu_name c); injection Hstep as <-; [|exact Hn].
        rewrite lookup_insert_ne by exact Hne. exact Hn. }
      apply (IH t1 t' n x y Hrun Htime' Hn1).
      destruct Hpre as [(cu & Hin & Hcb & Hcn)|E]; [|right; exact E].
      left. apply elem_of_cons in Hin as [->|Hin]; [congruence|eauto].
    + destruct (decide (cu_name c = n)) as [E|Hne].
      * rewrite E, Hn in Hstep. cbn [setXY] in Hstep. injection Hstep as <-.
        apply (IH _ t' n _ _ Hrun Htime' (lookup_insert_eq _ _ _)). right. reflexivity.
      * assert (Hn1 : t1 !! n = Some (JVector2 x y)).
        { destruct (t !! cu_name c) as [v|]; [|injection Hstep as <-; exact Hn].
          destruct (setXY _ _ v) as [c' v']. injection Hstep as _ <-.
          rewrite lookup_insert_ne by exact Hne. exact Hn. }
        apply (IH t1 t' n x y Hrun Htime' Hn1).
        destruct Hpre as [(cu & Hin & Hcb & Hcn)|E]; [|right; exact E].
        left. apply elem_of_cons in Hin as [->|Hin]; [congruence|eauto].
    + injection Hstep as <-.
      apply (IH t t' n x y Hrun Htime' Hn).
      destruct Hpre as [(cu & Hin & Hcb & Hcn)|E]; [|right; exact E].
      left. apply elem_of_cons in Hin as [->|Hin]; [congruence|eauto].
Qed.

End Pointer.

(** X14.  The pointer binding: on a table whose built-in entries are intact
    and whose pointer-bound declarations are safe, a frame completes, and the
    entry of every pointer-bound declaration that holds a two-component
    vector holds afterwards [((pointer.x + 1) / 2, (pointer.y + 1) / 2)], the
    same point as [u_mouse], whatever the vector was before. *)
Theorem pointer_binding_tracks_pointer (state : RootState) (cus : list CustomUniform)
  (t : Table) (cu : CustomUniform) (a b : Q) :
  builtinsIntact t = true ->
  pointerBindingsSafe cus t = true ->
  cu ∈ cus -> cu_binding cu = Some MOUSE ->
  t !! cu_name cu = Some (JVector2 a b) ->
  exists t',
    useFrame state cus t = (Normal, t')
    /\ t' !! cu_name cu
       = Some (JVector2 (normalized (pointer state).1) (normalized (pointer state).2)).
Proof.
  intros Hint Hsafe Hin Hb Hentry.
  destruct (useFrame_run state cus t Hint Hsafe) as (t' & Hrun & _ & _).
  destruct (pointerBindingsSafe_spec _ _ Hsafe) as (Hap & _ & Hnt).
  exists t'. split; [exact Hrun|].
  unfold useFrame in Hrun. rewrite (updateBuiltins_intact _ _ Hint) in Hrun.
  unfold andThen in Hrun; cbn [fst snd] in Hrun.
  assert (Hafter : exists x y, builtinsAfter state t !! cu_name cu = Some (JVector2 x y)).
  { unfold builtinsAfter. unfold builtinsIntact in Hint.
    destruct (decide (cu_name cu = "u_cameraPosition")) as [E|N1].
    { exfalso. rewrite E in Hentry. rewrite Hentry in Hint.
      destruct (t !! "u_time"), (t !! "u_mouse") as [[]|], (t !! "u_resolution") as [[]|];
        discriminate Hint. }
    rewrite lookup_insert_ne by congruence.
    destruct (decide (cu_name cu = "u_resolution")) as [E|N2].
    { rewrite E, lookup_insert_eq. eauto. }
    rewrite lookup_insert_ne by congruence.
    destruct (decide (cu_name cu = "u_mouse")) as [E|N3].
    { rewrite E, lookup_insert_eq. eauto. }
    rewrite lookup_insert_ne by congruence.
    rewrite lookup_insert_ne by (intros E; exact (Hnt cu Hin Hb (eq_sym E))).
    eauto. }
  destruct Hafter as (x & y & Hafter).
  apply (updateBindings_pointer state cus _ t' _ x y Hrun).
  - intros cu' Hin' Hb' E. exact (Hap cu' cu Hin' Hin Hb' Hb E).
  - exact Hafter.
  - left. eauto.
Qed.

Lemma pointer_binding_tracks_pointer_witness :
  let t := uniforms (syncCustomUniforms [mousePad] (freshView initialUniforms)) in
  exists t',
    useFrame topEdgeState [mousePad] t = (Normal, t')
    /\ t' !! "u_mouse_pos_1"
       = Some (JVector2 (normalized (pointer topEdgeState).1)
                        (normalized (pointer topEdgeState).2)).
Proof.
  intros t.
  refine (pointer_binding_tracks_pointer topEdgeState [mousePad] t mousePad (1 # 2) (1 # 2)
            eq_refl eq_refl _ eq_refl eq_refl).
  apply list_elem_of_singleton. reflexivity.
Defined.

(** ** The table over the life of the mesh *)






End UniformsFacts.

(** * Properties of the light list *)

Module ControlsFacts.
Import Uniforms Controls.

Lemma addLight_full id lights : 4 <= length lights -> addLight id lights = lights.
Proof. intros H. unfold addLight. rewrite decide_True by exact H. reflexivity. Qed.

Lemma addLight_length id lights :
  length (addLight id lights) = if decide (4 <= length lights) then length lights
                                else S (length lights).
Proof.
  unfold addLight. destruct (decide (4 <= length lights)); [reflexivity|].
  rewrite length_app. cbn. lia.
Qed.

Lemma removeLight_length id lights : length (removeLight id lights) <= length lights.
Proof. unfold removeLight. apply List.filter_length_le. Qed.

Lemma updateLight_length id field lights :
  length (updateLight id field lights) = length lights.
Proof. unfold updateLight. apply length_fmap. Qed.

Lemma updateLightPos_length id index val lights :
  length (updateLightPos id index val lights) = length lights.
Proof.
  unfold updateLightPos. destruct (List.find _ lights); [|reflexivity].
  apply updateLight_length.
Qed.

Lemma applyOp_bounded lights op : length lights <= 4 -> length (applyOp lights op) <= 4.
Proof.
  intros H. destruct op as [id|id|id field|id index val]; cbn.
  - rewrite addLight_length. destruct (decide (4 <= length lights)); lia.
  - pose proof (removeLight_length id lights). lia.
  - rewrite updateLight_length. exact H.
  - rewrite updateLightPos_length. exact H.
Qed.

(** C10.  [addLight] leaves a list of four or more lights as it is;
    [removeLight] and [updateLight] (and [updateLightPos]) never lengthen the
    list; so from a list of at most four lights every list reached by these
    operations has at most four. *)
Theorem light_list_bounded (lights : list Light) (ops : list LightOp) :
  length lights <= 4 ->
  length (applyOps ops lights) <= 4
  /\ (forall id l, 4 <= length l -> addLight id l = l)
  /\ (forall id l, length (removeLight id l) <= length l)
  /\ (forall id field l, length (updateLight id field l) = length l)
  /\ (forall id index val l, length (updateLightPos id index val l) = length l).
Proof.
  intros H. split.
  - revert lights H. induction ops as [|op ops IH]; intros lights H; [exact H|].
    cbn. apply IH, applyOp_bounded, H.
  - split; [exact addLight_full|]. split; [exact removeLight_length|].
    split; [exact updateLight_length|exact updateLightPos_length].
Qed.

Lemma light_list_bounded_witness :
  length initialLights <= 4
  /\ length (applyOps [AddLight "a"; AddLight "b"; AddLight "c"; AddLight "d";
                       UpdateLight "a" (set_intensity 3); AddLight "e"; RemoveLight "l1";
                       AddLight "f"; AddLight "g"] initialLights) <= 4.
Proof.
  assert (H : length initialLights <= 4) by (cbn; lia).
  split; [exact H|].
  exact (proj1 (light_list_bounded initialLights _ H)).
Defined.

Example add_four_then_more :
  l_id <$> applyOps [AddLight "a"; AddLight "b"; AddLight "c"; AddLight "d"; AddLight "e"]
                    initialLights
  = ["l1"; "a"; "b"; "c"].
Proof. reflexivity. Qed.

(** ** The light list and the light slots *)

Lemma applyOps_bounded ops : forall lights,
  length lights <= 4 -> length (applyOps ops lights) <= 4.
Proof.
  induction ops as [|op ops IH]; intros lights H; [exact H|].
  cbn. apply IH, applyOp_bounded, H.
Qed.

(** X16.  The panel and the light pass together: whatever the user does to
    the light list, starting from a list of at most four lights, the pass on
    a table with four-slot light arrays completes and puts every light of the
    list in the slot of its index (none is dropped), and every slot beyond
    the list has intensity 0. *)
Theorem panel_lights_fill_slots (threeColor : string -> Q * Q * Q)
  (ops : list LightOp) (start : list Light) (s : LightSlots) :
  length start <= 4 -> fourSlots s ->
  let lights := applyOps ops start in
  exists s',
    syncLights threeColor lights s = (Normal, s')
    /\ fourSlots s'
    /\ (forall i light, lights !! i = Some light ->
          lightPositions s' !! i = Some (l_position light)
          /\ lightColors s' !! i = Some (threeColor (l_color light))
          /\ lightIntensities s' !! i = Some (l_intensity light))
    /\ (forall i, length lights <= i < 4 -> lightIntensities s' !! i = Some 0%Q).
Proof.
  intros Hlen Hs lights.
  pose proof (applyOps_bounded ops start Hlen) as Hb. fold lights in Hb.
  destruct (UniformsFacts.syncLights_slots threeColor lights s Hs)
    as (s' & Hrun & Hs' & Hused & Hfree).
  exists s'. split; [exact Hrun|]. split; [exact Hs'|]. split.
  - intros i light Hl. apply Hused; [|exact Hl].
    apply lookup_lt_Some in Hl. lia.
  - intros i Hi. apply Hfree, Hi.
Qed.

Lemma panel_lights_fill_slots_witness :
  let lights := applyOps [AddLight "a"; AddLight "b"; RemoveLight "l1"; AddLight "c";
                          AddLight "d"; AddLight "e"; UpdateLight "b" (set_intensity 3)]
                         initialLights in
  exists s',
    syncLights gray lights
      {| lightPositions := [zero3; zero3; zero3; zero3];
         lightColors := [zero3; zero3; zero3; zero3];
         lightIntensities := [0; 0; 0; 0]%Q |} = (Normal, s')
    /\ lightIntensities s' !! 1 = Some 3%Q.
Proof.
  intros lights.
  destruct (panel_lights_fill_slots gray
              [AddLight "a"; AddLight "b"; RemoveLight "l1"; AddLight "c";
               AddLight "d"; AddLight "e"; UpdateLight "b" (set_intensity 3)]
              initialLights
              {| lightPositions := [zero3; zero3; zero3; zero3];
                 lightColors := [zero3; zero3; zero3; zero3];
                 lightIntensities := [0; 0; 0; 0]%Q |})
    as (s' & Hrun & _ & Hused & _).
  - cbn. lia.
  - repeat split.
  - exists s'. split; [exact Hrun|].
    exact (proj2 (proj2 (Hused 1 _ eq_refl))).
Defined.

(** ** The uniform list *)

Lemma NoDup_fmap_eq {A B} (f : A -> B) (l : list A) x y :
  NoDup (f <$> l) -> x ∈ l -> y ∈ l -> f x = f y -> x = y.
Proof.
  induction l as [|a l IH]; intros Hnd Hx Hy E; [inversion Hx|].
  cbn in Hnd. apply NoDup_cons in Hnd as [Ha Hnd].
  apply elem_of_cons in Hx as [->|Hx]; apply elem_of_cons in Hy as [->|Hy].
  - reflexivity.
  - exfalso. apply Ha. rewrite E. apply list_elem_of_fmap. eauto.
  - exfalso. apply Ha. rewrite <- E. apply list_elem_of_fmap. eauto.
  - apply IH; assumption.
Qed.

Lemma syncCustomUniforms_snoc cus cu m :
  syncCustomUniforms (cus ++ [cu]) m = syncCustomUniform (syncCustomUniforms cus m) cu.
Proof. unfold syncCustomUniforms. rewrite foldl_app. reflexivity. Qed.

Lemma newUniform_shape id noise type binding cus :
  let new := newUniform id noise type binding cus in
  hasShape type (rewrap new (initialValue new)) = true.
Proof. destruct type; reflexivity. Qed.

(** X17.  [addUniform] appends one declaration of the requested type and
    binding and leaves the others as they are.  Its default value converts to
    a value of the announced GLSL type (a number, a vector of the right size,
    a matrix with all its elements, a texture).  When the generated name is
    new to the list and to the table, the next pass creates the entry with
    that value and flags the material. *)
Theorem added_uniform_well_typed (id noise : string) (type : UniformType)
  (binding : option Binding) (cus : list CustomUniform) (m : MaterialView) :
  let new := newUniform id noise type binding cus in
  let m' := syncCustomUniforms (addUniform id noise type binding cus) m in
  addUniform id noise type binding cus = cus ++ [new]
  /\ cu_id new = id /\ cu_type new = type /\ cu_binding new = binding
  /\ hasShape type (rewrap new (initialValue new)) = true
  /\ (cu_name new ∉ cu_name <$> cus -> uniforms m !! cu_name new = None ->
      uniforms m' !! cu_name new = Some (rewrap new (initialValue new))
      /\ needsUpdate m' = true).
Proof.
  intros new m'. split; [reflexivity|]. split; [reflexivity|]. split; [reflexivity|].
  split; [reflexivity|]. split; [apply newUniform_shape|].
  intros Hfresh Hnone. unfold m', addUniform. fold new. rewrite syncCustomUniforms_snoc.
  assert (Hn : uniforms (syncCustomUniforms cus m) !! cu_name new = None).
  { rewrite (UniformsFacts.syncCustomUniforms_other _ _ _ Hfresh). exact Hnone. }
  split.
  - rewrite UniformsFacts.syncCustomUniform_lookup. unfold valueAfter. rewrite Hn. reflexivity.
  - unfold syncCustomUniform. apply UniformsFacts.wrapTexture_needsUpdate.
    unfold writeValue. rewrite Hn. reflexivity.
Qed.

Lemma added_uniform_well_typed_witness :
  let m' := syncCustomUniforms (addUniform "x" "" MAT3 None []) (freshView initialUniforms) in
  uniforms m' !! "u_custom_1"
  = Some (JMatrix3 (Some <$> [1; 0; 0;  0; 1; 0;  0; 0; 1]%Q))
  /\ needsUpdate m' = true.
Proof.
  intros m'.
  refine (proj2 (proj2 (proj2 (proj2 (proj2
            (added_uniform_well_typed "x" "" MAT3 None [] (freshView initialUniforms))))))
            _ eq_refl).
  apply not_elem_of_nil.
Defined.

(** X18.  Generated names are not always new.  The name is made from the
    length of the list, so when the list already holds a declaration with the
    name that comes next (as after deleting an earlier control) the new
    declaration repeats that name.  Both controls then write the same entry,
    and after a pass the entry holds the value of the new one. *)
Theorem generated_name_collides (id noise : string) (type : UniformType)
  (binding : option Binding) (cus : list CustomUniform) (m : MaterialView) :
  type <> SAMPLER_2D ->
  namePrefix binding +:+ "_" +:+ pretty (length cus + 1) ∈ cu_name <$> cus ->
  let new := newUniform id noise type binding cus in
  ~ NoDup (cu_name <$> addUniform id noise type binding cus)
  /\ cu_name new ∈ cu_name <$> cus
  /\ (binding = None ->
      uniforms (syncCustomUniforms (addUniform id noise type binding cus) m) !! cu_name new
      = Some (initialValue new)).
Proof.
  intros Hty Hin new.
  assert (Hname : cu_name new = namePrefix binding +:+ "_" +:+ pretty (length cus + 1)).
  { unfold new, newUniform, newName. cbn [cu_name]. destruct type; try reflexivity.
    contradiction Hty; reflexivity. }
  split; [|split].
  - unfold addUniform. fold new. rewrite fmap_app. cbn [fmap list_fmap].
    intros Hnd. apply NoDup_app in Hnd as (_ & Hdisj & _).
    apply (Hdisj (cu_name new)); [rewrite Hname; exact Hin|].
    apply list_elem_of_singleton. reflexivity.
  - rewrite Hname. exact Hin.
  - intros ->. unfold addUniform. fold new. rewrite syncCustomUniforms_snoc.
    rewrite UniformsFacts.syncCustomUniform_lookup. unfold valueAfter.
    assert (E : cu_binding new = None) by reflexivity. rewrite E.
    assert (Ht : cu_type new <> SAMPLER_2D) by exact Hty.
    rewrite (UniformsFacts.rewrap_not_sampler _ _ Ht).
    destruct (uniforms _ !! cu_name new); reflexivity.
Qed.

Lemma generated_name_collides_witness :
  cu_name <$> afterDeletion = ["u_custom_2"]
  /\ ~ NoDup (cu_name <$> addUniform "c" "" FLOAT None afterDeletion)
  /\ cu_name <$> addUniform "c" "" FLOAT None afterDeletion = ["u_custom_2"; "u_custom_2"].
Proof.
  split; [vm_compute; reflexivity|]. split; [|vm_compute; reflexivity].
  refine (proj1 (generated_name_collides "c" "" FLOAT None afterDeletion
                   (freshView initialUniforms) _ _)).
  - discriminate.
  - apply list_elem_of_fmap. exists (newUniform "b" "" FLOAT None (addUniform "a" "" FLOAT None [])).
    split; [vm_compute; reflexivity|].
    apply list_elem_of_singleton. vm_compute. reflexivity.
Defined.

Lemma removeUniform_elem id cus u :
  u ∈ removeUniform id cus <-> u ∈ cus /\ cu_id u <> id.
Proof.
  unfold removeUniform. rewrite !list_elem_of_In, List.filter_In.
  rewrite negb_true_iff, bool_decide_eq_false. reflexivity.
Qed.

(** X19.  Deleting a control does not delete its entry.  With pairwise
    distinct names, after a pass has written the entry of a declaration and
    the declaration is then removed from the list, the next pass leaves that
    entry in the table, with the value it had; only the declarations that
    have another id remain in the list, in their order. *)
Theorem removed_uniform_entry_stays (cus : list CustomUniform) (cu : CustomUniform)
  (m : MaterialView) :
  NoDup (cu_name <$> cus) -> cu ∈ cus ->
  let m1 := syncCustomUniforms cus m in
  let m2 := syncCustomUniforms (removeUniform (cu_id cu) cus) m1 in
  (forall u, u ∈ removeUniform (cu_id cu) cus <-> u ∈ cus /\ cu_id u <> cu_id cu)
  /\ uniforms m1 !! cu_name cu = Some (valueAfter m cu)
  /\ uniforms m2 !! cu_name cu = Some (valueAfter m cu).
Proof.
  intros Hnd Hin m1 m2.
  split; [intros u; apply removeUniform_elem|].
  assert (H1 : uniforms m1 !! cu_name cu = Some (valueAfter m cu))
    by apply (UniformsFacts.syncCustomUniforms_lookup _ _ _ Hnd Hin).
  split; [exact H1|].
  unfold m2. rewrite UniformsFacts.syncCustomUniforms_other; [exact H1|].
  intros Hn. apply list_elem_of_fmap in Hn as (u & E & Hu).
  apply removeUniform_elem in Hu as [Hu Hid].
  apply Hid. f_equal. symmetry. exact (NoDup_fmap_eq cu_name cus cu u Hnd Hin Hu E).
Qed.

Lemma removed_uniform_entry_stays_witness :
  let m1 := syncCustomUniforms [knob; timer 3] (freshView initialUniforms) in
  uniforms (syncCustomUniforms (removeUniform "k1" [knob; timer 3]) m1) !! "u_custom_1"
  = Some (JNumber (1 # 2)).
Proof.
  intros m1.
  refine (proj2 (proj2 (removed_uniform_entry_stays [knob; timer 3] knob
                          (freshView initialUniforms) _ _))).
  - cbn. apply NoDup_cons. split.
    + rewrite not_elem_of_cons. split; [discriminate|apply not_elem_of_nil].
    + apply NoDup_singleton.
  - apply elem_of_cons. left. reflexivity.
Defined.

Lemma updateUniformName_elem id name cus u :
  u ∈ updateUniformName id name cus ->
  (u ∈ cus /\ cu_id u <> id) \/ (exists u0, u0 ∈ cus /\ cu_id u0 = id /\ u = withName u0 name).
Proof.
  unfold updateUniformName. intros H. apply list_elem_of_fmap in H as (u0 & -> & Hu0).
  destruct (bool_decide (cu_id u0 = id)) eqn:E.
  - right. apply bool_decide_eq_true in E. eauto.
  - left. apply bool_decide_eq_false in E. auto.
Qed.

(** X20.  Renaming a control leaves the entry of the old name behind.  With
    pairwise distinct names, after a pass has written the entry of a
    declaration and the declaration is renamed, the next pass makes an entry
    under the new name and leaves the entry under the old name in the table,
    with the value it had. *)
Theorem renamed_uniform_entry_stays (cus : list CustomUniform) (cu : CustomUniform)
  (name : string) (m : MaterialView) :
  NoDup (cu_name <$> cus) -> cu ∈ cus -> name <> cu_name cu ->
  let m1 := syncCustomUniforms cus m in
  let m2 := syncCustomUniforms (updateUniformName (cu_id cu) name cus) m1 in
  withName cu name ∈ updateUniformName (cu_id cu) name cus
  /\ is_Some (uniforms m2 !! name)
  /\ uniforms m2 !! cu_name cu = Some (valueAfter m cu).
Proof.
  intros Hnd Hin Hne m1 m2.
  assert (Hren : withName cu name ∈ updateUniformName (cu_id cu) name cus).
  { unfold updateUniformName. apply list_elem_of_fmap. exists cu. split; [|exact Hin].
    rewrite bool_decide_eq_true_2 by reflexivity. reflexivity. }
  split; [exact Hren|]. split.
  - exact (UniformsFacts.syncCustomUniforms_declared _ m1 _ Hren).
  - unfold m2. rewrite UniformsFacts.syncCustomUniforms_other.
    + apply (UniformsFacts.syncCustomUniforms_lookup _ _ _ Hnd Hin).
    + intros Hn. apply list_elem_of_fmap in Hn as (u & E & Hu).
      apply updateUniformName_elem in Hu as [[Hu Hid]|(u0 & Hu0 & Hid & ->)].
      * apply Hid. f_equal. symmetry. exact (NoDup_fmap_eq cu_name cus cu u Hnd Hin Hu E).
      * cbn in E. congruence.
Qed.

Lemma renamed_uniform_entry_stays_witness :
  let m1 := syncCustomUniforms [knob] (freshView initialUniforms) in
  let m2 := syncCustomUniforms (updateUniformName "k1" "u_speed" [knob]) m1 in
  is_Some (uniforms m2 !! "u_speed")
  /\ uniforms m2 !! "u_custom_1" = Some (JNumber (1 # 2)).
Proof.
  intros m1 m2.
  refine (proj2 (renamed_uniform_entry_stays [knob] knob "u_speed"
                   (freshView initialUniforms) (NoDup_singleton _) _ _)).
  - apply list_elem_of_singleton. reflexivity.
  - discriminate.
Defined.

Lemma updateUniformValue_names id v cus :
  cu_name <$> updateUniformValue id v cus = cu_name <$> cus.
Proof.
  unfold updateUniformValue. rewrite <- list_fmap_compose. apply list_fmap_ext.
  intros i u _. cbn. destruct (bool_decide (cu_id u = id)); reflexivity.
Qed.

Lemma updateUniformWrap_names id w cus :
  cu_name <$> updateUniformWrap id w cus = cu_name <$> cus.
Proof.
  unfold updateUniformWrap. rewrite <- list_fmap_compose. apply list_fmap_ext.
  intros i u _. cbn. destruct (bool_decide (cu_id u = id)); reflexivity.
Qed.

(** X21.  A value set in the panel reaches the table exactly when the
    declaration has no binding.  With pairwise distinct names, after
    [updateUniformValue] and a pass, the entry of a declaration without
    binding holds the new value, converted; the entry of a declaration with a
    binding that already had an entry keeps what it held.  The names of the
    list are not changed by the update. *)
Theorem edited_value_reaches_table (cus : list CustomUniform) (cu : CustomUniform)
  (v : RawValue) (m : MaterialView) :
  NoDup (cu_name <$> cus) -> cu ∈ cus ->
  let cus' := updateUniformValue (cu_id cu) v cus in
  let m' := syncCustomUniforms cus' m in
  cu_name <$> cus' = cu_name <$> cus
  /\ (cu_binding cu = None ->
      uniforms m' !! cu_name cu
      = Some (rewrap (withValue cu v) (initialValue (withValue cu v))))
  /\ (forall old, cu_binding cu <> None -> uniforms m !! cu_name cu = Some old ->
        uniforms m' !! cu_name cu = Some (rewrap cu old)).
Proof.
  intros Hnd Hin cus' m'.
  assert (Hnames : cu_name <$> cus' = cu_name <$> cus) by apply updateUniformValue_names.
  assert (Hin' : withValue cu v ∈ cus').
  { unfold cus', updateUniformValue. apply list_elem_of_fmap. exists cu. split; [|exact Hin].
    rewrite bool_decide_eq_true_2 by reflexivity. reflexivity. }
  assert (Hnd' : NoDup (cu_name <$> cus')) by (rewrite Hnames; exact Hnd).
  pose proof (UniformsFacts.syncCustomUniforms_lookup cus' m _ Hnd' Hin') as Hl.
  change (cu_name (withValue cu v)) with (cu_name cu) in Hl. fold m' in Hl.
  split; [exact Hnames|]. split.
  - intros Hb. rewrite Hl. unfold valueAfter.
    change (cu_binding (withValue cu v)) with (cu_binding cu). rewrite Hb.
    change (cu_name (withValue cu v)) with (cu_name cu).
    destruct (uniforms m !! cu_name cu); reflexivity.
  - intros old Hb Hold. rewrite Hl. unfold valueAfter.
    change (cu_binding (withValue cu v)) with (cu_binding cu).
    change (cu_name (withValue cu v)) with (cu_name cu). rewrite Hold.
    destruct (cu_binding cu); [reflexivity|contradiction Hb; reflexivity].
Qed.

Lemma edited_value_reaches_table_witness :
  uniforms (syncCustomUniforms (updateUniformValue "k1" (RNumber 2) [knob; timer 3])
              (freshView initialUniforms)) !! "u_custom_1"
  = Some (JNumber 2).
Proof.
  refine (proj1 (proj2 (edited_value_reaches_table [knob; timer 3] knob (RNumber 2)
                          (freshView initialUniforms) _ _)) eq_refl).
  - cbn. apply NoDup_cons. split.
    + rewrite not_elem_of_cons. split; [discriminate|apply not_elem_of_nil].
    + apply NoDup_singleton.
  - apply elem_of_cons. left. reflexivity.
Defined.

(** X22.  The wrap mode chosen in the panel reaches the texture.  With
    pairwise distinct names, after [updateUniformWrap] and a pass, the entry
    of a sampler declaration with a URL and no binding is a texture whose two
    wraps are the three.js constant of the chosen mode: [REPEAT] gives
    repeat, [CLAMP] clamp to edge, [MIRROR] mirrored repeat. *)
Theorem wrap_choice_reaches_texture (cus : list CustomUniform) (cu : CustomUniform)
  (url : string) (w : TextureWrapMode) (m : MaterialView) :
  NoDup (cu_name <$> cus) -> cu ∈ cus ->
  cu_type cu = SAMPLER_2D -> cu_value cu = RString url -> cu_binding cu = None ->
  let m' := syncCustomUniforms (updateUniformWrap (cu_id cu) w cus) m in
  exists t,
    uniforms m' !! cu_name cu = Some (JTexture t)
    /\ tex_url t = url
    /\ wrapS t = wrapT t
    /\ wrapS t = match w with
                 | REPEAT => RepeatWrapping
                 | CLAMP => ClampToEdgeWrapping
                 | MIRROR => MirroredRepeatWrapping
                 end.
Proof.
  intros Hnd Hin Ht Hv Hb m'.
  assert (Hin' : withWrap cu w ∈ updateUniformWrap (cu_id cu) w cus).
  { unfold updateUniformWrap. apply list_elem_of_fmap. exists cu. split; [|exact Hin].
    rewrite bool_decide_eq_true_2 by reflexivity. reflexivity. }
  assert (Hnd' : NoDup (cu_name <$> updateUniformWrap (cu_id cu) w cus))
    by (rewrite updateUniformWrap_names; exact Hnd).
  pose proof (UniformsFacts.syncCustomUniforms_lookup _ m _ Hnd' Hin') as Hl.
  change (cu_name (withWrap cu w)) with (cu_name cu) in Hl. fold m' in Hl.
  rewrite (proj1 (UniformsFacts.sampler_step m (withWrap cu w) url Ht Hv Hb)) in Hl.
  eexists. split; [exact Hl|]. cbn. destruct w; repeat split.
Qed.

Lemma wrap_choice_reaches_texture_witness :
  exists t,
    uniforms (syncCustomUniforms (updateUniformWrap "t1" MIRROR [noiseSampler])
                (freshView initialUniforms)) !! "u_texture" = Some (JTexture t)
    /\ wrapS t = MirroredRepeatWrapping /\ wrapT t = MirroredRepeatWrapping.
Proof.
  destruct (wrap_choice_reaches_texture [noiseSampler] noiseSampler _ MIRROR
              (freshView initialUniforms) (NoDup_singleton _)
              (proj2 (list_elem_of_singleton _ _) eq_refl) eq_refl eq_refl eq_refl)
    as (t & Hl & _ & Hst & Hs).
  exists t. split; [exact Hl|]. split; [exact Hs|]. rewrite <- Hst. exact Hs.
Defined.

End ControlsFacts.

(** * Properties of the syntax highlighter *)

Module EditorFacts.
Import Editor.

(** ** Strings *)

Lemma app_empty_r (s : string) : s +:+ "" = s.
Proof.
  induction s as [|c s IH]; [reflexivity|].
  change (String c (s +:+ "") = String c s). rewrite IH. reflexivity.
Qed.

Lemma app_assoc_s (a b c : string) : (a +:+ b) +:+ c = a +:+ b +:+ c.
Proof.
  induction a as [|x a IH]; [reflexivity|].
  change (String x ((a +:+ b) +:+ c) = String x (a +:+ b +:+ c)).
  rewrite IH. reflexivity.
Qed.

Lemma app_cons (c : ascii) (a b : string) : String c a +:+ b = String c (a +:+ b).
Proof. reflexivity. Qed.

Lemma length_app_s (a b : string) :
  String.length (a +:+ b) = String.length a + String.length b.
Proof.
  induction a as [|x a IH]; [reflexivity|].
  rewrite app_cons. cbn [String.length]. rewrite IH. reflexivity.
Qed.

Lemma takeS_app (w r : string) : takeS (String.length w) (w +:+ r) = w.
Proof.
  induction w as [|c w IH]; [destruct r; reflexivity|].
  rewrite app_cons. cbn [String.length takeS]. rewrite IH. reflexivity.
Qed.

Lemma taken (w r : string) :
  takeS (String.length (w +:+ r) - String.length r) (w +:+ r) = w.
Proof.
  rewrite length_app_s.
  replace (String.length w + String.length r - String.length r) with (String.length w) by lia.
  apply takeS_app.
Qed.

Lemma allChars_app p (a b : string) : allChars p (a +:+ b) = allChars p a && allChars p b.
Proof.
  induction a as [|c a IH]; [reflexivity|].
  rewrite app_cons. cbn [allChars]. rewrite IH, andb_assoc. reflexivity.
Qed.

Lemma allChars_impl (p q : ascii -> bool) s :
  (forall c, p c = true -> q c = true) -> allChars p s = true -> allChars q s = true.
Proof.
  intros H. induction s as [|c s IH]; [reflexivity|]. cbn. intros Hs.
  apply andb_prop in Hs as [Hc Hs]. rewrite (H _ Hc), (IH Hs). reflexivity.
Qed.

(** ** The matcher *)

Lemma in_allAscii c : In c allAscii.
Proof.
  unfold allAscii. rewrite <- (ascii_nat_embedding c).
  apply in_map, in_seq. pose proof (nat_ascii_bounded c). lia.
Qed.

Lemma repeat_trace p (body : MatchState -> Continuation -> option MatchState) :
  (forall x k z, body x k = Some z -> trace p x k z false) ->
  forall fuel x k z, repeat body fuel x k = Some z -> trace p x k z false.
Proof.
  intros Hbody. induction fuel as [|fuel IH]; intros x k z H.
  - exists x, "". split; [exact H|]. split; [reflexivity|]. split; [reflexivity|].
    split; [reflexivity|discriminate].
  - cbn [repeat] in H.
    destruct (body x _) as [z'|] eqn:Hb.
    + injection H as ->.
      apply Hbody in Hb as (y & w & Hk & Hr & Hw & Hc & _).
      destruct (String.length (rest y) <? String.length (rest x))%nat; [|discriminate Hk].
      apply IH in Hk as (y2 & w2 & Hk2 & Hr2 & Hw2 & Hc2 & _).
      exists y2, (w +:+ w2). split; [exact Hk2|]. split.
      { rewrite Hr, Hr2, app_assoc_s. reflexivity. }
      split; [rewrite allChars_app, Hw, Hw2; reflexivity|].
      split; [congruence|discriminate].
    + exists x, "". split; [exact H|]. split; [reflexivity|]. split; [reflexivity|].
    split; [reflexivity|discriminate].
Qed.

Lemma matcher_trace p r :
  consumes p r = true -> groupFree r = true ->
  forall x k z, matcher r x k = Some z -> trace p x k z (negb (nullable r)).
Proof.
  induction r as [|c|q|a IHa b IHb|a IHa b IHb|a IHa| |i a IHa]; intros Hp Hg x k z H;
    cbn [consumes groupFree nullable] in *.
  - exists x, "". split; [exact H|]. split; [reflexivity|]. split; [reflexivity|].
    split; [reflexivity|discriminate].
  - cbn [matcher] in H. destruct (rest x) as [|d tl] eqn:Hr; [discriminate H|].
    destruct (Ascii.eqb_spec c d) as [<-|]; [|discriminate H].
    exists (advance c tl x), (String c "").
    split; [exact H|]. split; [rewrite Hr; reflexivity|].
    split; [cbn [allChars]; rewrite Hp; reflexivity|]. split; [reflexivity|discriminate].
  - cbn [matcher] in H. destruct (rest x) as [|d tl] eqn:Hr; [discriminate H|].
    destruct (q d) eqn:Hq; [|discriminate H].
    exists (advance d tl x), (String d "").
    split; [exact H|]. split; [rewrite Hr; reflexivity|].
    split; [|split; [reflexivity|discriminate]].
    cbn [allChars]. rewrite forallb_forall in Hp. specialize (Hp d (in_allAscii d)).
    rewrite Hq in Hp. cbn [implb] in Hp. rewrite Hp. reflexivity.
  - apply andb_prop in Hp as [Hpa Hpb]. apply andb_prop in Hg as [Hga Hgb].
    cbn [matcher] in H.
    apply (IHa Hpa Hga) in H as (y1 & w1 & H1 & Hr1 & Hw1 & Hc1 & Hs1).
    apply (IHb Hpb Hgb) in H1 as (y & w2 & Hk & Hr2 & Hw2 & Hc2 & Hs2).
    exists y, (w1 +:+ w2). split; [exact Hk|]. split.
    { rewrite Hr1, Hr2, app_assoc_s. reflexivity. }
    split; [rewrite allChars_app, Hw1, Hw2; reflexivity|].
    split; [congruence|].
    intros Hn. apply negb_true_iff, andb_false_iff in Hn as [Hn|Hn].
    + specialize (Hs1 ltac:(rewrite Hn; reflexivity)).
      destruct w1; [contradiction|discriminate].
    + specialize (Hs2 ltac:(rewrite Hn; reflexivity)).
      destruct w1; [exact Hs2|discriminate].
  - apply andb_prop in Hp as [Hpa Hpb]. apply andb_prop in Hg as [Hga Hgb].
    cbn [matcher] in H.
    destruct (matcher a x k) as [z'|] eqn:Ha.
    + injection H as ->.
      apply (IHa Hpa Hga) in Ha as (y & w & Hk & Hr & Hw & Hc & Hs).
      exists y, w. split; [exact Hk|]. split; [exact Hr|]. split; [exact Hw|].
      split; [exact Hc|].
      intros Hn. apply Hs. apply negb_true_iff, orb_false_iff in Hn as [Hn _].
      rewrite Hn. reflexivity.
    + apply (IHb Hpb Hgb) in H as (y & w & Hk & Hr & Hw & Hc & Hs).
      exists y, w. split; [exact Hk|]. split; [exact Hr|]. split; [exact Hw|].
      split; [exact Hc|].
      intros Hn. apply Hs. apply negb_true_iff, orb_false_iff in Hn as [_ Hn].
      rewrite Hn. reflexivity.
  - cbn [matcher] in H. apply (repeat_trace p (matcher a)) in H; [exact H|].
    intros x' k' z' H'. apply (IHa Hp Hg) in H' as (y & w & Hk & Hr & Hw & Hc & _).
    exists y, w. split; [exact Hk|]. split; [exact Hr|]. split; [exact Hw|].
    split; [exact Hc|discriminate].
  - cbn [matcher] in H. destruct (xorb _ _); [|discriminate H].
    exists x, "". split; [exact H|]. split; [reflexivity|]. split; [reflexivity|].
    split; [reflexivity|discriminate].
  - discriminate Hg.
Qed.

(** A token: a group around a body without groups that consumes at least
    one character.  Its match captures the whole matched text. *)
Lemma token_trace p i a b s z :
  consumes p a = true -> groupFree a = true -> nullable a = false ->
  matcher (Group i a) {| prevIsWord := b; rest := s; captures := [] |} Some = Some z ->
  exists w, s = w +:+ rest z /\ w <> "" /\ allChars p w = true /\ captures z = [(i, w)].
Proof.
  intros Hp Hg Hn H. cbn [matcher] in H.
  apply (matcher_trace p a Hp Hg) in H as (y & w & Hk & Hr & Hw & Hc & Hs).
  cbn [rest captures] in Hr, Hc. injection Hk as <-.
  exists w. split; [exact Hr|]. split; [apply Hs; rewrite Hn; reflexivity|].
  split; [exact Hw|]. cbn [capture captures]. rewrite Hc. unfold consumedBy.
  cbn [rest]. rewrite Hr, taken. reflexivity.
Qed.

Lemma alt_cases a b x k z :
  matcher (Alt a b) x k = Some z -> matcher a x k = Some z \/ matcher b x k = Some z.
Proof. cbn [matcher]. destruct (matcher a x k); [intros [= ->]; left; reflexivity|auto]. Qed.

(** The greedy star over a character class, under a continuation that
    always succeeds where it is called, stops only where the class does. *)
Lemma repeat_S body fuel x k :
  repeat body (S fuel) x k
  = match body x (fun y =>
                    if (String.length (rest y) <? String.length (rest x))%nat
                    then repeat body fuel y k else None) with
    | Some z => Some z
    | None => k x
    end.
Proof. reflexivity. Qed.

Lemma matcher_class p x k :
  matcher (Class p) x k
  = match rest x with
    | String d tl => if p d then k (advance d tl x) else None
    | "" => None
    end.
Proof. reflexivity. Qed.

Lemma repeat_class_greedy p (k : Continuation) :
  (forall y, exists z, k y = Some z /\ rest z = rest y) ->
  forall fuel x, String.length (rest x) < fuel ->
  exists z, repeat (matcher (Class p)) fuel x k = Some z
            /\ (rest z = "" \/ exists c tl, rest z = String c tl /\ p c = false).
Proof.
  intros Hk. induction fuel as [|fuel IH]; intros x Hlen; [lia|].
  rewrite repeat_S, matcher_class. destruct (rest x) as [|c tl] eqn:Hr.
  - destruct (Hk x) as (z & Hz & Hrz). exists z. split; [exact Hz|].
    left. congruence.
  - destruct (p c) eqn:Hpc.
    + assert (Hlt : (String.length (rest (advance c tl x))
                     <? String.length (String c tl))%nat = true)
        by (apply Nat.ltb_lt; cbn; lia).
      rewrite Hlt.
      destruct (IH (advance c tl x)) as (z & Hz & Hend); [cbn in *; lia|].
      exists z. rewrite Hz. split; [reflexivity|exact Hend].
    + destruct (Hk x) as (z & Hz & Hrz). exists z. split; [exact Hz|].
      right. exists c, tl. split; [congruence|exact Hpc].
Qed.

(** The fuel of the star is never used up: more of it changes nothing. *)
Lemma repeat_ext (body : MatchState -> Continuation -> option MatchState) :
  (forall x k k', (forall y, k y = k' y) -> body x k = body x k') ->
  forall fuel x k k', (forall y, k y = k' y) -> repeat body fuel x k = repeat body fuel x k'.
Proof.
  intros Hbody. induction fuel as [|fuel IH]; intros x k k' Hk; [apply Hk|].
  rewrite !repeat_S.
  rewrite (Hbody x _ (fun y => if (String.length (rest y) <? String.length (rest x))%nat
                               then repeat body fuel y k' else None)).
  - rewrite Hk. reflexivity.
  - intros y. destruct (_ <? _)%nat; [apply IH, Hk|reflexivity].
Qed.

Lemma matcher_ext r : forall x k k',
  (forall y, k y = k' y) -> matcher r x k = matcher r x k'.
Proof.
  induction r as [|c|q|a IHa b IHb|a IHa b IHb|a IHa| |i a IHa]; intros x k k' Hk;
    cbn [matcher].
  - apply Hk.
  - destruct (rest x) as [|d tl]; [reflexivity|]. destruct (Ascii.eqb c d); [apply Hk|reflexivity].
  - destruct (rest x) as [|d tl]; [reflexivity|]. destruct (q d); [apply Hk|reflexivity].
  - apply IHa. intros y. apply IHb, Hk.
  - rewrite (IHa x k k' Hk), (IHb x k k' Hk). reflexivity.
  - apply repeat_ext; [exact IHa|exact Hk].
  - destruct (xorb _ _); [apply Hk|reflexivity].
  - apply IHa. intros y. apply Hk.
Qed.

Lemma star_fuel_suffices a : forall fuel fuel' x k,
  String.length (rest x) < fuel -> String.length (rest x) < fuel' ->
  repeat (matcher a) fuel x k = repeat (matcher a) fuel' x k.
Proof.
  induction fuel as [|fuel IH]; intros fuel' x k H H'; [lia|].
  destruct fuel' as [|fuel']; [lia|]. rewrite !repeat_S.
  rewrite (matcher_ext a x _ (fun y => if (String.length (rest y) <? String.length (rest x))%nat
                                       then repeat (matcher a) fuel' y k else None));
    [reflexivity|].
  intros y. destruct (String.length (rest y) <? String.length (rest x))%nat eqn:E;
    [|reflexivity].
  apply Nat.ltb_lt in E. apply IH; lia.
Qed.

(** ** The tokens *)

Lemma comment_end b s z :
  matcher commentToken {| prevIsWord := b; rest := s; captures := [] |} Some = Some z ->
  atLineEnd (rest z).
Proof.
  unfold commentToken. cbn [matcher lit rest].
  destruct s as [|c1 [|c2 s']]; try discriminate.
  { destruct (Ascii.eqb "/" c1); discriminate. }
  destruct (Ascii.eqb "/" c1); [|discriminate]. cbn [advance rest].
  destruct (Ascii.eqb "/" c2); [|discriminate]. cbn [advance rest captures].
  intros H.
  match type of H with
  | repeat _ ?fuel ?x ?k = _ =>
      destruct (repeat_class_greedy anyChar k ltac:(intros y; eexists; split; reflexivity)
                  fuel x ltac:(cbn; lia)) as (z' & Hz & Hend)
  end.
  assert (E : Some z' = Some z) by (rewrite <- Hz; exact H).
  injection E as <-.
  destruct Hend as [E|(c & tl & E & Hc)]; [left; exact E|].
  right. exists c, tl. split; [exact E|].
  unfold anyChar in Hc. apply negb_false_iff in Hc. exact Hc.
Qed.

Lemma comment_begins b s' :
  exists z,
    matcher commentToken {| prevIsWord := b; rest := "//" +:+ s'; captures := [] |} Some
    = Some z.
Proof.
  unfold commentToken. change ("//" +:+ s') with (String "/" (String "/" s')).
  cbn [matcher lit rest]. rewrite Ascii.eqb_refl. cbn [advance rest].
  rewrite Ascii.eqb_refl. cbn [advance rest captures].
  match goal with
  | |- exists z, repeat _ ?fuel ?x ?k = _ =>
      destruct (repeat_class_greedy anyChar k ltac:(intros y; eexists; split; reflexivity)
                  fuel x ltac:(cbn; lia)) as (z' & Hz & _)
  end.
  exists z'. exact Hz.
Qed.

(** What a match of [TOKEN_REGEX] looks like, and what the callback makes of
    it: the matched text, wrapped in the span of its class. *)
Lemma exec_token b s z :
  exec TOKEN_REGEX b s = Some z ->
  exists w class,
    s = w +:+ rest z /\ w <> "" /\ class ∈ tokenClasses
    /\ tokenCallback (matched s z) z = span class w
    /\ ((allChars anyChar w = true /\ atLineEnd (rest z)) \/ allChars wordOrDot w = true).
Proof.
  unfold exec, TOKEN_REGEX, alts. intros H.
  assert (Hcb : forall i w class,
            captures z = [(i, w)] -> w <> "" ->
            (match i with
             | 1 => Some "text-gray-500 italic"
             | 2 => Some "text-purple-400 font-bold"
             | 3 => Some "text-yellow-400"
             | 4 => Some "text-blue-300"
             | 5 => Some "text-green-400 font-bold"
             | 6 => Some "text-cyan-300"
             | _ => None
             end = Some class) ->
            tokenCallback (matched s z) z = span class w /\ class ∈ tokenClasses).
  { intros i w class Hc Hw Hcls. unfold tokenCallback, group. rewrite Hc.
    destruct w as [|c w]; [contradiction|].
    do 7 (destruct i as [|i];
          [first [discriminate Hcls
                 | injection Hcls as <-;
                   split; [reflexivity
                          |unfold tokenClasses;
                           repeat first [apply list_elem_of_here
                                        |apply list_elem_of_further]]]|]).
    discriminate Hcls. }
  assert (Htok : forall i a p class,
            matcher (Group i a) {| prevIsWord := b; rest := s; captures := [] |} Some = Some z ->
            consumes p a = true -> groupFree a = true -> nullable a = false ->
            (match i with
             | 1 => Some "text-gray-500 italic"
             | 2 => Some "text-purple-400 font-bold"
             | 3 => Some "text-yellow-400"
             | 4 => Some "text-blue-300"
             | 5 => Some "text-green-400 font-bold"
             | 6 => Some "text-cyan-300"
             | _ => None
             end = Some class) ->
            exists w, s = w +:+ rest z /\ w <> "" /\ class ∈ tokenClasses
                      /\ tokenCallback (matched s z) z = span class w
                      /\ allChars p w = true).
  { intros i a p class Hm Hp Hg Hn Hcls.
    apply (token_trace p) in Hm as (w & Hs & Hw & Hall & Hc); try assumption.
    destruct (Hcb i w class Hc Hw Hcls) as [Hcall Hin].
    exists w. repeat (split; [assumption|]). exact Hall. }
  apply alt_cases in H as [H|H].
  { pose proof (comment_end _ _ _ H) as Hend.
    destruct (Htok 1 _ anyChar _ H ltac:(vm_compute; reflexivity) eq_refl eq_refl eq_refl)
      as (w & Hs & Hw & Hin & Hcall & Hall).
    exists w, "text-gray-500 italic". repeat (split; [assumption|]). left. split; assumption. }
  apply alt_cases in H as [H|H].
  { destruct (Htok 2 _ wordOrDot _ H ltac:(vm_compute; reflexivity) eq_refl eq_refl eq_refl)
      as (w & Hs & Hw & Hin & Hcall & Hall).
    exists w, "text-purple-400 font-bold". repeat (split; [assumption|]). right. exact Hall. }
  apply alt_cases in H as [H|H].
  { destruct (Htok 3 _ wordOrDot _ H ltac:(vm_compute; reflexivity) eq_refl eq_refl eq_refl)
      as (w & Hs & Hw & Hin & Hcall & Hall).
    exists w, "text-yellow-400". repeat (split; [assumption|]). right. exact Hall. }
  apply alt_cases in H as [H|H].
  { destruct (Htok 4 _ wordOrDot _ H ltac:(vm_compute; reflexivity) eq_refl eq_refl eq_refl)
      as (w & Hs & Hw & Hin & Hcall & Hall).
    exists w, "text-blue-300". repeat (split; [assumption|]). right. exact Hall. }
  apply alt_cases in H as [H|H].
  { destruct (Htok 5 _ wordOrDot _ H ltac:(vm_compute; reflexivity) eq_refl eq_refl eq_refl)
      as (w & Hs & Hw & Hin & Hcall & Hall).
    exists w, "text-green-400 font-bold". repeat (split; [assumption|]). right. exact Hall. }
  destruct (Htok 6 _ wordOrDot _ H ltac:(vm_compute; reflexivity) eq_refl eq_refl eq_refl)
    as (w & Hs & Hw & Hin & Hcall & Hall).
  exists w, "text-cyan-300". repeat (split; [assumption|]). right. exact Hall.
Qed.

(** ** The scan *)

Lemma replaceFrom_copy r cb b c tl :
  exec r b (String c tl) = None ->
  replaceFrom r cb b 0 (String c tl) = String c (replaceFrom r cb (isWordChar c) 0 tl).
Proof. intros H. cbn [replaceFrom]. rewrite H. reflexivity. Qed.

Lemma replaceFrom_skip r cb w : forall b s,
  replaceFrom r cb b (String.length w) (w +:+ s) = replaceFrom r cb (lastIsWord b w) 0 s.
Proof.
  induction w as [|c w IH]; intros b s; [reflexivity|].
  rewrite app_cons. cbn [String.length replaceFrom lastIsWord]. apply IH.
Qed.

Lemma replaceFrom_match r cb b s z w :
  exec r b s = Some z -> s = w +:+ rest z -> w <> "" ->
  replaceFrom r cb b 0 s
  = cb (matched s z) z +:+ replaceFrom r cb (lastIsWord b w) 0 (rest z).
Proof.
  intros H Hs Hw. destruct w as [|c w]; [contradiction|].
  assert (Hm : matched s z = String c w) by (unfold matched; rewrite Hs; apply taken).
  rewrite Hs in H |- * at 1. rewrite app_cons in H |- *.
  cbn [replaceFrom]. rewrite H. rewrite <- app_cons, <- Hs, Hm.
  cbn [String.length lastIsWord]. rewrite replaceFrom_skip. reflexivity.
Qed.

(** ** Escaping *)

Lemma substChar_app c by_ (a b : string) :
  substChar c by_ (a +:+ b) = substChar c by_ a +:+ substChar c by_ b.
Proof.
  induction a as [|d a IH]; [reflexivity|].
  rewrite app_cons. cbn [substChar]. rewrite IH, app_assoc_s. reflexivity.
Qed.

Lemma replace_char c by_ : forall s b,
  by_ <> "" -> replaceFrom (Char c) (fun _ _ => by_) b 0 s = substChar c by_ s.
Proof.
  induction s as [|d tl IH]; intros b Hby; [reflexivity|].
  cbn [substChar]. destruct (Ascii.eqb c d) eqn:E.
  - rewrite (replaceFrom_match _ _ b (String d tl)
               {| prevIsWord := isWordChar d; rest := tl; captures := [] |} (String d "")).
    + cbn [rest]. rewrite IH by exact Hby. reflexivity.
    + unfold exec. cbn [matcher rest]. rewrite E. reflexivity.
    + reflexivity.
    + discriminate.
  - rewrite replaceFrom_copy.
    + rewrite IH by exact Hby. reflexivity.
    + unfold exec. cbn [matcher rest]. rewrite E. reflexivity.
Qed.

Lemma escapeChar_cases c :
  (c = "&"%char /\ escapeChar c = "&amp;")
  \/ (c = "<"%char /\ escapeChar c = "&lt;")
  \/ (c = ">"%char /\ escapeChar c = "&gt;")
  \/ (c <> "&"%char /\ c <> "<"%char /\ c <> ">"%char /\ escapeChar c = String c "").
Proof.
  unfold escapeChar.
  destruct (Ascii.eqb_spec c "&") as [->|N1]; [left; split; reflexivity|].
  destruct (Ascii.eqb_spec c "<") as [->|N2]; [right; left; split; reflexivity|].
  destruct (Ascii.eqb_spec c ">") as [->|N3]; [right; right; left; split; reflexivity|].
  right; right; right. repeat split; assumption.
Qed.

Lemma substChar_single c by_ d :
  substChar c by_ (String d "") = if Ascii.eqb c d then by_ else String d "".
Proof. cbn [substChar]. apply app_empty_r. Qed.

Lemma escape_each s : escape s = escapeEach s.
Proof.
  unfold escape, replace. rewrite !replace_char by discriminate.
  induction s as [|c s IH]; [reflexivity|].
  cbn [substChar escapeEach]. rewrite !substChar_app, IH.
  f_equal. destruct (escapeChar_cases c) as [[-> E]|[[-> E]|[[-> E]|(N1 & N2 & N3 & E)]]];
    rewrite E; try reflexivity.
  rewrite (proj2 (Ascii.eqb_neq "&" c)) by congruence.
  rewrite substChar_single, (proj2 (Ascii.eqb_neq "<" c)) by congruence.
  rewrite substChar_single, (proj2 (Ascii.eqb_neq ">" c)) by congruence.
  reflexivity.
Qed.

Lemma escapeEach_app a b : escapeEach (a +:+ b) = escapeEach a +:+ escapeEach b.
Proof.
  induction a as [|c a IH]; [reflexivity|].
  rewrite app_cons. cbn [escapeEach]. rewrite IH, app_assoc_s. reflexivity.
Qed.

Lemma escapeEach_chars (p : ascii -> bool) s :
  allChars p "&amp;" = true -> allChars p "&lt;" = true -> allChars p "&gt;" = true ->
  allChars p s = true -> allChars p (escapeEach s) = true.
Proof.
  intros Ha Hl Hg. induction s as [|c s IH]; [reflexivity|].
  cbn [allChars escapeEach]. intros H. apply andb_prop in H as [Hc Hs].
  rewrite allChars_app, (IH Hs), andb_true_r.
  destruct (escapeChar_cases c) as [[-> E]|[[-> E]|[[-> E]|(N1 & N2 & N3 & E)]]];
    rewrite E; try assumption.
  cbn [allChars]. rewrite Hc. reflexivity.
Qed.

Lemma escapeEach_notAngle s : allChars notAngle (escapeEach s) = true.
Proof.
  induction s as [|c s IH]; [reflexivity|].
  cbn [escapeEach]. rewrite allChars_app, IH, andb_true_r.
  destruct (escapeChar_cases c) as [[-> E]|[[-> E]|[[-> E]|(N1 & N2 & N3 & E)]]];
    rewrite E; try reflexivity.
  cbn [allChars]. unfold notAngle.
  rewrite (proj2 (Ascii.eqb_neq c "<")), (proj2 (Ascii.eqb_neq c ">")) by assumption.
  reflexivity.
Qed.

Lemma app_inv_head_s (w a b : string) : w +:+ a = w +:+ b -> a = b.
Proof.
  induction w as [|c w IH]; [exact (fun H => H)|].
  rewrite !app_cons. intros [= H]. exact (IH H).
Qed.

Lemma escapeEach_inj : forall a b, escapeEach a = escapeEach b -> a = b.
Proof.
  induction a as [|c a IH]; intros [|d b] H.
  - reflexivity.
  - exfalso. cbn [escapeEach] in H.
    destruct (escapeChar_cases d) as [[-> E]|[[-> E]|[[-> E]|(N1 & N2 & N3 & E)]]];
      rewrite E in H; discriminate H.
  - exfalso. cbn [escapeEach] in H.
    destruct (escapeChar_cases c) as [[-> E]|[[-> E]|[[-> E]|(N1 & N2 & N3 & E)]]];
      rewrite E in H; discriminate H.
  - cbn [escapeEach] in H.
    destruct (escapeChar_cases c) as [[-> E]|[[-> E]|[[-> E]|(N1 & N2 & N3 & E)]]];
      destruct (escapeChar_cases d) as [[-> E']|[[-> E']|[[-> E']|(M1 & M2 & M3 & E')]]];
      rewrite ?E, ?E' in H;
      first [ apply app_inv_head_s in H; rewrite (IH b H); reflexivity
            | rewrite ?app_cons in H; discriminate H
            | rewrite ?app_cons in H; injection H as Hc _; congruence
            | idtac ].
    rewrite !app_cons in H. injection H as -> H.
    change ("" +:+ escapeEach a = "" +:+ escapeEach b) with (escapeEach a = escapeEach b) in H.
    rewrite (IH b H). reflexivity.
Qed.

(** ** Tokens do not cut an entity *)

Lemma exec_empty b : exec TOKEN_REGEX b "" = None.
Proof. destruct b; vm_compute; reflexivity. Qed.

Lemma scan_amp b e :
  replaceFrom TOKEN_REGEX tokenCallback b 0 ("&amp;" +:+ e)
  = "&amp;" +:+ replaceFrom TOKEN_REGEX tokenCallback false 0 e.
Proof.
  change ("&amp;" +:+ e) with (String "&" (String "a" (String "m" (String "p" (String ";" e))))).
  rewrite replaceFrom_copy by (destruct b; vm_compute; reflexivity).
  rewrite replaceFrom_copy by (vm_compute; reflexivity).
  rewrite replaceFrom_copy by (vm_compute; reflexivity).
  rewrite replaceFrom_copy by (vm_compute; reflexivity).
  rewrite replaceFrom_copy by (vm_compute; reflexivity).
  reflexivity.
Qed.

Lemma scan_lt b e :
  replaceFrom TOKEN_REGEX tokenCallback b 0 ("&lt;" +:+ e)
  = "&lt;" +:+ replaceFrom TOKEN_REGEX tokenCallback false 0 e.
Proof.
  change ("&lt;" +:+ e) with (String "&" (String "l" (String "t" (String ";" e)))).
  rewrite replaceFrom_copy by (destruct b; vm_compute; reflexivity).
  rewrite replaceFrom_copy by (vm_compute; reflexivity).
  rewrite replaceFrom_copy by (vm_compute; reflexivity).
  rewrite replaceFrom_copy by (vm_compute; reflexivity).
  reflexivity.
Qed.

Lemma scan_gt b e :
  replaceFrom TOKEN_REGEX tokenCallback b 0 ("&gt;" +:+ e)
  = "&gt;" +:+ replaceFrom TOKEN_REGEX tokenCallback false 0 e.
Proof.
  change ("&gt;" +:+ e) with (String "&" (String "g" (String "t" (String ";" e)))).
  rewrite replaceFrom_copy by (destruct b; vm_compute; reflexivity).
  rewrite replaceFrom_copy by (vm_compute; reflexivity).
  rewrite replaceFrom_copy by (vm_compute; reflexivity).
  rewrite replaceFrom_copy by (vm_compute; reflexivity).
  reflexivity.
Qed.

(** A run of word characters and dots at the head of an escaped text is a
    run of the source text itself. *)
Lemma plain_prefix w : forall code r,
  escapeEach code = w +:+ r -> allChars wordOrDot w = true ->
  exists code2, code = w +:+ code2 /\ r = escapeEach code2 /\ escapeEach w = w.
Proof.
  induction w as [|a w IH]; intros code r H Hall.
  - exists code. split; [reflexivity|]. split; [symmetry; exact H|reflexivity].
  - cbn [allChars] in Hall. apply andb_prop in Hall as [Ha Hw].
    destruct code as [|c code]; [discriminate H|].
    cbn [escapeEach] in H. rewrite app_cons in H.
    destruct (escapeChar_cases c) as [[-> E]|[[-> E]|[[-> E]|(N1 & N2 & N3 & E)]]];
      rewrite E in H; rewrite ?app_cons in H.
    1-3: injection H as <- _; discriminate Ha.
    injection H as -> H. change ("" +:+ escapeEach code) with (escapeEach code) in H.
    destruct (IH code r H Hw) as (code2 & -> & -> & Hesc).
    exists code2. split; [reflexivity|]. split; [reflexivity|].
    cbn [escapeEach]. rewrite E, Hesc. reflexivity.
Qed.

(** A text that runs up to the end of the line takes whole entities. *)
Lemma peel e : forall w r rest,
  allChars anyChar e = true -> w +:+ r = e +:+ rest -> atLineEnd r ->
  exists w1, w = e +:+ w1 /\ w1 +:+ r = rest.
Proof.
  induction e as [|c e IH]; intros w r rest He H Hend.
  - exists w. split; [reflexivity|exact H].
  - cbn [allChars] in He. apply andb_prop in He as [Hc He].
    rewrite app_cons in H. destruct w as [|a w].
    + exfalso. change ("" +:+ r) with r in H. subst r.
      destruct Hend as [E|(c' & tl & E & Hterm)]; [discriminate E|].
      injection E as <- _. unfold anyChar in Hc. rewrite Hterm in Hc. discriminate Hc.
    + rewrite app_cons in H. injection H as -> H.
      destruct (IH w r rest He H Hend) as (w1 & -> & Hw1).
      exists w1. split; [reflexivity|exact Hw1].
Qed.

Lemma escapeChar_anyChar c : anyChar c = true -> allChars anyChar (escapeChar c) = true.
Proof.
  intros Hc.
  destruct (escapeChar_cases c) as [[-> E]|[[-> E]|[[-> E]|(N1 & N2 & N3 & E)]]];
    rewrite E; try reflexivity.
  cbn [allChars]. rewrite Hc. reflexivity.
Qed.

Lemma comment_prefix : forall code w r,
  escapeEach code = w +:+ r -> allChars anyChar w = true -> atLineEnd r ->
  exists cm code2, code = cm +:+ code2 /\ w = escapeEach cm /\ r = escapeEach code2.
Proof.
  induction code as [|c code IH]; intros w r H Hall Hend.
  - destruct w; [|discriminate H]. exists "", "". repeat split. symmetry. exact H.
  - cbn [escapeEach] in H. destruct (anyChar c) eqn:Hc.
    + destruct (peel (escapeChar c) w r (escapeEach code) (escapeChar_anyChar c Hc)
                  (eq_sym H) Hend) as (w1 & -> & Hw1).
      rewrite allChars_app in Hall. apply andb_prop in Hall as [_ Hall1].
      destruct (IH w1 r (eq_sym Hw1) Hall1 Hend) as (cm & code2 & -> & -> & ->).
      exists (String c cm), code2. repeat split.
    + assert (E : escapeChar c = String c "").
      { destruct (escapeChar_cases c) as [[-> E]|[[-> E]|[[-> E]|(N1 & N2 & N3 & E)]]];
          try discriminate Hc. exact E. }
      rewrite E in H. destruct w as [|a w].
      * exists "", (String c code). split; [reflexivity|]. split; [reflexivity|].
        cbn [escapeEach]. rewrite E. symmetry. exact H.
      * exfalso. rewrite !app_cons in H. injection H as <- _.
        cbn [allChars] in Hall. rewrite Hc in Hall. discriminate Hall.
Qed.

(** ** The highlighted text *)

Lemma concatS_cons (seg : Segment) (segs : list Segment) (f : Segment -> string) :
  concatS (f <$> seg :: segs) = f seg +:+ concatS (f <$> segs).
Proof. reflexivity. Qed.

Lemma scan_segments : forall n code b,
  String.length code <= n ->
  exists segs : list Segment,
    concatS (snd <$> segs) = code
    /\ replaceFrom TOKEN_REGEX tokenCallback b 0 (escapeEach code)
       = concatS (renderSegment <$> segs)
    /\ (forall seg class, seg ∈ segs -> seg.1 = Some class -> class ∈ tokenClasses).
Proof.
  assert (Hnil : forall b,
            exists segs : list Segment,
              concatS (snd <$> segs) = ""
              /\ replaceFrom TOKEN_REGEX tokenCallback b 0 (escapeEach "")
                 = concatS (renderSegment <$> segs)
              /\ (forall seg class, seg ∈ segs -> seg.1 = Some class ->
                                    class ∈ tokenClasses)).
  { intros b. exists []. split; [reflexivity|]. split.
    - cbn [escapeEach replaceFrom]. rewrite exec_empty. reflexivity.
    - intros seg class Hin. inversion Hin. }
  assert (Hcons : forall (seg : Segment) segs' code' out',
            concatS (snd <$> segs') = code' ->
            out' = concatS (renderSegment <$> segs') ->
            (forall seg class, seg ∈ segs' -> seg.1 = Some class -> class ∈ tokenClasses) ->
            (forall class, seg.1 = Some class -> class ∈ tokenClasses) ->
            exists segs : list Segment,
              concatS (snd <$> segs) = seg.2 +:+ code'
              /\ renderSegment seg +:+ out' = concatS (renderSegment <$> segs)
              /\ (forall seg class, seg ∈ segs -> seg.1 = Some class ->
                                    class ∈ tokenClasses)).
  { intros seg segs' code' out' Hc Ho Hcls Hseg. exists (seg :: segs').
    split; [rewrite concatS_cons, Hc; reflexivity|].
    split; [rewrite concatS_cons, Ho; reflexivity|].
    intros seg0 class Hin. apply elem_of_cons in Hin as [->|Hin]; [apply Hseg|].
    apply Hcls, Hin. }
  induction n as [|n IH]; intros code b Hlen.
  { destruct code; [apply Hnil|cbn in Hlen; lia]. }
  destruct code as [|c code]; [apply Hnil|].
  cbn [String.length] in Hlen.
  assert (Hentity : forall e : string,
            escapeChar c = e ->
            replaceFrom TOKEN_REGEX tokenCallback b 0 (e +:+ escapeEach code)
            = e +:+ replaceFrom TOKEN_REGEX tokenCallback false 0 (escapeEach code) ->
            exists segs : list Segment,
              concatS (snd <$> segs) = String c code
              /\ replaceFrom TOKEN_REGEX tokenCallback b 0 (escapeEach (String c code))
                 = concatS (renderSegment <$> segs)
              /\ (forall seg class, seg ∈ segs -> seg.1 = Some class ->
                                    class ∈ tokenClasses)).
  { intros e He Hscan.
    destruct (IH code false ltac:(lia)) as (segs' & Hc & Ho & Hcls).
    destruct (Hcons (None, String c "") segs' code _ Hc Ho Hcls ltac:(discriminate))
      as (segs & Hc1 & Ho1 & Hcls1).
    exists segs. split; [exact Hc1|]. split; [|exact Hcls1].
    cbn [escapeEach]. rewrite He, Hscan, <- Ho1.
    unfold renderSegment. cbn [fst snd]. rewrite escape_each. cbn [escapeEach].
    rewrite He, app_empty_r. reflexivity. }
  destruct (escapeChar_cases c) as [[-> E]|[[-> E]|[[-> E]|(N1 & N2 & N3 & E)]]].
  - apply (Hentity _ E), scan_amp.
  - apply (Hentity _ E), scan_lt.
  - apply (Hentity _ E), scan_gt.
  - assert (Hesc : escapeEach (String c code) = String c (escapeEach code)).
    { cbn [escapeEach]. rewrite E. reflexivity. }
    destruct (exec TOKEN_REGEX b (String c (escapeEach code))) as [z|] eqn:Hexec.
    + destruct (exec_token _ _ _ Hexec) as (w & class & Hs & Hw & Hin & Hcall & Hkind).
      assert (Hsplit : exists cm code2,
                String c code = cm +:+ code2 /\ w = escapeEach cm
                /\ rest z = escapeEach code2).
      { destruct Hkind as [[Hall Hend]|Hall].
        - apply (comment_prefix _ w (rest z)); [rewrite Hesc; exact Hs|exact Hall|exact Hend].
        - destruct (plain_prefix w (String c code) (rest z)) as (code2 & H1 & H2 & H3);
            [rewrite Hesc; exact Hs|exact Hall|].
          exists w, code2. split; [exact H1|]. split; [symmetry; exact H3|exact H2]. }
      destruct Hsplit as (cm & code2 & Hcode & Hwcm & Hrest).
      assert (Hcm : cm <> "") by (intros ->; apply Hw; rewrite Hwcm; reflexivity).
      assert (Hshort : String.length code2 <= n).
      { assert (String.length (String c code) = String.length cm + String.length code2)
          by (rewrite Hcode; apply length_app_s).
        destruct cm; [contradiction|]. cbn [String.length] in *. lia. }
      destruct (IH code2 (lastIsWord b w) Hshort) as (segs' & Hc & Ho & Hcls).
      destruct (Hcons (Some class, cm) segs' code2 _ Hc Ho Hcls
                  ltac:(intros class' [= <-]; exact Hin)) as (segs & Hc1 & Ho1 & Hcls1).
      exists segs. split; [rewrite Hcode; exact Hc1|]. split; [|exact Hcls1].
      rewrite Hesc, (replaceFrom_match _ _ _ _ _ _ Hexec Hs Hw), Hcall, Hrest, <- Ho1.
      unfold renderSegment. cbn [fst snd]. rewrite escape_each, <- Hwcm. reflexivity.
    + destruct (IH code (isWordChar c) ltac:(lia)) as (segs' & Hc & Ho & Hcls).
      destruct (Hcons (None, String c "") segs' code _ Hc Ho Hcls ltac:(discriminate))
        as (segs & Hc1 & Ho1 & Hcls1).
      exists segs. split; [exact Hc1|]. split; [|exact Hcls1].
      rewrite Hesc, (replaceFrom_copy _ _ _ _ _ Hexec), <- Ho1.
      unfold renderSegment. cbn [fst snd]. rewrite escape_each. cbn [escapeEach].
      rewrite E, app_empty_r. reflexivity.
Qed.

(** X23.  Escaping replaces each character on its own: [&], [<] and [>] by
    their entities, any other character by itself.  So the escaped text holds
    no angle bracket, and two different texts never have the same escaped
    form. *)
Theorem escape_character_by_character (text : string) :
  escape text = escapeEach text
  /\ allChars notAngle (escape text) = true
  /\ (forall text', escape text = escape text' -> text = text').
Proof.
  split; [apply escape_each|]. split.
  - rewrite escape_each. apply escapeEach_notAngle.
  - intros text'. rewrite !escape_each. apply escapeEach_inj.
Qed.

(** X24.  The highlighter only wraps: the source text can be cut into
    consecutive pieces such that the highlighted HTML is, piece after piece,
    the escaped piece, either as it is or inside one [span] of one of the six
    token classes.  No character of the source is lost, changed or
    duplicated, no entity is cut by a tag, and the only markup in the result
    is the [span] tags of the highlighter. *)
Theorem highlight_wraps_segments (code : string) :
  exists segs : list Segment,
    concatS (snd <$> segs) = code
    /\ highlight code = concatS (renderSegment <$> segs)
    /\ (forall seg class, seg ∈ segs -> seg.1 = Some class -> class ∈ tokenClasses).
Proof.
  unfold highlight, replace. rewrite escape_each.
  exact (scan_segments (String.length code) code false (le_n _)).
Qed.

(** X25.  A line comment is one token: a text that starts with [//] and has
    no line break is highlighted as a single comment span around the whole
    escaped text, whatever keywords, numbers or markup it contains. *)
Theorem comment_line_single_span (t : string) :
  allChars anyChar t = true ->
  highlight ("//" +:+ t) = span "text-gray-500 italic" (escape ("//" +:+ t)).
Proof.
  intros Hall. unfold highlight, replace. rewrite escape_each, escapeEach_app.
  change (escapeEach "//") with "//".
  set (E := escapeEach t).
  assert (HE : allChars anyChar E = true)
    by (apply escapeEach_chars; [reflexivity..|exact Hall]).
  destruct (comment_begins false E) as (z & Hz).
  pose proof (comment_end _ _ _ Hz) as Hend.
  assert (Hexec : exec TOKEN_REGEX false ("//" +:+ E) = Some z).
  { unfold exec, TOKEN_REGEX, alts.
    change (matcher (Alt commentToken ?r) ?x ?k)
      with (match matcher commentToken x k with
            | Some z => Some z
            | None => matcher r x k
            end).
    rewrite Hz. reflexivity. }
  apply (token_trace anyChar) in Hz as (w & Hs & Hw & Hallw & Hc);
    [|vm_compute; reflexivity|reflexivity|reflexivity].
  assert (Hrest : rest z = "").
  { destruct Hend as [E0|(c & tl & E0 & Hterm)]; [exact E0|]. exfalso.
    assert (Hsuffix : allChars anyChar ("//" +:+ E) = true)
      by (rewrite allChars_app, HE; reflexivity).
    rewrite Hs, allChars_app, E0 in Hsuffix. cbn [allChars] in Hsuffix.
    unfold anyChar at 2 in Hsuffix. rewrite Hterm in Hsuffix.
    rewrite andb_false_r in Hsuffix. discriminate Hsuffix. }
  rewrite (replaceFrom_match _ _ _ _ _ _ Hexec Hs Hw), Hrest.
  cbn [replaceFrom]. rewrite exec_empty, app_empty_r.
  rewrite Hrest, app_empty_r in Hs. subst w.
  unfold tokenCallback, group. rewrite Hc. reflexivity.
Qed.

Lemma comment_line_single_span_witness :
  highlight ("//" +:+ " if (a<b) float x = 1.0;")
  = span "text-gray-500 italic" "// if (a&lt;b) float x = 1.0;".
Proof. exact (comment_line_single_span " if (a<b) float x = 1.0;" eq_refl). Defined.

End EditorFacts.

(** * Properties of the application shell *)

Module AppFacts.
Import Diagnostics Validation Uniforms App.

Lemma label_nonempty (label s : string) :
  label <> "" -> truthy (Some (label +:+ s)) = true.
Proof. destruct label; [contradiction|reflexivity]. Qed.

Lemma notify_pairs st a :
  editorVertex (notify st a) = editorVertex st
  /\ editorFragment (notify st a) = editorFragment st
  /\ activeVertex (notify st a) = activeVertex st
  /\ activeFragment (notify st a) = activeFragment st.
Proof. destruct a; repeat split. Qed.

(** The validation effect leaves the editor's pair and the active pair of
    [App] alone; without a context it does nothing at all. *)
Lemma afterValidation_pairs drv st :
  editorVertex (afterValidation drv st) = editorVertex st
  /\ editorFragment (afterValidation drv st) = editorFragment st
  /\ activeVertex (afterValidation drv st) = activeVertex st
  /\ activeFragment (afterValidation drv st) = activeFragment st
  /\ (has_webgl2 drv = false -> afterValidation drv st = st).
Proof.
  unfold afterValidation.
  assert (H : forall acts st0,
            editorVertex (foldl notify st0 acts) = editorVertex st0
            /\ editorFragment (foldl notify st0 acts) = editorFragment st0
            /\ activeVertex (foldl notify st0 acts) = activeVertex st0
            /\ activeFragment (foldl notify st0 acts) = activeFragment st0).
  { induction acts as [|a acts IH]; intros st0; [repeat split|].
    cbn [foldl]. destruct (IH (notify st0 a)) as (E1 & E2 & E3 & E4).
    destruct (notify_pairs st0 a) as (F1 & F2 & F3 & F4).
    repeat split; congruence. }
  destruct (H (actions (validationEffect drv (sceneProps st))) st) as (E1 & E2 & E3 & E4).
  repeat (split; [assumption|]).
  intros Hgl. unfold validationEffect. rewrite Hgl. reflexivity.
Qed.

(** X26.  A click on Run submits the editor's pair as it is at the click,
    and the console tells the outcome of its validation: after the
    validation of the new active pair, the console shows the message of the
    failing stage (vertex, fragment or link, with its label, and the console
    is opened) exactly when the validation took an error exit; when the
    draft is promoted, or when there is no WebGL context, no message is
    left, not even one from an earlier run.  This holds whether or not the
    effect ran once more on the old pair in between. *)
Theorem run_reports_outcome (drv : Driver) (rerendered : bool) (st : App.State) :
  let st' := run drv rerendered st in
  let draft := editorDraft st in
  activeVertex st' = editorVertex st
  /\ activeFragment st' = editorFragment st
  /\ match exitByDriver drv draft with
     | VertexError =>
         errorMsg st' = Some (vertexErrorMessage drv draft)
         /\ consoleShown st' = true /\ isConsoleOpen st' = true
     | FragmentError =>
         errorMsg st' = Some (fragmentErrorMessage drv draft)
         /\ consoleShown st' = true /\ isConsoleOpen st' = true
     | LinkError =>
         errorMsg st' = Some (linkErrorMessage drv draft)
         /\ consoleShown st' = true /\ isConsoleOpen st' = true
     | Promoted | NoContext => errorMsg st' = None /\ consoleShown st' = false
     end.
Proof.
  intros st' draft. unfold st', run, handleRun.
  set (st1 := setErrorMsg None st).
  set (st2 := if rerendered then afterValidation drv st1 else st1).
  assert (Hst2 : editorVertex st2 = editorVertex st /\ editorFragment st2 = editorFragment st
                 /\ (has_webgl2 drv = false -> errorMsg st2 = None)).
  { unfold st2. destruct rerendered; [|repeat split].
    destruct (afterValidation_pairs drv st1) as (E1 & E2 & _ & _ & Hno).
    split; [exact E1|]. split; [exact E2|]. intros Hgl. rewrite (Hno Hgl). reflexivity. }
  destruct Hst2 as (_ & _ & Hnone).
  set (st3 := timerFires (editorVertex st, editorFragment st) st2).
  assert (Hprops : sceneProps st3 = draft) by reflexivity.
  destruct (afterValidation_pairs drv st3) as (_ & _ & E3 & E4 & Hno).
  split; [exact E3|]. split; [exact E4|].
  unfold afterValidation. rewrite Hprops.
  rewrite ValidationFacts.validationEffect_actions, ValidationFacts.validationEffect_exit.
  destruct (exitByDriver drv draft) eqn:He; cbn; try (repeat split; fail).
  assert (Hgl : has_webgl2 drv = false).
  { unfold exitByDriver in He.
    destruct (has_webgl2 drv); [|reflexivity]. cbn in He.
    destruct (truthy _); [discriminate He|]. destruct (truthy _); [discriminate He|].
    destruct (_ && _); discriminate He. }
  unfold consoleShown. cbn. rewrite (Hnone Hgl). split; reflexivity.
Qed.

Lemma run_reports_outcome_witness :
  errorMsg (run (rejecting FRAGMENT_SHADER) true editing)
  = Some ("FRAGMENT SHADER ERROR:" +:+ nl +:+ "ERROR: line 9: 'foo' : undeclared identifier")
  /\ isConsoleOpen (run (rejecting FRAGMENT_SHADER) true editing) = true.
Proof.
  pose proof (run_reports_outcome (rejecting FRAGMENT_SHADER) true editing) as H.
  cbv zeta in H. destruct H as (_ & _ & H).
  change (exitByDriver (rejecting FRAGMENT_SHADER) (editorDraft editing))
    with FragmentError in H.
  destruct H as (Hmsg & _ & Hopen). split; [exact Hmsg|exact Hopen].
Defined.

(** X27.  Loading a preset puts its pair in the editor and makes it the
    active pair at once, clears the uniform list and the error.  For a
    preset whose name contains "Textura" the list holds one sampler
    declaration named [u_texture] with the generated noise image; it has no
    wrap mode of its own, and the next pass makes its entry a texture with
    both wraps set to repeat. *)
Theorem preset_loads_texture_uniform (presets : list ShaderPreset) (noise : string)
  (index : nat) (preset : ShaderPreset) (st : App.State) (m : MaterialView) :
  presets !! index = Some preset ->
  exists st',
    loadPreset presets noise index st = Some st'
    /\ editorVertex st' = preset_vertex preset
    /\ editorFragment st' = preset_fragment preset
    /\ activeVertex st' = preset_vertex preset
    /\ activeFragment st' = preset_fragment preset
    /\ errorMsg st' = None
    /\ (occursIn "Textura" (preset_name preset) = false -> customUniforms st' = [])
    /\ (occursIn "Textura" (preset_name preset) = true ->
        customUniforms st' = [autoTexture noise]
        /\ uniforms (syncCustomUniforms (customUniforms st') m) !! "u_texture"
           = Some (JTexture {| tex_url := noise; wrapS := RepeatWrapping;
                               wrapT := RepeatWrapping; tex_needsUpdate := true |})).
Proof.
  intros Hp. unfold loadPreset. rewrite Hp. cbn [mbind option_bind].
  eexists. split; [reflexivity|]. cbn [editorVertex editorFragment activeVertex
                                       activeFragment errorMsg customUniforms].
  repeat (split; [reflexivity|]). split.
  - intros ->. reflexivity.
  - intros ->. split; [reflexivity|].
    pose proof (UniformsFacts.syncCustomUniform_lookup m (autoTexture noise)) as Hl.
    rewrite (proj1 (UniformsFacts.sampler_step m (autoTexture noise) noise
                      eq_refl eq_refl eq_refl)) in Hl.
    exact Hl.
Qed.

Lemma preset_loads_texture_uniform_witness :
  exists st',
    loadPreset texturePresets "data:," 1 editing = Some st'
    /\ activeFragment st' = "f1"
    /\ customUniforms st' = [autoTexture "data:,"].
Proof.
  destruct (preset_loads_texture_uniform texturePresets "data:," 1 _ editing
              (freshView initialUniforms) eq_refl)
    as (st' & Hl & _ & _ & _ & Hf & _ & _ & Ht).
  exists st'. split; [exact Hl|]. split; [exact Hf|].
  exact (proj1 (Ht eq_refl)).
Defined.

End AppFacts.

(** * Properties of the generated noise image *)

Module ConstantsFacts.
Import Constants.









End ConstantsFacts.
